(** * krypy.deflation: oblique deflation projector and Arnoldifyer

    A shallow embedding of [src/krypy/deflation.py].  numpy arrays are
    two-dimensional matrices with run-time shapes, every numpy call that can
    raise returns a [result], and the LAPACK-backed primitives the module
    calls (general and triangular solve, pivoted QR, Hessenberg reduction,
    the spectral norm) are operations of a [Backend] that the theorems
    constrain call by call through their documented contracts.  Scalars are
    an arbitrary commutative ring with a conjugation; the rationals [Qc]
    instantiate it for the executable examples.  The two public methods are
    embedded a second time as programs on objects and a store of arrays,
    where binding an attribute and updating an array in place can be said,
    and related to their value models. *)

From Stdlib Require Import List Arith Lia Bool Ring ZArith.
From Stdlib Require QArith Qcanon Qcabs.
Import ListNotations.

(** ** Exceptions and the error monad *)

Inductive exn : Type :=
| ValueError     (* shape mismatch in dot, bmat, concatenate, broadcasting *)
| LinAlgError    (* singular matrix in a solve *)
| IndexError.    (* index out of bounds *)

Inductive result (A : Type) : Type :=
| Ok (a : A)
| Raise (e : exn).
Arguments Ok {A} a.
Arguments Raise {A} e.

Definition bind {A B : Type} (c : result A) (k : A -> result B) : result B :=
  match c with
  | Ok a => k a
  | Raise e => Raise e
  end.

Declare Scope py_scope.
Delimit Scope py_scope with py.
Notation "x <- c ;; k" := (bind c (fun x => k))
  (at level 61, c at next level, right associativity) : py_scope.
Notation "' pat <- c ;; k" := (bind c (fun x => match x with pat => k end))
  (at level 61, pat pattern, c at next level, right associativity) : py_scope.
Open Scope py_scope.

Fixpoint mapM {A B : Type} (f : A -> result B) (l : list A) : result (list B) :=
  match l with
  | [] => Ok []
  | a :: t => b <- f a ;; bs <- mapM f t ;; Ok (b :: bs)
  end.

Lemma bind_Ok_inv {A B : Type} (c : result A) (k : A -> result B) (b : B) :
  bind c k = Ok b -> exists a, c = Ok a /\ k a = Ok b.
Proof.
  destruct c as [a|e]; simpl; intros Hk; [exists a; split; auto | discriminate].
Qed.

Lemma bind_Raise_inv {A B : Type} (c : result A) (k : A -> result B) (e : exn) :
  bind c k = Raise e -> c = Raise e \/ exists a, c = Ok a /\ k a = Raise e.
Proof.
  destruct c as [a|e']; simpl; intros Hk.
  - right. exists a. split; [reflexivity | exact Hk].
  - left. congruence.
Qed.

(** ** Scalars *)

Class Scalar : Type := {
  F : Type;
  Fzero : F;
  Fone : F;
  Fadd : F -> F -> F;
  Fmul : F -> F -> F;
  Fsub : F -> F -> F;
  Fopp : F -> F;
  Fconj : F -> F;            (* complex conjugation, [.conj()] *)
  Fabs : F -> F;             (* [numpy.abs] *)
  Fgtb : F -> F -> bool;     (* [>] on magnitudes *)
  F1e_14 : F                 (* the literal [1e-14] *)
}.

Class ScalarLaws (S : Scalar) : Prop := {
  F_ring : ring_theory Fzero Fone Fadd Fmul Fsub Fopp (@eq F);
  Fconj_add : forall x y, Fconj (Fadd x y) = Fadd (Fconj x) (Fconj y);
  Fconj_mul : forall x y, Fconj (Fmul x y) = Fmul (Fconj x) (Fconj y);
  Fconj_one : Fconj Fone = Fone;
  Fconj_invol : forall x, Fconj (Fconj x) = x
}.

Declare Scope F_scope.
Delimit Scope F_scope with F.
Notation "0" := Fzero : F_scope.
Notation "1" := Fone : F_scope.
Infix "+" := Fadd : F_scope.
Infix "*" := Fmul : F_scope.
Infix "-" := Fsub : F_scope.
Notation "- x" := (Fopp x) : F_scope.

(** ** Matrices with run-time shapes *)

Section Matrix.
Context {S : Scalar}.

(** A two-dimensional array: its shape and its rows.  A shape with a zero
    dimension is a value of its own ([numpy.zeros((0, n))] has [n] columns). *)
Record matrix : Type := Mat {
  nrows : nat;
  ncols : nat;
  rows : list (list F)
}.

Definition shape (A : matrix) : nat * nat := (nrows A, ncols A).

Definition entry (A : matrix) (i j : nat) : F :=
  nth j (nth i (rows A) []) Fzero.

Definition tabulate (r c : nat) (f : nat -> nat -> F) : matrix :=
  Mat r c (map (fun i => map (f i) (seq 0 c)) (seq 0 r)).

(** A well-formed array has exactly the rows and columns its shape says. *)
Definition wf (A : matrix) : Prop :=
  tabulate (nrows A) (ncols A) (entry A) = A.

Lemma entry_tabulate r c f i j :
  i < r -> j < c -> entry (tabulate r c f) i j = f i j.
Proof.
  intros Hi Hj. unfold entry, tabulate. simpl.
  rewrite (nth_indep _ [] (map (f 0) (seq 0 c))) by (rewrite length_map, length_seq; lia).
  change (map (f 0) (seq 0 c)) with ((fun i => map (f i) (seq 0 c)) 0).
  rewrite map_nth, seq_nth by lia. simpl.
  rewrite (nth_indep _ Fzero (f i 0)) by (rewrite length_map, length_seq; lia).
  rewrite map_nth, seq_nth by lia. reflexivity.
Qed.

Lemma tabulate_ext r c f g :
  (forall i j, i < r -> j < c -> f i j = g i j) ->
  tabulate r c f = tabulate r c g.
Proof.
  intros H. unfold tabulate. f_equal.
  apply map_ext_in. intros i Hi. apply in_seq in Hi.
  apply map_ext_in. intros j Hj. apply in_seq in Hj.
  apply H; lia.
Qed.

Lemma wf_tabulate r c f : wf (tabulate r c f).
Proof.
  unfold wf. simpl. apply tabulate_ext. intros i j Hi Hj.
  apply entry_tabulate; assumption.
Qed.

Lemma matrix_ext (A B : matrix) :
  wf A -> wf B -> nrows A = nrows B -> ncols A = ncols B ->
  (forall i j, i < nrows A -> j < ncols A -> entry A i j = entry B i j) ->
  A = B.
Proof.
  intros HA HB Hr Hc H. rewrite <- HA, <- HB, <- Hr, <- Hc.
  apply tabulate_ext. exact H.
Qed.

(** *** Constructors *)

Definition zeros (r c : nat) : matrix := tabulate r c (fun _ _ => 0%F).

(** [numpy.eye(N, M)]: ones on the main diagonal. *)
Definition eye (r c : nat) : matrix :=
  tabulate r c (fun i j => if i =? j then 1%F else 0%F).

(** The nested list [[[x]]], a 1x1 array. *)
Definition scalar11 (x : F) : matrix := tabulate 1 1 (fun _ _ => x).

(** [A.T.conj()] *)
Definition conjT (A : matrix) : matrix :=
  tabulate (ncols A) (nrows A) (fun i j => Fconj (entry A j i)).

Definition neg (A : matrix) : matrix :=
  tabulate (nrows A) (ncols A) (fun i j => (- entry A i j)%F).

(** The lower and the upper triangle, [numpy.tril] and [numpy.triu]. *)
Definition tril (A : matrix) : matrix :=
  tabulate (nrows A) (ncols A) (fun i j => if j <=? i then entry A i j else 0%F).
Definition triu (A : matrix) : matrix :=
  tabulate (nrows A) (ncols A) (fun i j => if i <=? j then entry A i j else 0%F).

(** *** Finite sums and the matrix product *)

Fixpoint sumn (p : nat) (f : nat -> F) : F :=
  match p with
  | O => 0%F
  | Datatypes.S p' => (sumn p' f + f p')%F
  end.

(** The product of [A] and [B] over the inner dimension of [A]. *)
Definition mmul (A B : matrix) : matrix :=
  tabulate (nrows A) (ncols B)
    (fun i j => sumn (ncols A) (fun k => (entry A i k * entry B k j)%F)).

(** [A.dot(B)] for two-dimensional arrays. *)
Definition dot (A B : matrix) : result matrix :=
  if ncols A =? nrows B then Ok (mmul A B) else Raise ValueError.

(** *** Elementwise operations with broadcasting *)

(** numpy's rule for one axis: equal lengths, or one of them is 1. *)
Definition bdim (a b : nat) : result nat :=
  if a =? b then Ok a
  else if a =? 1 then Ok b
  else if b =? 1 then Ok a
  else Raise ValueError.

Definition bidx (len i : nat) : nat := if len =? 1 then 0 else i.

Definition broadcast2 (op : F -> F -> F) (A B : matrix) : result matrix :=
  r <- bdim (nrows A) (nrows B) ;;
  c <- bdim (ncols A) (ncols B) ;;
  Ok (tabulate r c (fun i j =>
        op (entry A (bidx (nrows A) i) (bidx (ncols A) j))
           (entry B (bidx (nrows B) i) (bidx (ncols B) j)))).

Definition add : matrix -> matrix -> result matrix := broadcast2 Fadd.
Definition sub : matrix -> matrix -> result matrix := broadcast2 Fsub.

(** The same on equal shapes, as total functions. *)
Definition madd (A B : matrix) : matrix :=
  tabulate (nrows A) (ncols A) (fun i j => (entry A i j + entry B i j)%F).
Definition msub (A B : matrix) : matrix :=
  tabulate (nrows A) (ncols A) (fun i j => (entry A i j - entry B i j)%F).

(** *** Slicing and indexing *)

(** [A[:k, :]]: basic slices clamp to the shape. *)
Definition rows_upto (A : matrix) (k : nat) : matrix :=
  tabulate (Nat.min k (nrows A)) (ncols A) (entry A).

(** [A[:, :k]] *)
Definition cols_upto (A : matrix) (k : nat) : matrix :=
  tabulate (nrows A) (Nat.min k (ncols A)) (entry A).

(** [A[:k, :k]] *)
Definition block_upto (A : matrix) (k : nat) : matrix :=
  tabulate (Nat.min k (nrows A)) (Nat.min k (ncols A)) (entry A).

(** [A[[-1], :]]: an index list raises when the axis is empty. *)
Definition last_row (A : matrix) : result matrix :=
  match nrows A with
  | O => Raise IndexError
  | Datatypes.S r => Ok (tabulate 1 (ncols A) (fun _ j => entry A r j))
  end.

(** [A[:, [-1]]] *)
Definition last_col (A : matrix) : result matrix :=
  match ncols A with
  | O => Raise IndexError
  | Datatypes.S c => Ok (tabulate (nrows A) 1 (fun i _ => entry A i c))
  end.

(** [A[:, idx]] for a list of non-negative column indices. *)
Definition take_cols (A : matrix) (idx : list nat) : result matrix :=
  if forallb (fun k => k <? ncols A) idx
  then Ok (tabulate (nrows A) (length idx) (fun i j => entry A i (nth j idx 0)))
  else Raise IndexError.

(** [numpy.diag(A)] of a two-dimensional array. *)
Definition diag (A : matrix) : list F :=
  map (fun i => entry A i i) (seq 0 (Nat.min (nrows A) (ncols A))).

(** *** Concatenation and block matrices *)

Definition hcat (A B : matrix) : result matrix :=
  if nrows A =? nrows B
  then Ok (tabulate (nrows A) (ncols A + ncols B)
             (fun i j => if j <? ncols A then entry A i j
                         else entry B i (j - ncols A)))
  else Raise ValueError.

Definition vcat (A B : matrix) : result matrix :=
  if ncols A =? ncols B
  then Ok (tabulate (nrows A + nrows B) (ncols A)
             (fun i j => if i <? nrows A then entry A i j
                         else entry B (i - nrows A) j))
  else Raise ValueError.

(** [numpy.concatenate(l, axis)] of a non-empty list, left to right. *)
Definition concatenate (cat : matrix -> matrix -> result matrix)
    (l : list matrix) : result matrix :=
  match l with
  | [] => Raise ValueError
  | A :: t =>
      fold_left (fun acc B => X <- acc ;; cat X B) t
        (Ok (tabulate (nrows A) (ncols A) (entry A)))
  end.

(** [numpy.bmat]: every row of blocks is concatenated along the last axis,
    the results along the first. *)
Definition bmat (blocks : list (list matrix)) : result matrix :=
  rs <- mapM (concatenate hcat) blocks ;;
  concatenate vcat rs.

(** [numpy.c_[A, B]] and [numpy.r_[A, B, C]] on two-dimensional arrays. *)
Definition c_ (A B : matrix) : result matrix := concatenate hcat [A; B].
Definition r_ (l : list matrix) : result matrix := concatenate vcat l.

End Matrix.

(** ** Algebra of the matrix product *)

Section MatrixAlgebra.
Context {S : Scalar} {SL : ScalarLaws S}.

Add Ring Fring : F_ring.

Lemma sumn_ext p f g :
  (forall k, k < p -> f k = g k) -> sumn p f = sumn p g.
Proof.
  induction p as [|p IH]; simpl; intros H; [reflexivity|].
  rewrite IH by (intros k Hk; apply H; lia). rewrite H by lia. reflexivity.
Qed.

Lemma sumn_zero p : sumn p (fun _ => 0%F) = 0%F.
Proof. induction p as [|p IH]; simpl; [reflexivity | rewrite IH; ring]. Qed.

Lemma sumn_add p f g :
  sumn p (fun k => (f k + g k)%F) = (sumn p f + sumn p g)%F.
Proof. induction p as [|p IH]; simpl; [ring | rewrite IH; ring]. Qed.

Lemma sumn_sub p f g :
  sumn p (fun k => (f k - g k)%F) = (sumn p f - sumn p g)%F.
Proof. induction p as [|p IH]; simpl; [ring | rewrite IH; ring]. Qed.

Lemma sumn_scale_l p c f :
  sumn p (fun k => (c * f k)%F) = (c * sumn p f)%F.
Proof. induction p as [|p IH]; simpl; [ring | rewrite IH; ring]. Qed.

Lemma sumn_scale_r p c f :
  sumn p (fun k => (f k * c)%F) = (sumn p f * c)%F.
Proof. induction p as [|p IH]; simpl; [ring | rewrite IH; ring]. Qed.

Lemma sumn_swap p q (f : nat -> nat -> F) :
  sumn p (fun i => sumn q (fun j => f i j)) =
  sumn q (fun j => sumn p (fun i => f i j)).
Proof.
  induction p as [|p IH]; simpl.
  - rewrite sumn_zero. reflexivity.
  - rewrite IH, <- sumn_add. reflexivity.
Qed.

(** A sum against a Kronecker delta picks one term. *)
Lemma sumn_delta_l p i f :
  i < p ->
  sumn p (fun k => ((if i =? k then 1 else 0) * f k)%F) = f i.
Proof.
  induction p as [|p IH]; intros Hi; [lia|]. simpl.
  destruct (Nat.eq_dec i p) as [->|Hne].
  - rewrite Nat.eqb_refl.
    rewrite (sumn_ext p _ (fun _ => 0%F)).
    + rewrite sumn_zero. ring.
    + intros k Hk. replace (p =? k) with false by (symmetry; apply Nat.eqb_neq; lia). ring.
  - rewrite IH by lia.
    replace (i =? p) with false by (symmetry; apply Nat.eqb_neq; lia). ring.
Qed.

Lemma sumn_delta_r p j f :
  j < p ->
  sumn p (fun k => (f k * (if k =? j then 1 else 0))%F) = f j.
Proof.
  intros Hj. rewrite <- (sumn_delta_l p j f Hj). apply sumn_ext.
  intros k _. rewrite (Nat.eqb_sym k j). ring.
Qed.

Lemma Fconj_zero : Fconj 0%F = 0%F.
Proof.
  assert (H : (Fconj 0 + Fconj 0 = Fconj 0 + 0)%F).
  { rewrite <- Fconj_add. replace (0 + 0)%F with 0%F by ring. ring. }
  assert (H' : (Fconj 0 = (Fconj 0 + Fconj 0) - Fconj 0)%F) by ring.
  rewrite H' at 1. rewrite H. ring.
Qed.

Lemma Fconj_sumn p f :
  Fconj (sumn p f) = sumn p (fun k => Fconj (f k)).
Proof.
  induction p as [|p IH]; simpl; [apply Fconj_zero|].
  rewrite Fconj_add, IH. reflexivity.
Qed.

(** *** Shapes *)

Lemma nrows_tabulate r c (f : nat -> nat -> F) : nrows (tabulate r c f) = r.
Proof. reflexivity. Qed.
Lemma ncols_tabulate r c (f : nat -> nat -> F) : ncols (tabulate r c f) = c.
Proof. reflexivity. Qed.

Lemma nrows_mmul A B : nrows (mmul A B) = nrows A. Proof. reflexivity. Qed.
Lemma ncols_mmul A B : ncols (mmul A B) = ncols B. Proof. reflexivity. Qed.
Lemma nrows_madd A B : nrows (madd A B) = nrows A. Proof. reflexivity. Qed.
Lemma ncols_madd A B : ncols (madd A B) = ncols A. Proof. reflexivity. Qed.
Lemma nrows_msub A B : nrows (msub A B) = nrows A. Proof. reflexivity. Qed.
Lemma ncols_msub A B : ncols (msub A B) = ncols A. Proof. reflexivity. Qed.
Lemma nrows_conjT A : nrows (conjT A) = ncols A. Proof. reflexivity. Qed.
Lemma ncols_conjT A : ncols (conjT A) = nrows A. Proof. reflexivity. Qed.
Lemma nrows_neg A : nrows (neg A) = nrows A. Proof. reflexivity. Qed.
Lemma ncols_neg A : ncols (neg A) = ncols A. Proof. reflexivity. Qed.
Lemma nrows_eye r c : nrows (eye r c) = r. Proof. reflexivity. Qed.
Lemma ncols_eye r c : ncols (eye r c) = c. Proof. reflexivity. Qed.
Lemma nrows_zeros r c : nrows (zeros r c) = r. Proof. reflexivity. Qed.
Lemma ncols_zeros r c : ncols (zeros r c) = c. Proof. reflexivity. Qed.
Lemma nrows_scalar11 x : nrows (scalar11 x) = 1. Proof. reflexivity. Qed.
Lemma ncols_scalar11 x : ncols (scalar11 x) = 1. Proof. reflexivity. Qed.
Lemma nrows_rows_upto A k : nrows (rows_upto A k) = Nat.min k (nrows A).
Proof. reflexivity. Qed.
Lemma ncols_rows_upto A k : ncols (rows_upto A k) = ncols A.
Proof. reflexivity. Qed.
Lemma nrows_cols_upto A k : nrows (cols_upto A k) = nrows A.
Proof. reflexivity. Qed.
Lemma ncols_cols_upto A k : ncols (cols_upto A k) = Nat.min k (ncols A).
Proof. reflexivity. Qed.
Lemma nrows_block_upto A k : nrows (block_upto A k) = Nat.min k (nrows A).
Proof. reflexivity. Qed.
Lemma ncols_block_upto A k : ncols (block_upto A k) = Nat.min k (ncols A).
Proof. reflexivity. Qed.

Lemma wf_mmul A B : wf (mmul A B).
Proof. apply wf_tabulate. Qed.
Lemma wf_conjT A : wf (conjT A).
Proof. apply wf_tabulate. Qed.
Lemma wf_eye r c : wf (eye r c).
Proof. apply wf_tabulate. Qed.
Lemma wf_zeros r c : wf (zeros r c).
Proof. apply wf_tabulate. Qed.
Lemma wf_madd A B : wf (madd A B).
Proof. apply wf_tabulate. Qed.
Lemma wf_msub A B : wf (msub A B).
Proof. apply wf_tabulate. Qed.
Lemma wf_neg A : wf (neg A).
Proof. apply wf_tabulate. Qed.

Lemma entry_mmul A B i j :
  i < nrows A -> j < ncols B ->
  entry (mmul A B) i j = sumn (ncols A) (fun k => (entry A i k * entry B k j)%F).
Proof. intros. unfold mmul. rewrite entry_tabulate by assumption. reflexivity. Qed.

Lemma entry_madd A B i j :
  i < nrows A -> j < ncols A ->
  entry (madd A B) i j = (entry A i j + entry B i j)%F.
Proof. intros. unfold madd. rewrite entry_tabulate by assumption. reflexivity. Qed.

Lemma entry_msub A B i j :
  i < nrows A -> j < ncols A ->
  entry (msub A B) i j = (entry A i j - entry B i j)%F.
Proof. intros. unfold msub. rewrite entry_tabulate by assumption. reflexivity. Qed.

Lemma entry_conjT A i j :
  i < ncols A -> j < nrows A -> entry (conjT A) i j = Fconj (entry A j i).
Proof. intros. unfold conjT. rewrite entry_tabulate by assumption. reflexivity. Qed.

Lemma entry_eye r c i j :
  i < r -> j < c -> entry (eye r c) i j = if i =? j then 1%F else 0%F.
Proof. intros. unfold eye. rewrite entry_tabulate by assumption. reflexivity. Qed.

Lemma entry_zeros r c i j : i < r -> j < c -> entry (zeros r c) i j = 0%F.
Proof. intros. unfold zeros. rewrite entry_tabulate by assumption. reflexivity. Qed.

(** *** Associativity, units and distributivity *)

Lemma mmul_assoc A B C :
  ncols A = nrows B ->
  mmul (mmul A B) C = mmul A (mmul B C).
Proof.
  intros HAB. unfold mmul at 1 3. simpl.
  apply tabulate_ext. intros i j Hi Hj.
  rewrite (sumn_ext (ncols B) _
    (fun k => sumn (ncols A) (fun l => (entry A i l * (entry B l k * entry C k j))%F))).
  2:{ intros k Hk. rewrite entry_mmul by assumption.
      rewrite <- sumn_scale_r. apply sumn_ext. intros l _. ring. }
  rewrite sumn_swap. apply sumn_ext. intros l Hl.
  rewrite entry_mmul by lia. rewrite sumn_scale_l. reflexivity.
Qed.

Lemma mmul_eye_l A : wf A -> mmul (eye (nrows A) (nrows A)) A = A.
Proof.
  intros HA. apply matrix_ext; try reflexivity; [apply wf_mmul | exact HA |].
  simpl. intros i j Hi Hj. rewrite entry_mmul by (simpl; assumption). simpl.
  rewrite (sumn_ext _ _ (fun k => ((if i =? k then 1 else 0) * entry A k j)%F)).
  - apply (sumn_delta_l _ i (fun k => entry A k j)). assumption.
  - intros k Hk. unfold eye. rewrite entry_tabulate by assumption. reflexivity.
Qed.

Lemma mmul_eye_r A : wf A -> mmul A (eye (ncols A) (ncols A)) = A.
Proof.
  intros HA. apply matrix_ext; try reflexivity; [apply wf_mmul | exact HA |].
  simpl. intros i j Hi Hj. rewrite entry_mmul by (simpl; assumption).
  rewrite (sumn_ext _ _ (fun k => (entry A i k * (if k =? j then 1 else 0))%F)).
  - apply (sumn_delta_r _ j (fun k => entry A i k)). assumption.
  - intros k Hk. unfold eye. rewrite entry_tabulate by assumption. reflexivity.
Qed.

Lemma mmul_madd_l A B C :
  nrows A = nrows B -> ncols A = ncols B ->
  mmul (madd A B) C = madd (mmul A C) (mmul B C).
Proof.
  intros Hr Hc. apply matrix_ext; auto using wf_mmul, wf_madd.
  rewrite nrows_mmul, ncols_mmul, nrows_madd. intros i j Hi Hj.
  rewrite entry_madd, !entry_mmul by (rewrite ?nrows_madd, ?nrows_mmul, ?ncols_mmul; lia).
  rewrite ncols_madd, <- Hc, <- sumn_add.
  apply sumn_ext. intros k Hk. rewrite entry_madd by lia. ring.
Qed.

Lemma mmul_madd_r A B C :
  ncols A = nrows B -> nrows B = nrows C -> ncols B = ncols C ->
  mmul A (madd B C) = madd (mmul A B) (mmul A C).
Proof.
  intros HAB Hr Hc. apply matrix_ext; auto using wf_mmul, wf_madd.
  rewrite nrows_mmul, ncols_mmul, ncols_madd. intros i j Hi Hj.
  rewrite entry_madd, !entry_mmul
    by (rewrite ?nrows_madd, ?ncols_madd, ?nrows_mmul, ?ncols_mmul; lia).
  rewrite <- sumn_add.
  apply sumn_ext. intros k Hk. rewrite entry_madd by lia. ring.
Qed.

Lemma conjT_conjT A : wf A -> conjT (conjT A) = A.
Proof.
  intros HA. apply matrix_ext; try reflexivity; [apply wf_conjT | exact HA |].
  rewrite nrows_conjT, ncols_conjT, ncols_conjT, nrows_conjT. intros i j Hi Hj.
  rewrite !entry_conjT by (rewrite ?nrows_conjT, ?ncols_conjT; lia).
  apply Fconj_invol.
Qed.

Lemma conjT_mmul A B :
  ncols A = nrows B ->
  conjT (mmul A B) = mmul (conjT B) (conjT A).
Proof.
  intros HAB. apply matrix_ext; try reflexivity; [apply wf_conjT | apply wf_mmul |].
  rewrite nrows_conjT, ncols_conjT, ncols_mmul, nrows_mmul. intros i j Hi Hj.
  rewrite entry_conjT, !entry_mmul
    by (rewrite ?nrows_conjT, ?ncols_conjT, ?nrows_mmul, ?ncols_mmul; lia).
  rewrite Fconj_sumn, ncols_conjT, <- HAB. apply sumn_ext. intros k Hk.
  rewrite !entry_conjT by lia. rewrite Fconj_mul. ring.
Qed.

Lemma bidx_lt len i : i < len -> bidx len i = i.
Proof.
  unfold bidx. intros Hi. destruct (Nat.eqb_spec len 1); [lia | reflexivity].
Qed.

Lemma bdim_same a : bdim a a = Ok a.
Proof. unfold bdim. rewrite Nat.eqb_refl. reflexivity. Qed.

(** On equal shapes broadcasting is the pointwise operation. *)
Lemma sub_same_shape A B :
  nrows A = nrows B -> ncols A = ncols B -> sub A B = Ok (msub A B).
Proof.
  intros Hr Hc. unfold sub, broadcast2. rewrite <- Hr, <- Hc, !bdim_same. simpl.
  f_equal. apply tabulate_ext. intros i j Hi Hj.
  rewrite !bidx_lt by assumption. reflexivity.
Qed.

Lemma add_same_shape A B :
  nrows A = nrows B -> ncols A = ncols B -> add A B = Ok (madd A B).
Proof.
  intros Hr Hc. unfold add, broadcast2. rewrite <- Hr, <- Hc, !bdim_same. simpl.
  f_equal. apply tabulate_ext. intros i j Hi Hj.
  rewrite !bidx_lt by assumption. reflexivity.
Qed.

Lemma mmul_msub_r A B C :
  ncols A = nrows B -> nrows B = nrows C -> ncols B = ncols C ->
  mmul A (msub B C) = msub (mmul A B) (mmul A C).
Proof.
  intros HAB Hr Hc. apply matrix_ext; auto using wf_mmul, wf_msub.
  rewrite nrows_mmul, ncols_mmul, ncols_msub. intros i j Hi Hj.
  rewrite entry_msub, !entry_mmul
    by (rewrite ?nrows_msub, ?ncols_msub, ?nrows_mmul, ?ncols_mmul; lia).
  rewrite <- sumn_sub.
  apply sumn_ext. intros k Hk. rewrite entry_msub by lia. ring.
Qed.

Lemma msub_madd A B C :
  nrows A = nrows B -> ncols A = ncols B ->
  msub A (madd B C) = msub (msub A B) C.
Proof.
  intros Hr Hc. apply matrix_ext; auto using wf_msub.
  rewrite nrows_msub, ncols_msub. intros i j Hi Hj.
  rewrite !entry_msub by (rewrite ?nrows_msub, ?ncols_msub; lia).
  rewrite entry_madd by lia. ring.
Qed.

Lemma msub_diag A : msub A A = zeros (nrows A) (ncols A).
Proof.
  apply matrix_ext; auto using wf_msub, wf_zeros.
  rewrite nrows_msub, ncols_msub. intros i j Hi Hj.
  rewrite entry_msub, entry_zeros by assumption. ring.
Qed.

Lemma entry_tril A i j :
  i < nrows A -> j < ncols A ->
  entry (tril A) i j = if j <=? i then entry A i j else 0%F.
Proof. intros. unfold tril. rewrite entry_tabulate by assumption. reflexivity. Qed.

Lemma entry_triu A i j :
  i < nrows A -> j < ncols A ->
  entry (triu A) i j = if i <=? j then entry A i j else 0%F.
Proof. intros. unfold triu. rewrite entry_tabulate by assumption. reflexivity. Qed.

(** The conjugate transpose of an upper-triangular matrix is lower
    triangular. *)
Lemma tril_conjT A : triu A = A -> tril (conjT A) = conjT A.
Proof.
  intros HA. apply matrix_ext; try reflexivity; [apply wf_tabulate | apply wf_conjT |].
  unfold tril at 1 2. simpl. intros i j Hi Hj.
  rewrite entry_tril by (simpl; assumption).
  destruct (Nat.leb_spec j i) as [Hle|Hgt]; [reflexivity|].
  rewrite entry_conjT by assumption. rewrite <- HA.
  rewrite entry_triu by assumption.
  replace (j <=? i) with false by (symmetry; apply Nat.leb_gt; lia).
  symmetry. apply Fconj_zero.
Qed.

End MatrixAlgebra.

Create HintDb wf.
Create Rewrite HintDb shape.

#[global] Hint Rewrite @nrows_tabulate @ncols_tabulate @nrows_mmul @ncols_mmul
  @nrows_madd @ncols_madd @nrows_msub @ncols_msub @nrows_conjT @ncols_conjT
  @nrows_neg @ncols_neg @nrows_eye @ncols_eye @nrows_zeros @ncols_zeros
  @nrows_scalar11 @ncols_scalar11 @nrows_rows_upto @ncols_rows_upto
  @nrows_cols_upto @ncols_cols_upto @nrows_block_upto @ncols_block_upto : shape.

#[global] Hint Resolve wf_tabulate wf_mmul wf_conjT wf_eye wf_zeros wf_madd
  wf_msub wf_neg : wf.

(** Shape side conditions: normalise the shapes of compound matrices and
    leave linear arithmetic. *)
Ltac shape := autorewrite with shape in *; simpl; try lia.


(** ** Block matrices in closed form *)

Section Blocks.
Context {S : Scalar}.

(** [[A, B]] *)
Definition block12 (A B : matrix) : matrix :=
  tabulate (nrows A) (ncols A + ncols B)
    (fun i j => if j <? ncols A then entry A i j else entry B i (j - ncols A)).

(** [[A], [B]] *)
Definition block21 (A B : matrix) : matrix :=
  tabulate (nrows A + nrows B) (ncols A)
    (fun i j => if i <? nrows A then entry A i j else entry B (i - nrows A) j).

(** [[A, B], [C, D]] *)
Definition block22 (A B C D : matrix) : matrix :=
  block21 (block12 A B) (block12 C D).

Lemma canonical_entry (A : matrix) i j :
  i < nrows A -> j < ncols A ->
  entry (tabulate (nrows A) (ncols A) (entry A)) i j = entry A i j.
Proof. intros. apply entry_tabulate; assumption. Qed.

Lemma hcat_canonical A B :
  hcat (tabulate (nrows A) (ncols A) (entry A)) B =
  if nrows A =? nrows B then Ok (block12 A B) else Raise ValueError.
Proof.
  unfold hcat. simpl. destruct (nrows A =? nrows B); [|reflexivity].
  f_equal. apply tabulate_ext. intros i j Hi Hj.
  destruct (Nat.ltb_spec j (ncols A)); [|reflexivity].
  apply entry_tabulate; assumption.
Qed.

Lemma vcat_canonical A B :
  vcat (tabulate (nrows A) (ncols A) (entry A)) B =
  if ncols A =? ncols B then Ok (block21 A B) else Raise ValueError.
Proof.
  unfold vcat. simpl. destruct (ncols A =? ncols B); [|reflexivity].
  f_equal. apply tabulate_ext. intros i j Hi Hj.
  destruct (Nat.ltb_spec i (nrows A)); [|reflexivity].
  apply entry_tabulate; assumption.
Qed.

Lemma c__eq A B :
  c_ A B = if nrows A =? nrows B then Ok (block12 A B) else Raise ValueError.
Proof. unfold c_, concatenate. simpl. apply hcat_canonical. Qed.

Lemma r_2_eq A B :
  r_ [A; B] = if ncols A =? ncols B then Ok (block21 A B) else Raise ValueError.
Proof. unfold r_, concatenate. simpl. apply vcat_canonical. Qed.

Lemma block21_canonical_l A B :
  block21 (tabulate (nrows A) (ncols A) (entry A)) B = block21 A B.
Proof.
  unfold block21. simpl. apply tabulate_ext. intros i j Hi Hj.
  destruct (Nat.ltb_spec i (nrows A)); [|reflexivity].
  apply entry_tabulate; assumption.
Qed.

Lemma canonical_block12 A B :
  tabulate (nrows (block12 A B)) (ncols (block12 A B)) (entry (block12 A B)) =
  block12 A B.
Proof. apply wf_tabulate. Qed.

Lemma canonical_block21 A B :
  tabulate (nrows (block21 A B)) (ncols (block21 A B)) (entry (block21 A B)) =
  block21 A B.
Proof. apply wf_tabulate. Qed.

Lemma r_3_eq A B C :
  r_ [A; B; C] =
  if (ncols A =? ncols B) && (ncols A =? ncols C)
  then Ok (block21 (block21 A B) C) else Raise ValueError.
Proof.
  unfold r_, concatenate. simpl. rewrite vcat_canonical.
  destruct (ncols A =? ncols B); simpl; [|reflexivity].
  rewrite <- (canonical_block21 A B) at 1. rewrite vcat_canonical.
  reflexivity.
Qed.

Lemma bmat12_eq A B :
  bmat [[A; B]] = if nrows A =? nrows B then Ok (block12 A B) else Raise ValueError.
Proof.
  unfold bmat. simpl. rewrite hcat_canonical.
  destruct (nrows A =? nrows B); simpl; [|reflexivity].
  f_equal. apply canonical_block12.
Qed.

Lemma bmat22_eq A B C D :
  bmat [[A; B]; [C; D]] =
  if (nrows A =? nrows B) && (nrows C =? nrows D) &&
     (ncols A + ncols B =? ncols C + ncols D)
  then Ok (block22 A B C D) else Raise ValueError.
Proof.
  unfold bmat. simpl. rewrite !hcat_canonical.
  destruct (nrows A =? nrows B); simpl; [|reflexivity].
  destruct (nrows C =? nrows D); simpl; [|reflexivity].
  apply (vcat_canonical (block12 A B) (block12 C D)).
Qed.

Lemma wf_block12 A B : wf (block12 A B).
Proof. apply wf_tabulate. Qed.
Lemma wf_block21 A B : wf (block21 A B).
Proof. apply wf_tabulate. Qed.
Lemma wf_block22 A B C D : wf (block22 A B C D).
Proof. apply wf_tabulate. Qed.

Lemma nrows_block12 A B : nrows (block12 A B) = nrows A.
Proof. reflexivity. Qed.
Lemma ncols_block12 A B : ncols (block12 A B) = ncols A + ncols B.
Proof. reflexivity. Qed.
Lemma nrows_block21 A B : nrows (block21 A B) = nrows A + nrows B.
Proof. reflexivity. Qed.
Lemma ncols_block21 A B : ncols (block21 A B) = ncols A.
Proof. reflexivity. Qed.
Lemma nrows_block22 A B C D : nrows (block22 A B C D) = nrows A + nrows C.
Proof. reflexivity. Qed.
Lemma ncols_block22 A B C D : ncols (block22 A B C D) = ncols A + ncols B.
Proof. reflexivity. Qed.

End Blocks.

#[global] Hint Rewrite @nrows_block12 @ncols_block12 @nrows_block21
  @ncols_block21 @nrows_block22 @ncols_block22 : shape.
#[global] Hint Resolve wf_block12 wf_block21 wf_block22 : wf.

(** ** The numerical primitives *)

(** The dense factorisations of numpy and scipy that the module calls.  Each
    is total on arrays and may raise. *)
Class Backend {S : Scalar} : Type := {
  (* [numpy.linalg.solve(a, b)] *)
  linalg_solve : matrix -> matrix -> result matrix;
  (* [numpy.linalg.norm(a, 2)], the largest singular value *)
  linalg_norm : matrix -> result F;
  (* [scipy.linalg.qr(a, mode='economic', pivoting=True)]: Q, R and the
     column permutation P *)
  linalg_qr : matrix -> result (matrix * matrix * list nat);
  (* [scipy.linalg.hessenberg(a, calc_q=True)]: H and the transform *)
  linalg_hessenberg : matrix -> result (matrix * matrix);
  (* [scipy.linalg.solve_triangular(a, b, lower=...)] *)
  solve_triangular : matrix -> matrix -> bool -> result matrix;
  (* the matrix of the Householder reflector of a column vector *)
  householder : matrix -> result matrix
}.

Section Numpy.
Context {S : Scalar} {BE : Backend}.

Definition canonical (A : matrix) : matrix := tabulate (nrows A) (ncols A) (entry A).

Fixpoint insert_by (key : nat -> nat) (i : nat) (l : list nat) : list nat :=
  match l with
  | [] => [i]
  | j :: t => if key i <=? key j then i :: j :: t else j :: insert_by key i t
  end.

(** [numpy.argsort(P)]: the indices that sort [P]. *)
Definition argsort (P : list nat) : list nat :=
  fold_right (insert_by (fun i => nth i P 0)) [] (seq 0 (length P)).

(** [(numpy.abs(xs) > t).sum()] *)
Definition count_gt (xs : list F) (t : F) : nat :=
  length (filter (fun x => Fgtb (Fabs x) t) xs).

(** Modelled from the spec: [utils.House] ([krypy/utils.py] is not among the
    sources).  Section 4.2: "Build a Householder reflector that rotates [q]
    onto its first standard-basis coordinate".  The reflector is kept as its
    matrix and [Q.apply(X)] is the product with it. *)
Definition House (q : matrix) : result matrix := householder q.
Definition House_apply (Q X : matrix) : result matrix := dot Q X.

(** *** Contracts of the primitives, per call *)

(** A square matrix with a two-sided inverse. *)
Definition invertible (A : matrix) : Prop :=
  nrows A = ncols A /\
  exists Ai, wf Ai /\ nrows Ai = ncols A /\ ncols Ai = nrows A /\
    mmul A Ai = eye (nrows A) (nrows A) /\
    mmul Ai A = eye (ncols A) (ncols A).

(** A square matrix with a non-zero vector in its kernel. *)
Definition singular (A : matrix) : Prop :=
  nrows A = ncols A /\
  exists x, wf x /\ nrows x = ncols A /\ ncols x = 1 /\
    x <> zeros (ncols A) 1 /\ mmul A x = zeros (nrows A) 1.

(** [numpy.linalg.solve]: the solution of [a x = b] for an invertible [a];
    [LinAlgError] when [a] is not square or is singular; [ValueError] when
    the shapes of a square [a] and of [b] disagree. *)
Definition solve_contract (A B : matrix) : Prop :=
  match linalg_solve A B with
  | Ok X => nrows B = nrows A /\ invertible A /\
            wf X /\ nrows X = nrows B /\ ncols X = ncols B /\
            mmul A X = canonical B
  | Raise LinAlgError => nrows A <> ncols A \/ (nrows B = nrows A /\ singular A)
  | Raise ValueError => nrows A = ncols A /\ nrows B <> nrows A
  | Raise IndexError => False
  end.

Definition unitary (T : matrix) : Prop :=
  nrows T = ncols T /\
  mmul T (conjT T) = eye (nrows T) (nrows T) /\
  mmul (conjT T) T = eye (nrows T) (nrows T).

(** [scipy.linalg.hessenberg]: [a = Q H Q^H] with [Q] unitary and [H] zero
    below the first subdiagonal. *)
Definition hessenberg_contract (X : matrix) : Prop :=
  forall H T, linalg_hessenberg X = Ok (H, T) ->
    nrows X = ncols X /\
    wf H /\ nrows H = nrows X /\ ncols H = nrows X /\
    wf T /\ nrows T = nrows X /\ unitary T /\
    mmul T (mmul H (conjT T)) = canonical X /\
    (forall i j, i < nrows X -> j + 1 < i -> entry H i j = Fzero).

(** The reflector of a column vector [q]: Hermitian, its own inverse, and
    [Q q] is a multiple of the first unit vector. *)
Definition House_contract (q : matrix) : Prop :=
  forall Q, House q = Ok Q ->
    ncols q = 1 /\ wf Q /\ nrows Q = nrows q /\ ncols Q = nrows q /\
    conjT Q = Q /\ mmul Q Q = eye (nrows q) (nrows q) /\
    (forall i, 0 < i -> i < nrows q -> entry (mmul Q q) i 0 = Fzero).

(** The economic, column-pivoted QR of an [N x d] array: [a[:, P] = Q R]
    with [K = min(N, d)] orthonormal columns in [Q] and an upper-triangular
    [R]. *)
Definition qr_contract (X : matrix) : Prop :=
  forall Q R P, linalg_qr X = Ok (Q, R, P) ->
    let K := Nat.min (nrows X) (ncols X) in
    wf Q /\ nrows Q = nrows X /\ ncols Q = K /\
    wf R /\ nrows R = K /\ ncols R = ncols X /\
    length P = ncols X /\
    mmul (conjT Q) Q = eye K K /\
    take_cols X P = Ok (mmul Q R) /\
    (forall i j, j < i -> i < K -> entry R i j = Fzero).

(** [scipy.linalg.solve_triangular]: only the named triangle of [a] is
    read, and the result solves the system with it. *)
Definition triangular_contract (A B : matrix) (lower : bool) : Prop :=
  forall X, solve_triangular A B lower = Ok X ->
    nrows A = ncols A /\ nrows B = nrows A /\
    wf X /\ nrows X = nrows B /\ ncols X = ncols B /\
    mmul (if lower then tril A else triu A) X = canonical B.

(** Neither of the two raises a [LinAlgError]. *)
Definition raises_no_LinAlgError {A B : Type} (f : A -> result B) : Prop :=
  forall a, f a <> Raise LinAlgError.

End Numpy.

(** ** Methods of an instance

    A method call takes the instance and hands it back together with the
    value returned or the exception raised. *)

Definition method (Self A : Type) : Type := Self -> result A * Self.

Definition call {Self A : Type} (body : Self -> result A) : method Self A :=
  fun self => (body self, self).

(** ** class Arnoldifyer *)

Module Arnoldifyer.
Section Class.
Context {S : Scalar} {BE : Backend}.

(** The attributes [__init__] sets (lines 68-116). *)
Record t : Type := Build {
  n : nat;
  invariant : bool;
  d : nat;
  V : matrix;
  U : matrix;
  AU : matrix;
  H : matrix;
  B_ : matrix;
  C : matrix;
  E : matrix;
  Pv_norm : F;
  U_v : matrix;
  L : matrix;
  J : matrix;
  M : matrix;
  A_norm : F;
  N : matrix;
  Z : matrix
}.

(** Line 84. *)
Definition init_EinvC (C E : matrix) (n d : nat) : result matrix :=
  if 0 <? d then linalg_solve E C else Ok (zeros 0 n).

(** The rank of R, line 102. *)
Definition rank_of (R : matrix) (A_norm : F) : nat :=
  count_gt (diag R) (F1e_14 * A_norm)%F.

(** [AU - U.dot(E) - V.dot(B_)], line 97. *)
Definition projected_AU (V U AU B_ E : matrix) : result matrix :=
  UE <- dot U E ;;
  AU_UE <- sub AU UE ;;
  VB <- dot V B_ ;;
  sub AU_UE VB.

(** Lines 95-113: the residual directions [Q1] and the helper matrix [N]. *)
Definition init_Q1_N (V U AU B_ E : matrix) (n d : nat) (A_norm : F)
  : result (matrix * matrix) :=
  if 0 <? d then
    X <- projected_AU V U AU B_ E ;;
    '(Q, R, P) <- linalg_qr X ;;
    let P_inv := argsort P in
    let l := rank_of R A_norm in
    let Q1 := cols_upto Q l in
    let R12 := rows_upto R l in
    B_last <- last_row B_ ;;
    R12P <- take_cols R12 P_inv ;;
    N1 <- bmat [[scalar11 1%F; B_last]; [zeros l 1; R12P]] ;;
    N2 <- bmat [[zeros (d + 1) n; eye (d + 1) (d + 1)]] ;;
    N <- dot N1 N2 ;;
    Ok (Q1, N)
  else
    N <- bmat [[zeros 1 n; eye 1 1]] ;;
    Ok (zeros (nrows U) 0, N).

Definition __init__ (V U AU H B_ C E : matrix) (Pv_norm : F) (U_v : matrix)
  : result t :=
  let n := ncols H in
  let invariant := nrows H =? n in
  let d := ncols U in
  EinvC <- init_EinvC C E n d ;;
  L <- bmat [[H; zeros (n + 1) d]; [EinvC; eye d d]] ;;
  J <- bmat [[eye n (n + 1); rows_upto B_ n]; [zeros d (n + 1); E]] ;;
  BE <- dot (rows_upto B_ n) EinvC ;;
  HBE <- add (block_upto H n) BE ;;
  M <- bmat [[HBE; rows_upto B_ n]; [C; E]] ;;
  A_norm <- linalg_norm M ;;
  '(Q1, N) <- init_Q1_N V U AU B_ E n d A_norm ;;
  V_last <- last_col V ;;
  Z <- c_ V_last Q1 ;;
  Ok (Build n invariant d V U AU H B_ C E Pv_norm U_v L J M A_norm N Z).

(** The local variables of [get] (lines 124-144). *)
Record locals : Type := Locals {
  get_PtE : matrix;
  get_Pt : matrix;
  get_qt : matrix;
  get_q : matrix;
  get_Q : matrix;
  get_LQ : matrix;
  get_H : matrix;
  get_T : matrix;
  get_QT : matrix;
  get_R : matrix
}.

(** What [get] returns: [(H, R)], or [(H, R, Vh, F)] when [full]. *)
Inductive returned : Type :=
| HR (H R : matrix)
| HRVhF (H R Vh F : matrix).

Definition returned_H (r : returned) : matrix :=
  match r with HR H _ => H | HRVhF H _ _ _ => H end.
Definition returned_R (r : returned) : matrix :=
  match r with HR _ R => R | HRVhF _ R _ _ => R end.

(** Line 124. *)
Definition get_PtE_of (self : t) (Wt : matrix) : result matrix :=
  MWt <- dot self.(M) Wt ;;
  dot (conjT Wt) MWt.

(** Lines 125-126. *)
Definition get_Pt_of (self : t) (Wt PtE : matrix) : result matrix :=
  WtJ <- dot (conjT Wt) self.(J) ;;
  X <- linalg_solve PtE WtJ ;;
  WtX <- dot Wt X ;;
  LWtX <- dot self.(L) WtX ;;
  sub (eye (self.(n) + self.(d) + 1) (self.(n) + self.(d) + 1)) LWtX.

(** Lines 127-131. *)
Definition get_qt_of (self : t) (Pt : matrix) : result matrix :=
  if 0 <? self.(d) then
    EinvUv <- linalg_solve self.(E) self.(U_v) ;;
    v <- r_ [scalar11 self.(Pv_norm); zeros self.(n) 1; EinvUv] ;;
    dot Pt v
  else
    v <- r_ [scalar11 self.(Pv_norm); zeros self.(n) 1] ;;
    dot Pt v.

(** Lines 119-144. *)
Definition get_locals (self : t) (Wt : matrix) : result locals :=
  PtE <- get_PtE_of self Wt ;;
  Pt <- get_Pt_of self Wt PtE ;;
  qt <- get_qt_of self Pt ;;
  q <- dot self.(J) qt ;;
  Q <- House q ;;
  QLH <- House_apply Q (conjT self.(L)) ;;
  let LQ := conjT QLH in
  QJ <- House_apply Q self.(J) ;;
  PtLQ <- dot Pt LQ ;;
  X <- dot QJ PtLQ ;;
  '(H, T) <- linalg_hessenberg X ;;
  QT <- House_apply Q T ;;
  LQT <- dot self.(L) QT ;;
  PtLQT <- dot Pt LQT ;;
  R <- dot self.(N) PtLQT ;;
  Ok (Locals PtE Pt qt q Q LQ H T QT R).

(** The argument of [scipy.linalg.hessenberg] in line 139, from the locals. *)
Definition hessenberg_arg (self : t) (loc : locals) : matrix :=
  mmul (mmul loc.(get_Q) self.(J)) (mmul loc.(get_Pt) loc.(get_LQ)).

(** Lines 146-151. *)
Definition get_return (self : t) (full : bool) (loc : locals) : result returned :=
  if full then
    VU <- c_ (cols_upto self.(V) self.(n)) self.(U) ;;
    Vh <- dot VU loc.(get_QT) ;;
    RVh <- dot loc.(get_R) (conjT Vh) ;;
    ZRVh <- dot self.(Z) RVh ;;
    let F0 := neg ZRVh in
    F1 <- add F0 (conjT F0) ;;
    Ok (HRVhF loc.(get_H) loc.(get_R) Vh F1)
  else Ok (HR loc.(get_H) loc.(get_R)).

(** [get] reads the attributes of [self] and assigns none. *)
Definition get (Wt : matrix) (full : bool) : method t returned :=
  call (fun self => loc <- get_locals self Wt ;; get_return self full loc).

End Class.
End Arnoldifyer.

(** ** class ObliqueProjection *)

Module ObliqueProjection.
Section Class.
Context {S : Scalar} {BE : Backend}.

(** Modelled from the spec: the attributes of an instance.  [A], [U] and
    [AH_U] are set in lines 21-26; [ip_B], [V], [W], [WR], [Q] and [R] by the
    constructor of [utils.Projection], which is not among the sources
    (section 4.1: "the underlying bi-orthogonal projector using (U, AH_U) as
    the two defining subspaces", with a "stored triangular factorization"
    that may be "further QR-compressed").  An operator is kept as its
    matrix; an attribute that may be [None] is an [option]. *)
Record t : Type := Build {
  A : matrix;
  U : matrix;
  AH_U : matrix;
  ip_B : option matrix;
  V : matrix;
  W : matrix;
  WR : matrix;
  Q : option matrix;
  R : option matrix
}.

(** Modelled from the spec: [utils.inner(X, Y, ip_B)], the inner product
    block [X^H B Y], Euclidean when [ip_B] is absent (section 3,
    InnerProduct). *)
Definition inner (X Y : matrix) (ip_B : option matrix) : result matrix :=
  match ip_B with
  | None => dot (conjT X) Y
  | Some B => BY <- dot B Y ;; dot (conjT X) BY
  end.

(** The successive values of [c] in [_correction] (lines 32-35). *)
Record locals : Type := Locals {
  c_inner : matrix;
  c_WR : matrix;
  c_R : matrix
}.

Definition _correction_locals (self : t) (z : matrix) : result locals :=
  c0 <- inner self.(U) z self.(ip_B) ;;
  c1 <- solve_triangular (conjT self.(WR)) c0 true ;;
  match self.(Q), self.(R) with
  | Some Q, Some R =>
      QHc <- dot (conjT Q) c1 ;;
      c2 <- solve_triangular R QHc false ;;
      Ok (Locals c0 c1 c2)
  | _, _ => Ok (Locals c0 c1 c1)
  end.

(** Lines 31-36. *)
Definition _correction (self : t) (z : matrix) : result matrix :=
  loc <- _correction_locals self z ;;
  dot self.(V) loc.(c_R).

(** Modelled from the spec: the solver-state record [pre] with fields
    [(A, M_left, M_right, b, x0)] (section 4.1), the operators as matrices
    and [*] as their application. *)
Record linear_system : Type := LinearSystem {
  pre_A : matrix;
  pre_Ml : matrix;
  pre_Mr : matrix;
  pre_b : matrix;
  pre_x0 : matrix
}.

(** The effective residual [Ml * (b - A * x)]. *)
Definition residual (pre : linear_system) (x : matrix) : result matrix :=
  Ax <- dot pre.(pre_A) x ;;
  r <- sub pre.(pre_b) Ax ;;
  dot pre.(pre_Ml) r.

(** Lines 48-49. *)
Definition get_x0_body (self : t) (pre : linear_system) : result matrix :=
  z <- residual pre pre.(pre_x0) ;;
  c <- _correction self z ;;
  Mc <- dot pre.(pre_Mr) c ;;
  add pre.(pre_x0) Mc.

(** [get_x0] reads the attributes of [self] and assigns none. *)
Definition get_x0 (pre : linear_system) : method t matrix :=
  call (fun self => get_x0_body self pre).

(** The weight of the inner product. *)
Definition weight (self : t) (N : nat) : matrix :=
  match self.(ip_B) with
  | None => eye N N
  | Some B => B
  end.

(** Modelled from the spec: what the constructors establish, for the
    operator [Aeff] the deflation is built for, on vectors of dimension
    [N] and a deflation space of dimension [d].  [AH_U] is the image of [U]
    under the adjoint of [Aeff] for the inner product:
    [<AH_U, y> = <U, Aeff y>]; [W WR = AH_U] with [WR] upper triangular;
    [V] is the basis the correction is expressed in; and [<W, V> = Q R]
    with [Q] unitary and [R] upper triangular, or [<W, V> = I] when no such
    factorisation is stored. *)
Record projector (self : t) (Aeff : matrix) (N d : nat) : Prop := {
  p_U_wf : wf self.(U);
  p_U_rows : nrows self.(U) = N;
  p_U_cols : ncols self.(U) = d;
  p_B_wf : wf (weight self N);
  p_B_rows : nrows (weight self N) = N;
  p_B_cols : ncols (weight self N) = N;
  p_A_rows : nrows Aeff = N;
  p_A_cols : ncols Aeff = N;
  p_V_rows : nrows self.(V) = N;
  p_V_cols : ncols self.(V) = d;
  p_W_rows : nrows self.(W) = N;
  p_W_cols : ncols self.(W) = d;
  p_WR_wf : wf self.(WR);
  p_WR_rows : nrows self.(WR) = d;
  p_WR_cols : ncols self.(WR) = d;
  p_WR_upper : triu self.(WR) = self.(WR);
  p_AH_U : self.(AH_U) = mmul self.(W) self.(WR);
  p_adjoint :
    mmul (conjT self.(AH_U)) (mmul (weight self N) self.(V)) =
    mmul (conjT self.(U)) (mmul (weight self N) (mmul Aeff self.(V)));
  p_QR :
    match self.(Q), self.(R) with
    | Some Q, Some R =>
        wf Q /\ nrows Q = d /\ ncols Q = d /\
        wf R /\ nrows R = d /\ ncols R = d /\
        mmul Q (conjT Q) = eye d d /\ triu R = R /\
        mmul (conjT self.(W)) (mmul (weight self N) self.(V)) = mmul Q R
    | _, _ =>
        mmul (conjT self.(W)) (mmul (weight self N) self.(V)) = eye d d
    end
}.

End Class.
End ObliqueProjection.

(** ** Objects and the store

    numpy arrays are mutable objects, and an attribute or a variable holds a
    reference to one.  A program runs on the object it is a method of and
    on the store of arrays; it can read an attribute, bind an attribute
    ([self.x = ...]), read an array, allocate the array a numpy call
    returns, and update an array in place ([a[...] = ...], [a += ...]). *)

Module Store.
Section Store.
Context {S : Scalar}.

Definition ref : Type := nat.
Definition store : Type := list matrix.

Definition value (h : store) (r : ref) : matrix := nth r h (zeros 0 0).

Fixpoint update (r : ref) (m : matrix) (h : store) : store :=
  match h, r with
  | [], _ => []
  | _ :: t, O => m :: t
  | x :: t, Datatypes.S r' => x :: update r' m t
  end.

Definition prog (O A : Type) : Type := O * store -> result A * (O * store).

Definition ret {O A : Type} (a : A) : prog O A := fun st => (Ok a, st).

Definition pbind {O A B : Type} (p : prog O A) (k : A -> prog O B) : prog O B :=
  fun st =>
    match p st with
    | (Ok a, st') => k a st'
    | (Raise e, st') => (Raise e, st')
    end.

(** [self.x] *)
Definition getattr {O A : Type} (f : O -> A) : prog O A :=
  fun st => (Ok (f (fst st)), st).

(** [self.x = ...] *)
Definition setattr {O : Type} (g : O -> O) : prog O unit :=
  fun st => (Ok tt, (g (fst st), snd st)).

(** The array a call returns is a new object. *)
Definition new {O : Type} (c : result matrix) : prog O ref :=
  fun st =>
    match c with
    | Ok m => (Ok (length (snd st)), (fst st, snd st ++ [m]))
    | Raise e => (Raise e, st)
    end.

Definition read {O : Type} (r : ref) : prog O matrix :=
  fun st => (Ok (value (snd st) r), st).

(** An update of the array [r] in place. *)
Definition write {O : Type} (r : ref) (m : matrix) : prog O unit :=
  fun st => (Ok tt, (fst st, update r m (snd st))).

(** A call on one, two or three arrays that returns a new array. *)
Definition op1 {O : Type} (f : matrix -> result matrix) (a : ref) : prog O ref :=
  pbind (read a) (fun A => new (f A)).

Definition op2 {O : Type} (f : matrix -> matrix -> result matrix) (a b : ref)
  : prog O ref :=
  pbind (read a) (fun A => pbind (read b) (fun B => new (f A B))).

Definition op3 {O : Type} (f : matrix -> matrix -> matrix -> result matrix)
    (a b c : ref) : prog O ref :=
  pbind (read a) (fun A => pbind (read b) (fun B =>
  pbind (read c) (fun C => new (f A B C)))).

(** [scipy.linalg.hessenberg(a, calc_q=True)] returns two new arrays. *)
Definition new2 {O : Type} (c : result (matrix * matrix)) : prog O (ref * ref) :=
  fun st =>
    match c with
    | Ok (m1, m2) =>
        (Ok (length (snd st), Datatypes.S (length (snd st))),
         (fst st, (snd st ++ [m1]) ++ [m2]))
    | Raise e => (Raise e, st)
    end.

Definition op1_pair {O : Type} (f : matrix -> result (matrix * matrix)) (a : ref)
  : prog O (ref * ref) :=
  pbind (read a) (fun A => new2 (f A)).

(** A program keeps the object and the arrays of the store it starts from:
    whether it returns or raises, no attribute is bound to another object
    and every array that existed holds the values it held. *)
Definition preserves {O A : Type} (p : prog O A) : Prop :=
  forall o h, fst (snd (p (o, h))) = o /\
              exists ext, snd (snd (p (o, h))) = h ++ ext.

Lemma value_app_old (h ext : store) (r : ref) :
  r < length h -> value (h ++ ext) r = value h r.
Proof. intros Hr. unfold value. apply app_nth1. exact Hr. Qed.

Lemma value_app_new (h : store) (m : matrix) :
  value (h ++ [m]) (length h) = m.
Proof. unfold value. rewrite app_nth2, Nat.sub_diag by lia. reflexivity. Qed.

Lemma preserves_ret {O A : Type} (a : A) : preserves (O := O) (ret a).
Proof. intros o h. split; [reflexivity|]. exists []. symmetry. apply app_nil_r. Qed.

Lemma preserves_getattr {O A : Type} (f : O -> A) : preserves (getattr f).
Proof. intros o h. split; [reflexivity|]. exists []. symmetry. apply app_nil_r. Qed.

Lemma preserves_read {O : Type} (r : ref) : preserves (O := O) (read r).
Proof. intros o h. split; [reflexivity|]. exists []. symmetry. apply app_nil_r. Qed.

Lemma preserves_new {O : Type} (c : result matrix) : preserves (O := O) (new c).
Proof.
  intros o h. unfold new. destruct c as [m|e]; simpl.
  - split; [reflexivity|]. exists [m]. reflexivity.
  - split; [reflexivity|]. exists []. symmetry. apply app_nil_r.
Qed.

Lemma preserves_new2 {O : Type} (c : result (matrix * matrix)) :
  preserves (O := O) (new2 c).
Proof.
  intros o h. unfold new2. destruct c as [[m1 m2]|e]; simpl.
  - split; [reflexivity|]. exists [m1; m2]. rewrite <- app_assoc. reflexivity.
  - split; [reflexivity|]. exists []. symmetry. apply app_nil_r.
Qed.

Lemma preserves_bind {O A B : Type} (p : prog O A) (k : A -> prog O B) :
  preserves p -> (forall a, preserves (k a)) -> preserves (pbind p k).
Proof.
  intros Hp Hk o h. unfold pbind.
  destruct (Hp o h) as [Ho [ext Hh]].
  destruct (p (o, h)) as [[a|e] [o' h']]; simpl in *; subst o' h'.
  - destruct (Hk a o (h ++ ext)) as [Ho' [ext' Hh']].
    split; [exact Ho'|]. exists (ext ++ ext'). rewrite Hh'. symmetry. apply app_assoc.
  - split; [reflexivity|]. exists ext. reflexivity.
Qed.

Lemma preserves_op1 {O : Type} f (a : ref) : preserves (O := O) (op1 f a).
Proof.
  unfold op1. apply preserves_bind; [apply preserves_read | intros A].
  apply preserves_new.
Qed.

Lemma preserves_op2 {O : Type} f (a b : ref) : preserves (O := O) (op2 f a b).
Proof.
  unfold op2. apply preserves_bind; [apply preserves_read | intros A].
  apply preserves_bind; [apply preserves_read | intros B].
  apply preserves_new.
Qed.

Lemma preserves_op1_pair {O : Type} f (a : ref) :
  preserves (O := O) (op1_pair f a).
Proof.
  unfold op1_pair. apply preserves_bind; [apply preserves_read | intros A].
  apply preserves_new2.
Qed.

Lemma preserves_op3 {O : Type} f (a b c : ref) : preserves (O := O) (op3 f a b c).
Proof.
  unfold op3. apply preserves_bind; [apply preserves_read | intros A].
  apply preserves_bind; [apply preserves_read | intros B].
  apply preserves_bind; [apply preserves_read | intros C].
  apply preserves_new.
Qed.

(** Binding an attribute and updating an array in place are what
    [preserves] excludes. *)
Lemma setattr_not_preserved {O : Type} (g : O -> O) (o : O) :
  g o <> o -> ~ preserves (setattr g).
Proof. intros Hg Hp. destruct (Hp o []) as [Ho _]. simpl in Ho. exact (Hg Ho). Qed.

Lemma update_value (h : store) (r : ref) (m : matrix) :
  r < length h -> value (update r m h) r = m.
Proof.
  revert r. induction h as [|x t IH]; intros r Hr; simpl in *; [lia|].
  destruct r as [|r]; [reflexivity|]. apply IH. lia.
Qed.

Lemma write_not_preserved {O : Type} (o : O) (h : store) (r : ref) (m : matrix) :
  r < length h -> value h r <> m -> ~ preserves (O := O) (write r m).
Proof.
  intros Hr Hm Hp. destruct (Hp o h) as [_ [ext Hh]]. simpl in Hh.
  apply Hm. rewrite <- (value_app_old h ext r Hr), <- Hh.
  apply update_value. exact Hr.
Qed.

(** *** Running a program beside its value model *)

(** The array [r] of the store [h] has the value [x]. *)
Definition holds (h : store) (r : ref) (x : matrix) : Prop :=
  r < length h /\ value h r = x.

Lemma holds_ext (h ext : store) (r : ref) (x : matrix) :
  holds h r x -> holds (h ++ ext) r x.
Proof.
  intros [Hr Hx]. split.
  - rewrite length_app. lia.
  - rewrite value_app_old by exact Hr. exact Hx.
Qed.

Lemma holds_new (h : store) (x : matrix) : holds (h ++ [x]) (length h) x.
Proof.
  split; [rewrite length_app; simpl; lia | apply value_app_new].
Qed.

Lemma holds_valid (h : store) (r : ref) : r < length h -> holds h r (value h r).
Proof. intros Hr. split; [exact Hr | reflexivity]. Qed.

(** From the object [o] and the store [h], the program [p] does what the
    computation [c] on values does: it raises what [c] raises, or returns
    something that stands for what [c] returns; the object is kept and the
    store only grows. *)
Definition sim {O A B : Type} (R : store -> A -> B -> Prop) (o : O) (h : store)
    (p : prog O A) (c : result B) : Prop :=
  exists ext, snd (p (o, h)) = (o, h ++ ext) /\
    match c with
    | Ok b => exists a, fst (p (o, h)) = Ok a /\ R (h ++ ext) a b
    | Raise e => fst (p (o, h)) = Raise e
    end.

Lemma sim_ret {O A B : Type} (R : store -> A -> B -> Prop) (o : O) (h : store)
    (a : A) (b : B) :
  R h a b -> sim R o h (ret a) (Ok b).
Proof.
  intros HR. exists []. rewrite app_nil_r. split; [reflexivity|].
  exists a. split; [reflexivity | exact HR].
Qed.

Lemma sim_step {O A B A' B' : Type} (R : store -> A -> B -> Prop)
    (R' : store -> A' -> B' -> Prop) (o : O) (h : store)
    (p : prog O A) (c : result B) (k : A -> prog O A') (k' : B -> result B') :
  sim R o h p c ->
  (forall ext a b, c = Ok b -> R (h ++ ext) a b ->
     sim R' o (h ++ ext) (k a) (k' b)) ->
  sim R' o h (pbind p k) (bind c k').
Proof.
  intros (ext & Hs & Hc) Hk. unfold sim, pbind.
  destruct (p (o, h)) as [r st']. simpl in Hs, Hc. subst st'.
  destruct c as [b|e].
  - destruct Hc as (a & -> & HR). simpl.
    destruct (Hk ext a b eq_refl HR) as (ext' & Hs' & Hc').
    exists (ext ++ ext'). rewrite app_assoc. split; assumption.
  - subst r. simpl. exists ext. split; reflexivity.
Qed.

Lemma sim_assoc {O A B C D : Type} (R : store -> C -> D -> Prop) (o : O)
    (h : store) (p : prog O A) (k1 : A -> prog O B) (k2 : B -> prog O C)
    (c : result D) :
  sim R o h (pbind p (fun x => pbind (k1 x) k2)) c ->
  sim R o h (pbind (pbind p k1) k2) c.
Proof.
  unfold sim, pbind. destruct (p (o, h)) as [[a|e] st']; intros H; exact H.
Qed.

Lemma sim_new {O A : Type} (o : O) (h : store) (x : matrix) :
  sim (O := O) holds o h (new (Ok x)) (Ok x).
Proof.
  exists [x]. split; [reflexivity|]. exists (length h).
  split; [reflexivity | apply holds_new].
Qed.

Lemma sim_call {O : Type} (o : O) (h : store) (c : result matrix) :
  sim (O := O) holds o h (new c) c.
Proof.
  destruct c as [x|e].
  - exists [x]. split; [reflexivity|]. exists (length h).
    split; [reflexivity | apply holds_new].
  - exists []. rewrite app_nil_r. split; reflexivity.
Qed.

Lemma sim_eq {O A B : Type} (R : store -> A -> B -> Prop) (o : O) (h : store)
    (p p' : prog O A) (c : result B) :
  p (o, h) = p' (o, h) -> sim R o h p' c -> sim R o h p c.
Proof. unfold sim. intros ->. exact (fun H => H). Qed.

Lemma sim_op1 {O : Type} (o : O) (h : store) f (a : ref) (A : matrix) :
  holds h a A -> sim (O := O) holds o h (op1 f a) (f A).
Proof.
  intros [_ HA]. apply (sim_eq _ _ _ _ (new (f A))); [|apply sim_call].
  unfold op1, pbind, read. cbn [fst snd]. rewrite HA. reflexivity.
Qed.

Lemma sim_op2 {O : Type} (o : O) (h : store) f (a b : ref) (A B : matrix) :
  holds h a A -> holds h b B -> sim (O := O) holds o h (op2 f a b) (f A B).
Proof.
  intros [_ HA] [_ HB]. apply (sim_eq _ _ _ _ (new (f A B))); [|apply sim_call].
  unfold op2, pbind, read. cbn [fst snd]. rewrite HA, HB. reflexivity.
Qed.

Lemma sim_op3 {O : Type} (o : O) (h : store) f (a b c : ref) (A B C : matrix) :
  holds h a A -> holds h b B -> holds h c C ->
  sim (O := O) holds o h (op3 f a b c) (f A B C).
Proof.
  intros [_ HA] [_ HB] [_ HC].
  apply (sim_eq _ _ _ _ (new (f A B C))); [|apply sim_call].
  unfold op3, pbind, read. cbn [fst snd]. rewrite HA, HB, HC. reflexivity.
Qed.

Definition holds2 (h : store) (r : ref * ref) (x : matrix * matrix) : Prop :=
  holds h (fst r) (fst x) /\ holds h (snd r) (snd x).

Lemma sim_op1_pair {O : Type} (o : O) (h : store) (a : ref) (A : matrix)
    (f : matrix -> result (matrix * matrix)) :
  holds h a A ->
  sim (O := O) holds2 o h (op1_pair f a) (f A).
Proof.
  intros [_ HA]. apply (sim_eq _ _ _ _ (new2 (f A))).
  { unfold op1_pair, pbind, read. cbn [fst snd]. rewrite HA. reflexivity. }
  unfold sim, new2. destruct (f A) as [[x1 x2]|e]; cbn [fst snd].
  - exists [x1; x2]. split.
    { rewrite <- app_assoc. reflexivity. }
    exists (length h, Datatypes.S (length h)). split; [reflexivity|].
    change [x1; x2] with ([x1] ++ [x2]). rewrite app_assoc.
    split; cbn [fst snd].
    + apply holds_ext, holds_new.
    + replace (Datatypes.S (length h)) with (length (h ++ [x1]))
        by (rewrite length_app; simpl; lia).
      apply holds_new.
  - exists []. rewrite app_nil_r. split; reflexivity.
Qed.

(** A step of the program that the value model does not name. *)
Lemma sim_getattr {O A B C : Type} (R : store -> B -> C -> Prop) (o : O)
    (h : store) (f : O -> A) (k : A -> prog O B) (c : result C) :
  sim R o h (k (f o)) c -> sim R o h (pbind (getattr f) k) c.
Proof. exact (fun H => H). Qed.

Lemma sim_ret_bind {O A B C : Type} (R : store -> B -> C -> Prop) (o : O)
    (h : store) (a : A) (k : A -> prog O B) (c : result C) :
  sim R o h (k a) c -> sim R o h (pbind (ret a) k) c.
Proof. exact (fun H => H). Qed.

Lemma sim_alloc {O B C : Type} (R : store -> B -> C -> Prop) (o : O)
    (h : store) (x : matrix) (k : ref -> prog O B) (c : result C) :
  (forall ext r, holds (h ++ ext) r x -> sim R o (h ++ ext) (k r) c) ->
  sim R o h (pbind (new (Ok x)) k) c.
Proof.
  intros Hk. change c with (bind (Ok x) (fun _ => c)).
  apply (sim_step holds); [apply sim_call|].
  intros ext a b Hb Ha. injection Hb as <-. apply Hk. exact Ha.
Qed.

Lemma sim_pure1 {O B C : Type} (R : store -> B -> C -> Prop) (o : O)
    (h : store) (g : matrix -> matrix) (a : ref) (A : matrix)
    (k : ref -> prog O B) (c : result C) :
  holds h a A ->
  (forall ext r, holds (h ++ ext) r (g A) -> sim R o (h ++ ext) (k r) c) ->
  sim R o h (pbind (op1 (fun X => Ok (g X)) a) k) c.
Proof.
  intros HA Hk. change c with (bind (Ok (g A)) (fun _ => c)).
  apply (sim_step holds); [apply (sim_op1 _ _ (fun X => Ok (g X))); exact HA|].
  intros ext r b Hb Hr. injection Hb as <-. apply Hk. exact Hr.
Qed.

(** A call that the value model binds the result of. *)
Lemma sim_bind_op1 {O B C : Type} (R : store -> B -> C -> Prop) (o : O)
    (h : store) f (a : ref) (A : matrix) (c : result matrix)
    (k : ref -> prog O B) (k' : matrix -> result C) :
  holds h a A -> f A = c ->
  (forall ext r x, holds (h ++ ext) r x -> sim R o (h ++ ext) (k r) (k' x)) ->
  sim R o h (pbind (op1 f a) k) (bind c k').
Proof.
  intros HA <- Hk. apply (sim_step holds); [apply sim_op1; exact HA|].
  intros ext r x _ Hr. apply Hk. exact Hr.
Qed.

Lemma sim_bind_op2 {O B C : Type} (R : store -> B -> C -> Prop) (o : O)
    (h : store) f (a b : ref) (A A' : matrix) (c : result matrix)
    (k : ref -> prog O B) (k' : matrix -> result C) :
  holds h a A -> holds h b A' -> f A A' = c ->
  (forall ext r x, holds (h ++ ext) r x -> sim R o (h ++ ext) (k r) (k' x)) ->
  sim R o h (pbind (op2 f a b) k) (bind c k').
Proof.
  intros HA HB <- Hk. apply (sim_step holds); [apply sim_op2; assumption|].
  intros ext r x _ Hr. apply Hk. exact Hr.
Qed.

Lemma sim_bind_op3 {O B C : Type} (R : store -> B -> C -> Prop) (o : O)
    (h : store) f (a b c0 : ref) (A A' A'' : matrix) (c : result matrix)
    (k : ref -> prog O B) (k' : matrix -> result C) :
  holds h a A -> holds h b A' -> holds h c0 A'' -> f A A' A'' = c ->
  (forall ext r x, holds (h ++ ext) r x -> sim R o (h ++ ext) (k r) (k' x)) ->
  sim R o h (pbind (op3 f a b c0) k) (bind c k').
Proof.
  intros HA HB HC <- Hk. apply (sim_step holds); [apply sim_op3; assumption|].
  intros ext r x _ Hr. apply Hk. exact Hr.
Qed.

Lemma sim_bind_op1_pair {O B C : Type} (R : store -> B -> C -> Prop) (o : O)
    (h : store) f (a : ref) (A : matrix) (c : result (matrix * matrix))
    (k : ref * ref -> prog O B) (k' : matrix * matrix -> result C) :
  holds h a A -> f A = c ->
  (forall ext r1 r2 x1 x2,
     holds (h ++ ext) r1 x1 -> holds (h ++ ext) r2 x2 ->
     sim R o (h ++ ext) (k (r1, r2)) (k' (x1, x2))) ->
  sim R o h (pbind (op1_pair f a) k) (bind c k').
Proof.
  intros HA <- Hk. apply (sim_step holds2); [apply sim_op1_pair; exact HA|].
  intros ext [r1 r2] [x1 x2] _ [H1 H2]. apply Hk; assumption.
Qed.

(** The last call of a program. *)
Lemma sim_last_op2 {O : Type} (o : O) (h : store) f (a b : ref)
    (A A' : matrix) (c : result matrix) :
  holds h a A -> holds h b A' -> f A A' = c ->
  sim (O := O) holds o h (op2 f a b) c.
Proof. intros HA HB <-. apply sim_op2; assumption. Qed.

Lemma holds_value (h : store) (r : ref) (x : matrix) :
  holds h r x -> value h r = x.
Proof. intros [_ H]. exact H. Qed.

(** What a run that [sim] describes returns, read in the store it leaves. *)
Lemma sim_run {O A B : Type} (R : store -> A -> B -> Prop) (o : O) (h : store)
    (p : prog O A) (c : result B) (rd : store -> result A -> result B) :
  (forall h' a b, R h' a b -> rd h' (Ok a) = Ok b) ->
  (forall h' e, rd h' (Raise e) = Raise e) ->
  sim R o h p c ->
  rd (snd (snd (p (o, h)))) (fst (p (o, h))) = c.
Proof.
  intros Hok Hraise (ext & Hs & Hc). rewrite Hs. cbn [snd].
  destruct c as [b|e].
  - destruct Hc as (a & -> & HR). exact (Hok _ _ _ HR).
  - rewrite Hc. apply Hraise.
Qed.

End Store.
End Store.

Declare Scope obj_scope.
Delimit Scope obj_scope with obj.
Notation "x <- c ;; k" := (Store.pbind c (fun x => k))
  (at level 61, c at next level, right associativity) : obj_scope.
Notation "' pat <- c ;; k" := (Store.pbind c (fun x => match x with pat => k end))
  (at level 61, pat pattern, c at next level, right associativity) : obj_scope.

(** ** [Arnoldifyer] as an object *)

Module ArnoldifyerObject.
Section Class.
Context {S : Scalar} {BE : Backend}.
Import Store.
Local Open Scope obj_scope.

(** The attributes of an instance: integers, a flag and floats are
    values, arrays are references. *)
Record t : Type := Build {
  n : nat;
  invariant : bool;
  d : nat;
  V : ref;
  U : ref;
  AU : ref;
  H : ref;
  B_ : ref;
  C : ref;
  E : ref;
  Pv_norm : F;
  U_v : ref;
  L : ref;
  J : ref;
  M : ref;
  A_norm : F;
  N : ref;
  Z : ref
}.

(** What [get] returns, as references. *)
Inductive returned : Type :=
| HR (H R : ref)
| HRVhF (H R Vh F : ref).

Definition T_conj (a : ref) : prog t ref := op1 (fun A => Ok (conjT A)) a.
Definition dot_ (a b : ref) : prog t ref := op2 dot a b.

(** Lines 118-151, statement by statement. *)
Definition get (Wt : ref) (full : bool) : prog t returned :=
  n <- getattr n ;;
  invariant <- getattr invariant ;;
  d <- getattr d ;;
  (* line 124 *)
  WtH <- T_conj Wt ;;
  M <- getattr M ;;
  MWt <- dot_ M Wt ;;
  PtE <- dot_ WtH MWt ;;
  (* lines 125-126 *)
  I <- new (Ok (eye (n + d + 1) (n + d + 1))) ;;
  L <- getattr L ;;
  WtH' <- T_conj Wt ;;
  J <- getattr J ;;
  WtJ <- dot_ WtH' J ;;
  X <- op2 linalg_solve PtE WtJ ;;
  WtX <- dot_ Wt X ;;
  LWtX <- dot_ L WtX ;;
  Pt <- op2 sub I LWtX ;;
  (* lines 127-131 *)
  Pv_norm <- getattr Pv_norm ;;
  qt <- (if 0 <? d then
           s <- new (Ok (scalar11 Pv_norm)) ;;
           z <- new (Ok (zeros n 1)) ;;
           E <- getattr E ;;
           U_v <- getattr U_v ;;
           EinvUv <- op2 linalg_solve E U_v ;;
           v <- op3 (fun a b c => r_ [a; b; c]) s z EinvUv ;;
           dot_ Pt v
         else
           s <- new (Ok (scalar11 Pv_norm)) ;;
           z <- new (Ok (zeros n 1)) ;;
           v <- op2 (fun a b => r_ [a; b]) s z ;;
           dot_ Pt v) ;;
  (* line 132 *)
  q <- dot_ J qt ;;
  (* line 135 *)
  Q <- op1 House q ;;
  (* line 138 *)
  LH <- T_conj L ;;
  QLH <- op2 House_apply Q LH ;;
  LQ <- T_conj QLH ;;
  (* lines 139-140 *)
  QJ <- op2 House_apply Q J ;;
  PtLQ <- dot_ Pt LQ ;;
  X <- dot_ QJ PtLQ ;;
  '(H, T) <- op1_pair linalg_hessenberg X ;;
  (* line 141 *)
  QT <- op2 House_apply Q T ;;
  (* line 144 *)
  LQT <- dot_ L QT ;;
  PtLQT <- dot_ Pt LQT ;;
  N <- getattr N ;;
  R <- dot_ N PtLQT ;;
  (* lines 146-151 *)
  if full then
    V <- getattr V ;;
    Vn <- op1 (fun A => Ok (cols_upto A n)) V ;;
    U <- getattr U ;;
    VU <- op2 c_ Vn U ;;
    Vh <- dot_ VU QT ;;
    VhH <- T_conj Vh ;;
    RVh <- dot_ R VhH ;;
    Z <- getattr Z ;;
    ZRVh <- dot_ Z RVh ;;
    F0 <- op1 (fun A => Ok (neg A)) ZRVh ;;
    F0H <- T_conj F0 ;;
    F1 <- op2 add F0 F0H ;;
    ret (HRVhF H R Vh F1)
  else ret (HR H R).

(** The instance of the value model that an object and a store stand for. *)
Definition instance (o : t) (h : store) : Arnoldifyer.t :=
  Arnoldifyer.Build o.(n) o.(invariant) o.(d)
    (value h o.(V)) (value h o.(U)) (value h o.(AU)) (value h o.(H))
    (value h o.(B_)) (value h o.(C)) (value h o.(E)) o.(Pv_norm)
    (value h o.(U_v)) (value h o.(L)) (value h o.(J)) (value h o.(M))
    o.(A_norm) (value h o.(N)) (value h o.(Z)).

Definition returned_values (h : store) (r : result returned)
  : result Arnoldifyer.returned :=
  match r with
  | Ok (HR H R) => Ok (Arnoldifyer.HR (value h H) (value h R))
  | Ok (HRVhF H R Vh F1) =>
      Ok (Arnoldifyer.HRVhF (value h H) (value h R) (value h Vh) (value h F1))
  | Raise e => Raise e
  end.

(** Every array attribute refers to an array of the store. *)
Definition valid (o : t) (h : store) : Prop :=
  Forall (fun r => r < length h)
    [o.(V); o.(U); o.(AU); o.(H); o.(B_); o.(C); o.(E); o.(U_v);
     o.(L); o.(J); o.(M); o.(N); o.(Z)].

End Class.
End ArnoldifyerObject.

(** ** [ObliqueProjection] as an object *)

Module ProjectionObject.
Section Class.
Context {S : Scalar} {BE : Backend}.
Import Store.
Local Open Scope obj_scope.

(** The attributes of an instance; an operator is an object like an
    array. *)
Record t : Type := Build {
  A : ref;
  U : ref;
  AH_U : ref;
  ip_B : option ref;
  V : ref;
  W : ref;
  WR : ref;
  Q : option ref;
  R : option ref
}.

(** The attributes of the solver-state record [pre]. *)
Record linear_system : Type := LinearSystem {
  pre_A : ref;
  pre_Ml : ref;
  pre_Mr : ref;
  pre_b : ref;
  pre_x0 : ref
}.

(** [get_x0] runs on the instance and on the record it is given. *)
Record objects : Type := Objects {
  self : t;
  pre : linear_system
}.

Definition T_conj (a : ref) : prog objects ref := op1 (fun X => Ok (conjT X)) a.
Definition dot_ (a b : ref) : prog objects ref := op2 dot a b.

(** Modelled from the spec: [utils.inner(X, Y, ip_B)], as in the value
    model. *)
Definition inner (X Y : ref) (ip_B : option ref) : prog objects ref :=
  match ip_B with
  | None => XH <- T_conj X ;; dot_ XH Y
  | Some B => BY <- dot_ B Y ;; XH <- T_conj X ;; dot_ XH BY
  end.

(** Lines 31-36. *)
Definition _correction (z : ref) : prog objects ref :=
  U <- getattr (fun o => o.(self).(U)) ;;
  ip_B <- getattr (fun o => o.(self).(ip_B)) ;;
  c <- inner U z ip_B ;;
  WR <- getattr (fun o => o.(self).(WR)) ;;
  WRH <- T_conj WR ;;
  c <- op2 (fun a b => solve_triangular a b true) WRH c ;;
  Q <- getattr (fun o => o.(self).(Q)) ;;
  R <- getattr (fun o => o.(self).(R)) ;;
  c <- match Q, R with
       | Some Q, Some R =>
           QH <- T_conj Q ;;
           QHc <- dot_ QH c ;;
           op2 (fun a b => solve_triangular a b false) R QHc
       | _, _ => ret c
       end ;;
  V <- getattr (fun o => o.(self).(V)) ;;
  dot_ V c.

(** Lines 48-49. *)
Definition get_x0 : prog objects ref :=
  x0 <- getattr (fun o => o.(pre).(pre_x0)) ;;
  Mr <- getattr (fun o => o.(pre).(pre_Mr)) ;;
  Ml <- getattr (fun o => o.(pre).(pre_Ml)) ;;
  b <- getattr (fun o => o.(pre).(pre_b)) ;;
  A <- getattr (fun o => o.(pre).(pre_A)) ;;
  x0' <- getattr (fun o => o.(pre).(pre_x0)) ;;
  Ax <- dot_ A x0' ;;
  r <- op2 sub b Ax ;;
  z <- dot_ Ml r ;;
  c <- _correction z ;;
  Mc <- dot_ Mr c ;;
  op2 add x0 Mc.

(** The instance and the record of the value model that the objects and a
    store stand for. *)
Definition instance (o : t) (h : store) : ObliqueProjection.t :=
  ObliqueProjection.Build (value h o.(A)) (value h o.(U)) (value h o.(AH_U))
    (option_map (value h) o.(ip_B)) (value h o.(V)) (value h o.(W))
    (value h o.(WR)) (option_map (value h) o.(Q)) (option_map (value h) o.(R)).

Definition system (p : linear_system) (h : store)
  : ObliqueProjection.linear_system :=
  ObliqueProjection.LinearSystem (value h p.(pre_A)) (value h p.(pre_Ml))
    (value h p.(pre_Mr)) (value h p.(pre_b)) (value h p.(pre_x0)).

Definition returned_value (h : store) (r : result ref) : result matrix :=
  match r with
  | Ok x => Ok (value h x)
  | Raise e => Raise e
  end.

Definition valid_option (h : store) (r : option ref) : Prop :=
  match r with
  | Some x => x < length h
  | None => True
  end.

(** Every attribute refers to an object of the store. *)
Definition valid (o : objects) (h : store) : Prop :=
  Forall (fun r => r < length h)
    [o.(self).(A); o.(self).(U); o.(self).(AH_U); o.(self).(V);
     o.(self).(W); o.(self).(WR);
     o.(pre).(pre_A); o.(pre).(pre_Ml); o.(pre).(pre_Mr); o.(pre).(pre_b);
     o.(pre).(pre_x0)] /\
  valid_option h o.(self).(ip_B) /\
  valid_option h o.(self).(Q) /\
  valid_option h o.(self).(R).

End Class.
End ProjectionObject.

(** ** An exact instance over the rationals

    Scalars are the canonical rationals and conjugation is the identity.  The
    primitives compute exactly and answer only where the exact result is
    rational: a solve by Gauss-Jordan elimination, the spectral norm of a
    matrix with orthogonal columns, the QR factorisation of a single column,
    the Hessenberg form of a matrix that already has it, and the reflector of
    a vector of rational length. *)

Module Exact.
Import QArith Qcanon Qcabs.
Local Open Scope Qc_scope.

#[export] Instance QcScalar : Scalar := {|
  F := Qc;
  Fzero := 0;
  Fone := 1;
  Fadd := Qcplus;
  Fmul := Qcmult;
  Fsub := Qcminus;
  Fopp := Qcopp;
  Fconj := fun x => x;
  Fabs := Qcabs;
  Fgtb := fun x y => match y ?= x with Lt => true | _ => false end;
  F1e_14 := Q2Qc (1 # 100000000000000)
|}.

#[export] Instance QcScalarLaws : ScalarLaws QcScalar.
Proof.
  constructor; simpl; try reflexivity. exact Qcrt.
Qed.

(** Integers and fractions as scalars, and literal matrices. *)
Definition z (a : Z) : Qc := Q2Qc (a # 1).
Definition frac (a : Z) (b : positive) : Qc := Q2Qc (a # b).
Definition of_rows (r c : nat) (l : list (list Qc)) : matrix := Mat r c l.

(** *** Decidable equality of rational matrices *)

Fixpoint list_eqb {A : Type} (eqb : A -> A -> bool) (l1 l2 : list A) : bool :=
  match l1, l2 with
  | [], [] => true
  | a :: t1, b :: t2 => eqb a b && list_eqb eqb t1 t2
  | _, _ => false
  end.

Definition matrix_eqb (A B : matrix) : bool :=
  (nrows A =? nrows B)%nat && (ncols A =? ncols B)%nat &&
  list_eqb (list_eqb Qc_eq_bool) (rows A) (rows B).

Lemma list_eqb_sound {A : Type} (eqb : A -> A -> bool) :
  (forall a b, eqb a b = true -> a = b) ->
  forall l1 l2, list_eqb eqb l1 l2 = true -> l1 = l2.
Proof.
  intros Heq. induction l1 as [|a t1 IH]; destruct l2 as [|b t2]; simpl;
    try discriminate; [reflexivity|].
  intros H. apply andb_prop in H. destruct H as [Hab Ht].
  f_equal; [apply Heq; exact Hab | apply IH; exact Ht].
Qed.

Lemma matrix_eqb_sound A B : matrix_eqb A B = true -> A = B.
Proof.
  destruct A as [ra ca la], B as [rb cb lb]. unfold matrix_eqb. simpl.
  intros H. apply andb_prop in H. destruct H as [H Hl].
  apply andb_prop in H. destruct H as [Hr Hc].
  apply Nat.eqb_eq in Hr. apply Nat.eqb_eq in Hc. subst.
  f_equal. revert Hl. apply list_eqb_sound.
  apply list_eqb_sound. apply Qc_eq_bool_correct.
Qed.

(** *** Exact primitives *)

(** The square root of a rational that is a square of a rational. *)
Definition sqrt_exact (x : Qc) : option Qc :=
  let a := Qnum (this x) in
  let b := Qden (this x) in
  let r := Z.sqrt a in
  let s := Pos.sqrt b in
  if ((0 <=? a) && (r * r =? a) && (Z.pos s * Z.pos s =? Z.pos b))%Z
  then Some (Q2Qc (r # s)) else None.

Fixpoint zip_with {A : Type} (f : A -> A -> A) (l1 l2 : list A) : list A :=
  match l1, l2 with
  | a :: t1, b :: t2 => f a b :: zip_with f t1 t2
  | _, _ => []
  end.

(** [r - c p] *)
Definition row_axpy (c : Qc) (p r : list Qc) : list Qc :=
  zip_with (fun x y => x - c * y) r p.

Fixpoint find_pivot (k : nat) (todo : list (list Qc))
  : option (list Qc * list (list Qc)) :=
  match todo with
  | [] => None
  | r :: t =>
      if Qc_eq_bool (nth k r 0) 0
      then match find_pivot k t with
           | Some (p, rest) => Some (p, r :: rest)
           | None => None
           end
      else Some (r, t)
  end.

(** Gauss-Jordan elimination on the rows of [[A | B]]: [done] holds the
    rows whose pivots are in columns [0 .. k-1], in that order. *)
Fixpoint gauss_jordan (steps k : nat) (done todo : list (list Qc))
  : option (list (list Qc)) :=
  match steps with
  | O => Some done
  | Datatypes.S steps' =>
      match find_pivot k todo with
      | None => None
      | Some (p, rest) =>
          let p' := map (Qcmult (/ nth k p 0)) p in
          let elim r := row_axpy (nth k r 0) p' r in
          gauss_jordan steps' (Datatypes.S k) (map elim done ++ [p']) (map elim rest)
      end
  end.

Definition augmented (A B : matrix) : list (list Qc) :=
  map (fun i => map (entry A i) (seq 0 (ncols A)) ++ map (entry B i) (seq 0 (ncols B)))
      (seq 0 (nrows A)).

Definition exact_solve (A B : matrix) : result matrix :=
  if negb (nrows A =? ncols A)%nat then Raise LinAlgError
  else if negb (nrows B =? nrows A)%nat then Raise ValueError
  else match gauss_jordan (nrows A) 0 [] (augmented A B) with
       | None => Raise LinAlgError
       | Some sol =>
           Ok (tabulate (nrows A) (ncols B)
                 (fun i j => nth (ncols A + j) (nth i sol []) 0))
       end.

Definition exact_solve_triangular (A B : matrix) (lower : bool) : result matrix :=
  if negb (nrows A =? ncols A)%nat then Raise ValueError
  else exact_solve (if lower then tril A else triu A) B.

Definition is_diagonal (A : matrix) : bool :=
  forallb (fun i => forallb (fun j => (i =? j)%nat || Qc_eq_bool (entry A i j) 0)
                      (seq 0 (ncols A))) (seq 0 (nrows A)).

Definition Qcmax (x y : Qc) : Qc :=
  match x ?= y with Lt => y | _ => x end.

(** The largest singular value when the columns are orthogonal: the largest
    column length. *)
Definition exact_norm (A : matrix) : result Qc :=
  let G := mmul (conjT A) A in
  if (0 <? ncols A)%nat && (0 <? nrows A)%nat && is_diagonal G then
    match sqrt_exact (fold_right Qcmax 0 (diag G)) with
    | Some r => Ok r
    | None => Raise ValueError
    end
  else Raise ValueError.

Definition norm2_exact (x : matrix) : option Qc :=
  sqrt_exact (entry (mmul (conjT x) x) 0 0).

(** One column: [x = q r] with [q] of unit length, or any unit vector when
    [x] vanishes. *)
Definition exact_qr (X : matrix) : result (matrix * matrix * list nat) :=
  if (ncols X =? 1)%nat && (0 <? nrows X)%nat then
    match norm2_exact X with
    | Some r =>
        if Qc_eq_bool r 0
        then Ok (eye (nrows X) 1, zeros 1 1, (O :: nil))
        else Ok (tabulate (nrows X) 1 (fun i _ => entry X i 0 / r),
                 scalar11 r, (O :: nil))
    | None => Raise ValueError
    end
  else Raise ValueError.

Definition is_hessenberg (A : matrix) : bool :=
  forallb (fun i => forallb (fun j => (i <=? j + 1)%nat || Qc_eq_bool (entry A i j) 0)
                      (seq 0 (ncols A))) (seq 0 (nrows A)).

Definition exact_hessenberg (X : matrix) : result (matrix * matrix) :=
  if (nrows X =? ncols X)%nat && is_hessenberg X
  then Ok (canonical X, eye (nrows X) (nrows X))
  else Raise ValueError.

(** [I - 2 v v^T / (v^T v)] with [v = q - |q| e1], the identity when [q] is
    already a multiple of [e1]. *)
Definition exact_householder (q : matrix) : result matrix :=
  if negb (ncols q =? 1)%nat then Raise ValueError
  else
    let m := nrows q in
    if forallb (fun i => Qc_eq_bool (entry q i 0) 0) (seq 1 (m - 1))
    then Ok (eye m m)
    else match norm2_exact q with
         | None => Raise ValueError
         | Some r =>
             let v := fun i => if (i =? 0)%nat then entry q 0 0 - r else entry q i 0 in
             let vv := sumn m (fun k => v k * v k) in
             Ok (tabulate m m (fun i j =>
                   (if (i =? j)%nat then 1 else 0) - (1 + 1) * v i * v j / vv))
         end.

#[export] Instance ExactBackend : Backend := {|
  linalg_solve := exact_solve;
  linalg_norm := exact_norm;
  linalg_qr := exact_qr;
  linalg_hessenberg := exact_hessenberg;
  solve_triangular := exact_solve_triangular;
  householder := exact_householder
|}.

End Exact.

(** ** What a successful construction establishes *)

(** Inversion of a successful [bind]. *)
Ltac inv_bind H :=
  let a := fresh "a" in
  let Ha := fresh "Ha" in
  apply bind_Ok_inv in H; destruct H as [a [Ha H]].

(** Split a conjunction of boolean shape tests into equations on [nat]. *)
Ltac split_tests H :=
  repeat match type of H with
  | (_ && _) = true =>
      let H1 := fresh H in
      apply andb_prop in H; destruct H as [H1 H]; split_tests H1
  | (_ =? _) = true => apply Nat.eqb_eq in H
  end.

Section ArnoldifyerInit.
Context {S : Scalar} {SL : ScalarLaws S} {BE : Backend}.
Import Arnoldifyer.

Lemma dot_Ok A B X : dot A B = Ok X -> ncols A = nrows B /\ X = mmul A B.
Proof.
  unfold dot. destruct (Nat.eqb_spec (ncols A) (nrows B)); [|discriminate].
  intros H. injection H as <-. split; [assumption | reflexivity].
Qed.

Lemma dot_eq A B : ncols A = nrows B -> dot A B = Ok (mmul A B).
Proof. intros H. unfold dot. rewrite H, Nat.eqb_refl. reflexivity. Qed.

Lemma dot_Raise A B e : dot A B = Raise e -> e = ValueError /\ ncols A <> nrows B.
Proof.
  unfold dot. destruct (Nat.eqb_spec (ncols A) (nrows B)); [discriminate|].
  intros H. injection H as <-. split; [reflexivity | assumption].
Qed.

(** The block matrices of lines 85-92 in closed form. *)
Definition L_of (H EinvC : matrix) (n d : nat) : matrix :=
  block22 H (zeros (n + 1) d) EinvC (eye d d).
Definition J_of (B_ E : matrix) (n d : nat) : matrix :=
  block22 (eye n (n + 1)) (rows_upto B_ n) (zeros d (n + 1)) E.
Definition M_of (H B_ C E EinvC : matrix) (n : nat) : matrix :=
  block22 (madd (block_upto H n) (mmul (rows_upto B_ n) EinvC))
          (rows_upto B_ n) C E.

Record constructed (V U AU H B_ C E : matrix) (Pv_norm : F) (U_v : matrix)
    (self : t) (EinvC Q1 : matrix) : Prop := {
  c_H_rows : nrows H = ncols H + 1;
  c_EinvC : init_EinvC C E (ncols H) (ncols U) = Ok EinvC;
  c_EinvC_rows : nrows EinvC = ncols U;
  c_EinvC_cols : ncols EinvC = ncols H;
  c_B_rows : ncols H <= nrows B_;
  c_B_cols : ncols B_ = ncols U;
  c_E_rows : nrows E = ncols U;
  c_E_cols : ncols E = ncols U;
  c_C_rows : nrows C = ncols U;
  c_C_cols : ncols C = ncols H;
  c_norm : linalg_norm (M_of H B_ C E EinvC (ncols H)) = Ok self.(A_norm);
  c_Q1_N : init_Q1_N V U AU B_ E (ncols H) (ncols U) self.(A_norm)
           = Ok (Q1, self.(N));
  c_V_cols : 0 < ncols V;
  c_Q1_rows : nrows Q1 = nrows V;
  c_self : self = Build (ncols H) false (ncols U) V U AU H B_ C E Pv_norm U_v
             (L_of H EinvC (ncols H) (ncols U))
             (J_of B_ E (ncols H) (ncols U))
             (M_of H B_ C E EinvC (ncols H))
             self.(A_norm) self.(N)
             (block12 (tabulate (nrows V) 1 (fun i _ => entry V i (ncols V - 1))) Q1)
}.

Lemma last_col_Ok A X :
  last_col A = Ok X ->
  0 < ncols A /\ X = tabulate (nrows A) 1 (fun i _ => entry A i (ncols A - 1)).
Proof.
  unfold last_col. destruct (ncols A) as [|c]; [discriminate|].
  intros H. injection H as <-. split; [lia|].
  replace (Datatypes.S c - 1) with c by lia. reflexivity.
Qed.

Lemma init_inv V U AU H B_ C E Pv_norm U_v self :
  __init__ V U AU H B_ C E Pv_norm U_v = Ok self ->
  exists EinvC Q1, constructed V U AU H B_ C E Pv_norm U_v self EinvC Q1.
Proof.
  unfold __init__. intros H0.
  inv_bind H0. rename a into EinvC, Ha into HEinvC.
  rewrite bmat22_eq in H0.
  destruct (_ && _) eqn:HL in H0; [|discriminate]. simpl in H0.
  rewrite bmat22_eq in H0.
  destruct (_ && _) eqn:HJ in H0; [|discriminate]. simpl in H0.
  inv_bind H0. rename a into BE0, Ha into HBE.
  apply dot_Ok in HBE. destruct HBE as [HBEs ->].
  split_tests HL. split_tests HJ. autorewrite with shape in *.
  rewrite add_same_shape in H0 by (autorewrite with shape; lia).
  simpl in H0. rewrite bmat22_eq in H0.
  destruct (_ && _) eqn:HM in H0; [|discriminate]. simpl in H0.
  split_tests HM. autorewrite with shape in *.
  inv_bind H0. rename a into A_norm0, Ha into Hnorm.
  inv_bind H0. destruct a as [Q1 N0]. rename Ha into HQ1N.
  inv_bind H0. rename a into V_last, Ha into HVl.
  apply last_col_Ok in HVl. destruct HVl as [HVc ->].
  inv_bind H0. rename a into Z0, Ha into HZ.
  rewrite c__eq in HZ. autorewrite with shape in HZ.
  destruct (Nat.eqb_spec (nrows V) (nrows Q1)) as [HQr|]; [|discriminate].
  injection HZ as <-. injection H0 as <-.
  exists EinvC, Q1. constructor; simpl; try assumption; try lia.
  replace (nrows H =? ncols H) with false by (symmetry; apply Nat.eqb_neq; lia).
  reflexivity.
Qed.

End ArnoldifyerInit.

(** ** The construction when [H] is square or [U] has no columns *)

Section ArnoldifyerDegenerate.
Context {S : Scalar} {SL : ScalarLaws S} {BE : Backend}.
Import Arnoldifyer.

Add Ring Fring_degenerate : F_ring.

(** The instance a plain Krylov relation [A V_n = V_{n+1} H] alone gives:
    [L] is [H], [J] drops the last coordinate, [M] is the square part of [H],
    [N] selects the last coordinate and [Z] is the last basis vector.  No
    deflation data occurs in it. *)
Definition krylov_only (V H : matrix) (Pv_norm A_norm : F) : t :=
  let n := ncols H in
  Build n false 0 V (zeros (nrows V) 0) (zeros (nrows V) 0) H
    (zeros (n + 1) 0) (zeros 0 n) (zeros 0 0) Pv_norm (zeros 0 1)
    (canonical H) (eye n (n + 1)) (block_upto H n) A_norm
    (tabulate 1 (n + 1) (fun _ j => if j =? n then 1%F else 0%F))
    (tabulate (nrows V) 1 (fun i _ => entry V i (ncols V - 1))).

Lemma L_of_d0 H EinvC n :
  nrows EinvC = 0 -> L_of H EinvC n 0 = canonical H.
Proof.
  intros HE. unfold L_of, canonical. apply matrix_ext; auto with wf; [shape .. |].
  unfold block22, block21, block12. shape.
    intros i j Hi Hj. rewrite !entry_tabulate by (simpl; lia). simpl.
    replace (i <? nrows H) with true by (symmetry; apply Nat.ltb_lt; lia).
    rewrite entry_tabulate by (simpl; lia).
    replace (j <? ncols H) with true by (symmetry; apply Nat.ltb_lt; lia).
    reflexivity.
Qed.

Lemma J_of_d0 B_ E n :
  n <= nrows B_ -> ncols B_ = 0 -> nrows E = 0 ->
  J_of B_ E n 0 = eye n (n + 1).
Proof.
  intros HB HBc HE. unfold J_of. apply matrix_ext; auto with wf; [shape .. |].
  unfold block22, block21, block12. shape.
    intros i j Hi Hj. rewrite entry_tabulate by (simpl; lia). simpl.
    replace (i <? n) with true by (symmetry; apply Nat.ltb_lt; lia).
    rewrite entry_tabulate by (simpl; lia). simpl.
    replace (j <? n + 1) with true by (symmetry; apply Nat.ltb_lt; lia).
    reflexivity.
Qed.

Lemma M_of_d0 H B_ C E EinvC n :
  n <= nrows H -> n <= ncols H -> n <= nrows B_ -> ncols B_ = 0 -> nrows C = 0 ->
  ncols EinvC = n ->
  M_of H B_ C E EinvC n = block_upto H n.
Proof.
  intros HH HHc HB HBc HC HEc. unfold M_of, block_upto.
  apply matrix_ext; auto with wf; [shape .. |].
  unfold block22, block21, block12. shape.
    intros i j Hi Hj. rewrite entry_tabulate by (simpl; lia). simpl.
    replace (i <? Nat.min n (nrows H)) with true by (symmetry; apply Nat.ltb_lt; lia).
    rewrite entry_tabulate by (simpl; lia). simpl.
    replace (j <? Nat.min n (ncols H)) with true by (symmetry; apply Nat.ltb_lt; lia).
    rewrite entry_madd by (autorewrite with shape; lia).
    rewrite entry_mmul by (autorewrite with shape; lia).
    rewrite ncols_rows_upto, HBc, entry_tabulate by lia. simpl. ring.
Qed.

Lemma init_Q1_N_d0 V U AU B_ E n A_norm :
  init_Q1_N V U AU B_ E n 0 A_norm =
  Ok (zeros (nrows U) 0,
      tabulate 1 (n + 1) (fun _ j => if j =? n then 1%F else 0%F)).
Proof.
  unfold init_Q1_N. change (0 <? 0) with false. cbv iota.
  rewrite bmat12_eq. simpl. do 2 f_equal.
  apply tabulate_ext. intros i j Hi Hj. rewrite ncols_zeros.
  destruct (Nat.ltb_spec j n) as [Hlt|Hge].
  - rewrite entry_zeros by lia.
    replace (j =? n) with false by (symmetry; apply Nat.eqb_neq; lia). reflexivity.
  - rewrite entry_eye by lia.
    replace (j =? n) with true by (symmetry; apply Nat.eqb_eq; lia).
    replace (i =? j - n) with true by (symmetry; apply Nat.eqb_eq; lia).
    reflexivity.
Qed.

Lemma block12_empty_r A B :
  ncols B = 0 -> block12 A B = canonical A.
Proof.
  intros HB. unfold canonical. apply matrix_ext; auto with wf; [shape .. |].
  unfold block12. intros i j Hi Hj. simpl in Hi, Hj.
    rewrite !entry_tabulate by lia.
    replace (j <? ncols A) with true by (symmetry; apply Nat.ltb_lt; lia).
    reflexivity.
Qed.

(** What [get] reads of an instance with [d = 0]. *)
Lemma get_d0_congr (s1 s2 : t) Wt full :
  s1.(d) = 0 -> s2.(d) = 0 -> s1.(n) = s2.(n) ->
  s1.(L) = s2.(L) -> s1.(J) = s2.(J) -> s1.(M) = s2.(M) -> s1.(N) = s2.(N) ->
  s1.(Z) = s2.(Z) -> s1.(Pv_norm) = s2.(Pv_norm) ->
  c_ (cols_upto s1.(V) s1.(n)) s1.(U) = c_ (cols_upto s2.(V) s2.(n)) s2.(U) ->
  fst (get Wt full s1) = fst (get Wt full s2).
Proof.
  intros Hd1 Hd2 Hn HL HJ HM HN HZ HP HVU.
  unfold get, call. simpl.
  unfold get_locals, get_PtE_of, get_Pt_of, get_qt_of, get_return.
  rewrite ?HVU, Hd1, Hd2, Hn, HL, HJ, HM, HN, HZ, HP. reflexivity.
Qed.

End ArnoldifyerDegenerate.

(** ** Facts about the contracts and the invariant of an instance *)

Section ArnoldifyerInvariant.
Context {S : Scalar} {SL : ScalarLaws S} {BE : Backend}.
Import Arnoldifyer.

Add Ring Fring_invariant : F_ring.

Lemma mmul_zeros_r A r c :
  ncols A = r -> mmul A (zeros r c) = zeros (nrows A) c.
Proof.
  intros HA. apply matrix_ext; auto with wf.
  rewrite nrows_mmul, ncols_mmul, ncols_zeros. intros i j Hi Hj.
  rewrite entry_mmul by (autorewrite with shape; lia).
  rewrite entry_zeros by lia.
  rewrite (sumn_ext _ _ (fun _ => Fzero)).
  - apply sumn_zero.
  - intros k Hk. rewrite entry_zeros by lia. ring.
Qed.

Lemma singular_not_invertible A : singular A -> invertible A -> False.
Proof.
  intros [Hsq [x (Hwf & Hxr & Hxc & Hx0 & HAx)]] [_ [Ai (HwA & HAr & HAc & _ & HAiA)]].
  apply Hx0.
  rewrite <- (mmul_eye_l x Hwf), Hxr, <- HAiA.
  rewrite mmul_assoc by lia. rewrite HAx.
  rewrite mmul_zeros_r by lia. rewrite HAr. reflexivity.
Qed.

(** A solve that returned solved the system with the inverse. *)
Lemma solve_by_inverse A B X Ai :
  solve_contract A B -> linalg_solve A B = Ok X ->
  wf Ai -> nrows Ai = ncols A -> ncols Ai = nrows A ->
  mmul Ai A = eye (ncols A) (ncols A) ->
  X = mmul Ai (canonical B).
Proof.
  unfold solve_contract. intros Hc HX HwA HAr HAc HAiA. rewrite HX in Hc.
  destruct Hc as (HBr & [Hsq _] & HwX & HXr & HXc & HAX).
  rewrite <- HAX, <- mmul_assoc by lia. rewrite HAiA.
  replace (ncols A) with (nrows X) by lia.
  symmetry. apply mmul_eye_l. exact HwX.
Qed.

Lemma last_row_Ok A X :
  last_row A = Ok X ->
  0 < nrows A /\ X = tabulate 1 (ncols A) (fun _ j => entry A (nrows A - 1) j).
Proof.
  unfold last_row. destruct (nrows A) as [|r]; [discriminate|].
  intros H. injection H as <-. split; [lia|].
  replace (Datatypes.S r - 1) with r by lia. reflexivity.
Qed.

Lemma take_cols_Ok A idx X :
  take_cols A idx = Ok X ->
  X = tabulate (nrows A) (length idx) (fun i j => entry A i (nth j idx 0)).
Proof.
  unfold take_cols. destruct (forallb _ idx); [|discriminate].
  intros H. injection H as <-. reflexivity.
Qed.

(** The residual-helper matrix of line 106, before the selector. *)
Definition N1_of (B_last R12P : matrix) (l : nat) : matrix :=
  block22 (scalar11 Fone) B_last (zeros l 1) R12P.
(** The selector onto the last [d + 1] coordinates (line 108). *)
Definition N2_of (n d : nat) : matrix :=
  block12 (zeros (d + 1) n) (eye (d + 1) (d + 1)).

(** Lines 96-109 in closed form. *)
Lemma init_Q1_N_pos V U AU B_ E n d A_norm Q1 N0 :
  0 < d ->
  init_Q1_N V U AU B_ E n d A_norm = Ok (Q1, N0) ->
  exists X Q R P B_last R12P,
    projected_AU V U AU B_ E = Ok X /\
    linalg_qr X = Ok (Q, R, P) /\
    Q1 = cols_upto Q (rank_of R A_norm) /\
    last_row B_ = Ok B_last /\
    take_cols (rows_upto R (rank_of R A_norm)) (argsort P) = Ok R12P /\
    ncols B_ = length (argsort P) /\
    N0 = mmul (N1_of B_last R12P (rank_of R A_norm)) (N2_of n d) /\
    1 + ncols B_ = d + 1.
Proof.
  intros Hd. unfold init_Q1_N.
  replace (0 <? d) with true by (symmetry; apply Nat.ltb_lt; exact Hd).
  intros H0.
  inv_bind H0. rename a into X, Ha into HX.
  inv_bind H0. destruct a as [[Q R] P]. rename Ha into Hqr.
  inv_bind H0. rename a into B_last, Ha into HBl.
  inv_bind H0. rename a into R12P, Ha into HR12P.
  rewrite bmat22_eq in H0.
  destruct (_ && _) eqn:HN1 in H0; [|discriminate]. simpl in H0.
  rewrite bmat12_eq in H0. rewrite nrows_zeros, nrows_eye, Nat.eqb_refl in H0.
  simpl in H0.
  inv_bind H0. rename a into N', Ha into HN'.
  apply dot_Ok in HN'. destruct HN' as [HNs ->].
  injection H0 as <- <-.
  split_tests HN1.
  pose proof (last_row_Ok _ _ HBl) as [_ HBl'].
  pose proof (take_cols_Ok _ _ _ HR12P) as HR'.
  assert (Hb : ncols B_last = ncols B_) by (rewrite HBl'; reflexivity).
  assert (Hr : ncols R12P = length (argsort P)) by (rewrite HR'; reflexivity).
  autorewrite with shape in *.
  exists X, Q, R, P, B_last, R12P.
  repeat split; try assumption; try reflexivity; lia.
Qed.

(** Shapes that hold of every instance [__init__] returns. *)
Record built (self : t) : Prop := {
  b_L_wf : wf self.(L);
  b_L_rows : nrows self.(L) = self.(n) + self.(d) + 1;
  b_L_cols : ncols self.(L) = self.(n) + self.(d);
  b_J_wf : wf self.(J);
  b_J_rows : nrows self.(J) = self.(n) + self.(d);
  b_J_cols : ncols self.(J) = self.(n) + self.(d) + 1;
  b_M_wf : wf self.(M);
  b_M_rows : nrows self.(M) = self.(n) + self.(d);
  b_M_cols : ncols self.(M) = self.(n) + self.(d);
  b_N_wf : wf self.(N);
  b_N_cols : ncols self.(N) = self.(n) + self.(d) + 1;
  b_Z_wf : wf self.(Z);
  b_Z_rows : nrows self.(Z) = nrows self.(V);
  b_E_rows : nrows self.(E) = self.(d);
  b_E_cols : ncols self.(E) = self.(d);
  b_H_rows : nrows self.(H) = self.(n) + 1;
  b_H_cols : ncols self.(H) = self.(n);
  b_U_cols : ncols self.(U) = self.(d)
}.

Lemma init_built V U AU H B_ C E Pv_norm U_v self :
  __init__ V U AU H B_ C E Pv_norm U_v = Ok self -> built self.
Proof.
  intros Hinit.
  destruct (init_inv _ _ _ _ _ _ _ _ _ _ Hinit) as [EinvC [Q1 Hc]].
  destruct Hc.
  assert (HN : wf (N self) /\ ncols (N self) = ncols H + ncols U + 1).
  { destruct (Nat.eq_dec (ncols U) 0) as [Hd|Hd].
    - rewrite Hd in c_Q1_N0. rewrite init_Q1_N_d0 in c_Q1_N0.
      injection c_Q1_N0 as _ <-. rewrite Hd. simpl.
      split; [apply wf_tabulate | lia].
    - apply init_Q1_N_pos in c_Q1_N0; [|lia].
      destruct c_Q1_N0 as (X & Q & R & P & Bl & R12P & _ & _ & _ & _ & _ & _ & HN0 & _).
      rewrite HN0. unfold N1_of, N2_of. autorewrite with shape.
      split; [apply wf_mmul | lia]. }
  destruct HN as (HNwf & HNc).
  rewrite c_self0 in HNwf, HNc. simpl in HNwf, HNc.
  rewrite c_self0. constructor; simpl; unfold L_of, J_of, M_of;
    autorewrite with shape; auto with wf; try lia.
Qed.

End ArnoldifyerInvariant.

(** ** What a successful [get] computed *)

Section ArnoldifyerGet.
Context {S : Scalar} {SL : ScalarLaws S} {BE : Backend}.
Import Arnoldifyer.

Lemma broadcast2_Ok op A B X :
  broadcast2 op A B = Ok X ->
  wf X /\
  (nrows A = nrows B -> nrows X = nrows A) /\
  (ncols A = ncols B -> ncols X = ncols A /\
     (nrows A = nrows B ->
      X = tabulate (nrows A) (ncols A) (fun i j => op (entry A i j) (entry B i j)))).
Proof.
  unfold broadcast2. intros H0.
  inv_bind H0. rename a into r, Ha into Hr.
  inv_bind H0. rename a into c, Ha into Hc.
  injection H0 as <-. split; [apply wf_tabulate|]. split.
  - intros E0. rewrite E0, bdim_same in Hr. injection Hr as <-.
    simpl. symmetry. exact E0.
  - intros E0. rewrite E0, bdim_same in Hc. injection Hc as <-.
    split; [simpl; symmetry; exact E0|].
    intros E1. rewrite E1, bdim_same in Hr. injection Hr as <-.
    rewrite <- E0, <- E1. apply tabulate_ext. intros i j Hi Hj.
    rewrite !bidx_lt by lia. reflexivity.
Qed.

(** The vector [Pt] is applied to in lines 128-131. *)
Definition seed_of (self : t) (EinvUv : matrix) : matrix :=
  if 0 <? self.(d)
  then block21 (block21 (scalar11 self.(Pv_norm)) (zeros self.(n) 1)) EinvUv
  else block21 (scalar11 self.(Pv_norm)) (zeros self.(n) 1).

Record traced (self : t) (Wt : matrix) (loc : locals) (Xs : matrix) : Prop := {
  t_Wt_rows : nrows Wt = self.(n) + self.(d);
  t_PtE : loc.(get_PtE) = mmul (conjT Wt) (mmul self.(M) Wt);
  t_solve : linalg_solve loc.(get_PtE) (mmul (conjT Wt) self.(J)) = Ok Xs;
  t_Xs_rows : nrows Xs = ncols Wt;
  t_Pt : sub (eye (self.(n) + self.(d) + 1) (self.(n) + self.(d) + 1))
             (mmul self.(L) (mmul Wt Xs)) = Ok loc.(get_Pt);
  t_Pt_wf : wf loc.(get_Pt);
  t_Pt_rows : nrows loc.(get_Pt) = self.(n) + self.(d) + 1;
  t_Pt_cols : ncols loc.(get_Pt) = self.(n) + self.(d) + 1;
  t_qt : get_qt_of self loc.(get_Pt) = Ok loc.(get_qt);
  t_qt_rows : nrows loc.(get_qt) = self.(n) + self.(d) + 1;
  t_q : loc.(get_q) = mmul self.(J) loc.(get_qt);
  t_Q : House loc.(get_q) = Ok loc.(get_Q);
  t_Q_rows : nrows loc.(get_Q) = self.(n) + self.(d);
  t_Q_cols : ncols loc.(get_Q) = self.(n) + self.(d);
  t_LQ : loc.(get_LQ) = conjT (mmul loc.(get_Q) (conjT self.(L)));
  t_hess : linalg_hessenberg (hessenberg_arg self loc)
           = Ok (loc.(get_H), loc.(get_T));
  t_T_rows : nrows loc.(get_T) = self.(n) + self.(d);
  t_QT : loc.(get_QT) = mmul loc.(get_Q) loc.(get_T);
  t_R : loc.(get_R) =
        mmul self.(N) (mmul loc.(get_Pt) (mmul self.(L) loc.(get_QT)))
}.

Lemma get_qt_of_rows self Pt qt :
  get_qt_of self Pt = Ok qt -> nrows qt = nrows Pt.
Proof.
  unfold get_qt_of. destruct (0 <? d self); intros H0.
  - inv_bind H0. inv_bind H0. apply dot_Ok in H0. destruct H0 as [_ ->].
    reflexivity.
  - inv_bind H0. apply dot_Ok in H0. destruct H0 as [_ ->]. reflexivity.
Qed.

Lemma get_locals_inv self Wt loc :
  built self -> get_locals self Wt = Ok loc ->
  exists Xs, traced self Wt loc Xs.
Proof.
  intros Hb. destruct Hb. unfold get_locals, get_PtE_of, get_Pt_of, House_apply.
  intros H0.
  inv_bind H0. rename a into PtE, Ha into HPtE.
  inv_bind HPtE. rename a into MWt, Ha into HMWt.
  apply dot_Ok in HMWt. destruct HMWt as [HMWts ->].
  apply dot_Ok in HPtE. destruct HPtE as [_ ->].
  inv_bind H0. rename a into Pt, Ha into HPt.
  inv_bind HPt. rename a into WtJ, Ha into HWtJ.
  apply dot_Ok in HWtJ. destruct HWtJ as [_ ->].
  inv_bind HPt. rename a into Xs, Ha into HXs.
  inv_bind HPt. rename a into WtX, Ha into HWtX.
  apply dot_Ok in HWtX. destruct HWtX as [HWtXs ->].
  inv_bind HPt. rename a into LWtX, Ha into HLWtX.
  apply dot_Ok in HLWtX. destruct HLWtX as [_ ->].
  inv_bind H0. rename a into qt, Ha into Hqt.
  inv_bind H0. rename a into q, Ha into Hq.
  apply dot_Ok in Hq. destruct Hq as [Hqs ->].
  inv_bind H0. rename a into Q, Ha into HQ.
  inv_bind H0. rename a into QLH, Ha into HQLH.
  apply dot_Ok in HQLH. destruct HQLH as [HQLHs ->].
  inv_bind H0. rename a into QJ, Ha into HQJ.
  apply dot_Ok in HQJ. destruct HQJ as [_ ->].
  inv_bind H0. rename a into PtLQ, Ha into HPtLQ.
  apply dot_Ok in HPtLQ. destruct HPtLQ as [HPtLQs ->].
  inv_bind H0. rename a into X, Ha into HX.
  apply dot_Ok in HX. destruct HX as [_ ->].
  inv_bind H0. destruct a as [H T]. rename Ha into Hhess.
  inv_bind H0. rename a into QT, Ha into HQT.
  apply dot_Ok in HQT. destruct HQT as [HQTs ->].
  inv_bind H0. rename a into LQT, Ha into HLQT.
  apply dot_Ok in HLQT. destruct HLQT as [HLQTs ->].
  inv_bind H0. rename a into PtLQT, Ha into HPtLQT.
  apply dot_Ok in HPtLQT. destruct HPtLQT as [_ ->].
  inv_bind H0. rename a into R, Ha into HR.
  apply dot_Ok in HR. destruct HR as [_ ->].
  injection H0 as <-.
  destruct (broadcast2_Ok _ _ _ _ HPt) as (HPwf & HPr & _).
  autorewrite with shape in *.
  specialize (HPr ltac:(lia)).
  pose proof (get_qt_of_rows _ _ _ Hqt) as Hqtr.
  exists Xs. constructor; simpl; try assumption; try reflexivity; try lia.
Qed.

(** The algebra behind the reduced relation: with a reflector [Q], a unitary
    [T] and [T H T^H = (Q J) (Pt (L Q^H)^H^H)], the reduced basis [W Q T]
    times [H] plus the residual is the block relation times [Pt L Q T]. *)
Lemma relation_core (W J Pt L Q T H Z N : matrix) (k m : nat) :
  wf L -> wf H ->
  nrows J = k -> ncols J = m -> nrows Pt = m -> ncols Pt = m ->
  nrows L = m -> ncols L = k ->
  nrows Q = k -> ncols Q = k -> nrows T = k -> ncols T = k ->
  nrows H = k -> ncols H = k ->
  ncols W = k -> nrows Z = nrows W -> ncols Z = nrows N -> ncols N = m ->
  conjT Q = Q -> mmul Q Q = eye k k -> mmul (conjT T) T = eye k k ->
  mmul T (mmul H (conjT T)) = mmul (mmul Q J) (mmul Pt (conjT (mmul Q (conjT L)))) ->
  madd (mmul (mmul W (mmul Q T)) H)
       (mmul Z (mmul N (mmul Pt (mmul L (mmul Q T))))) =
  mmul (madd (mmul W J) (mmul Z N)) (mmul Pt (mmul L (mmul Q T))).
Proof.
  intros HwL HwH HJr HJc HPr HPc HLr HLc HQr HQc HTr HTc HHr HHc
         HWc HZr HZc HNc HQh HQQ HTT HX.
  set (Y := mmul Pt (mmul L (mmul Q T))).
  assert (HLQ : conjT (mmul Q (conjT L)) = mmul L Q).
  { rewrite conjT_mmul by (autorewrite with shape; lia).
    rewrite conjT_conjT by exact HwL. rewrite HQh. reflexivity. }
  rewrite HLQ in HX.
  assert (HTH : mmul T H = mmul (mmul (mmul Q J) (mmul Pt (mmul L Q))) T).
  { rewrite <- HX.
    rewrite (mmul_assoc T) by (autorewrite with shape; lia).
    rewrite (mmul_assoc H) by (autorewrite with shape; lia).
    rewrite HTT. rewrite <- HHc. rewrite mmul_eye_r by exact HwH. reflexivity. }
  assert (HXT : mmul (mmul (mmul Q J) (mmul Pt (mmul L Q))) T = mmul Q (mmul J Y)).
  { unfold Y.
    rewrite (mmul_assoc (mmul Q J)) by (autorewrite with shape; lia).
    rewrite (mmul_assoc Pt) by (autorewrite with shape; lia).
    rewrite (mmul_assoc L Q T) by (autorewrite with shape; lia).
    rewrite (mmul_assoc Q J) by (autorewrite with shape; lia).
    reflexivity. }
  assert (H1 : mmul (mmul W (mmul Q T)) H = mmul (mmul W J) Y).
  { rewrite (mmul_assoc W) by (autorewrite with shape; lia).
    rewrite (mmul_assoc Q T H) by (autorewrite with shape; lia).
    rewrite HTH, HXT.
    rewrite <- (mmul_assoc Q Q) by (autorewrite with shape; lia).
    rewrite HQQ.
    replace k with (nrows (mmul J Y)) by (autorewrite with shape; lia).
    rewrite mmul_eye_l by apply wf_mmul.
    rewrite <- (mmul_assoc W J) by (autorewrite with shape; lia).
    reflexivity. }
  assert (H2 : mmul Z (mmul N Y) = mmul (mmul Z N) Y).
  { rewrite (mmul_assoc Z N) by (autorewrite with shape; lia). reflexivity. }
  rewrite H1, H2. symmetry.
  apply mmul_madd_l; autorewrite with shape; lia.
Qed.

Lemma get_return_full_inv self loc H R Vh F0 :
  get_return self true loc = Ok (HRVhF H R Vh F0) ->
  H = loc.(get_H) /\ R = loc.(get_R) /\
  nrows self.(V) = nrows self.(U) /\
  ncols (block12 (cols_upto self.(V) self.(n)) self.(U)) = nrows loc.(get_QT) /\
  Vh = mmul (block12 (cols_upto self.(V) self.(n)) self.(U)) loc.(get_QT) /\
  ncols self.(Z) = nrows loc.(get_R).
Proof.
  unfold get_return. intros H0.
  inv_bind H0. rename a into VU, Ha into HVU.
  rewrite c__eq in HVU. rewrite nrows_cols_upto in HVU.
  destruct (Nat.eqb_spec (nrows (V self)) (nrows (U self))) as [Hr|]; [|discriminate].
  injection HVU as <-.
  inv_bind H0. rename a into Vh', Ha into HVh.
  apply dot_Ok in HVh. destruct HVh as [HVhs ->].
  inv_bind H0. rename a into RVh, Ha into HRVh.
  apply dot_Ok in HRVh. destruct HRVh as [_ ->].
  inv_bind H0. rename a into ZRVh, Ha into HZRVh.
  apply dot_Ok in HZRVh. destruct HZRVh as [HZs ->].
  inv_bind H0. injection H0 as <- <- <- <-.
  autorewrite with shape in HZs.
  repeat split; try assumption; reflexivity.
Qed.

Lemma get_qt_of_inv self Pt qt :
  get_qt_of self Pt = Ok qt ->
  (0 < self.(d) ->
     exists EinvUv, linalg_solve self.(E) self.(U_v) = Ok EinvUv /\
       qt = mmul Pt (block21 (block21 (scalar11 self.(Pv_norm)) (zeros self.(n) 1))
                       EinvUv)) /\
  (self.(d) = 0 ->
     qt = mmul Pt (block21 (scalar11 self.(Pv_norm)) (zeros self.(n) 1))).
Proof.
  unfold get_qt_of. destruct (Nat.ltb_spec 0 (d self)) as [Hd|Hd]; intros H0.
  - split; [intros _ | lia].
    inv_bind H0. rename a into EinvUv, Ha into HE.
    inv_bind H0. rename a into v, Ha into Hv.
    rewrite r_3_eq in Hv. destruct (_ && _) in Hv; [|discriminate].
    injection Hv as <-. apply dot_Ok in H0. destruct H0 as [_ ->].
    exists EinvUv. split; [exact HE | reflexivity].
  - split; [lia | intros _].
    inv_bind H0. rename a into v, Ha into Hv.
    rewrite r_2_eq in Hv. destruct (_ =? _) in Hv; [|discriminate].
    injection Hv as <-. apply dot_Ok in H0. destruct H0 as [_ ->]. reflexivity.
Qed.

Lemma get_Ok_inv self Wt full out :
  fst (get Wt full self) = Ok out ->
  exists loc, get_locals self Wt = Ok loc /\ get_return self full loc = Ok out.
Proof.
  unfold get, call. simpl. intros H0. inv_bind H0. exists a. split; assumption.
Qed.

Lemma get_return_HR self full loc out :
  get_return self full loc = Ok out ->
  returned_H out = loc.(get_H) /\ returned_R out = loc.(get_R).
Proof.
  unfold get_return. destruct full; intros H0.
  - inv_bind H0. inv_bind H0. inv_bind H0. inv_bind H0. inv_bind H0.
    injection H0 as <-. split; reflexivity.
  - injection H0 as <-. split; reflexivity.
Qed.

(** *** Which steps of [get] can raise a [LinAlgError] *)

Definition no_LinAlgError {A : Type} (r : result A) : Prop :=
  r <> Raise LinAlgError.

Lemma bind_no_LinAlgError {A B : Type} (c : result A) (k : A -> result B) :
  no_LinAlgError c -> (forall a, c = Ok a -> no_LinAlgError (k a)) ->
  no_LinAlgError (bind c k).
Proof.
  unfold no_LinAlgError. destruct c as [a|e]; simpl; intros Hc Hk.
  - apply Hk. reflexivity.
  - intros H. apply Hc. injection H as ->. reflexivity.
Qed.

Lemma dot_no_LinAlgError A B : no_LinAlgError (dot A B).
Proof. unfold no_LinAlgError, dot. destruct (_ =? _); discriminate. Qed.

Lemma bdim_no_LinAlgError a b : no_LinAlgError (bdim a b).
Proof.
  unfold no_LinAlgError, bdim.
  destruct (a =? b); [discriminate|].
  destruct (a =? 1); [discriminate|].
  destruct (b =? 1); discriminate.
Qed.

Lemma broadcast2_no_LinAlgError op A B : no_LinAlgError (broadcast2 op A B).
Proof.
  unfold broadcast2.
  apply bind_no_LinAlgError; [apply bdim_no_LinAlgError | intros r _].
  apply bind_no_LinAlgError; [apply bdim_no_LinAlgError | intros c _].
  discriminate.
Qed.

Lemma c__no_LinAlgError A B : no_LinAlgError (c_ A B).
Proof. rewrite c__eq. unfold no_LinAlgError. destruct (_ =? _); discriminate. Qed.

Lemma r_2_no_LinAlgError A B : no_LinAlgError (r_ [A; B]).
Proof. rewrite r_2_eq. unfold no_LinAlgError. destruct (_ =? _); discriminate. Qed.

Lemma r_3_no_LinAlgError A B C : no_LinAlgError (r_ [A; B; C]).
Proof. rewrite r_3_eq. unfold no_LinAlgError. destruct (_ && _); discriminate. Qed.

Lemma get_return_no_LinAlgError self full loc :
  no_LinAlgError (get_return self full loc).
Proof.
  unfold get_return. destruct full; [|discriminate].
  apply bind_no_LinAlgError; [apply c__no_LinAlgError | intros VU _].
  apply bind_no_LinAlgError; [apply dot_no_LinAlgError | intros Vh _].
  apply bind_no_LinAlgError; [apply dot_no_LinAlgError | intros RVh _].
  apply bind_no_LinAlgError; [apply dot_no_LinAlgError | intros ZRVh _].
  apply bind_no_LinAlgError; [apply broadcast2_no_LinAlgError | intros F1 _].
  discriminate.
Qed.

Lemma get_qt_of_no_LinAlgError self Pt :
  (0 < self.(d) -> no_LinAlgError (linalg_solve self.(E) self.(U_v))) ->
  no_LinAlgError (get_qt_of self Pt).
Proof.
  intros HE. unfold get_qt_of. destruct (Nat.ltb_spec 0 (d self)) as [Hd|Hd].
  - apply bind_no_LinAlgError; [exact (HE Hd) | intros X _].
    apply bind_no_LinAlgError; [apply r_3_no_LinAlgError | intros v _].
    apply dot_no_LinAlgError.
  - apply bind_no_LinAlgError; [apply r_2_no_LinAlgError | intros v _].
    apply dot_no_LinAlgError.
Qed.

(** Past the solve with [PtE], no step of [get] raises a [LinAlgError]. *)
Lemma get_no_LinAlgError self Wt full PtE :
  (0 < self.(d) -> no_LinAlgError (linalg_solve self.(E) self.(U_v))) ->
  raises_no_LinAlgError House ->
  raises_no_LinAlgError linalg_hessenberg ->
  get_PtE_of self Wt = Ok PtE ->
  no_LinAlgError (linalg_solve PtE (mmul (conjT Wt) self.(J))) ->
  no_LinAlgError (fst (get Wt full self)).
Proof.
  intros HE HHouse Hhess HPtE Hsolve. unfold get, call. simpl.
  apply bind_no_LinAlgError; [|intros loc _; apply get_return_no_LinAlgError].
  unfold get_locals. rewrite HPtE. simpl.
  apply bind_no_LinAlgError.
  { unfold get_Pt_of.
    apply bind_no_LinAlgError; [apply dot_no_LinAlgError | intros WtJ HWtJ].
    apply dot_Ok in HWtJ. destruct HWtJ as [_ ->].
    apply bind_no_LinAlgError; [exact Hsolve | intros X _].
    apply bind_no_LinAlgError; [apply dot_no_LinAlgError | intros WtX _].
    apply bind_no_LinAlgError; [apply dot_no_LinAlgError | intros LWtX _].
    apply broadcast2_no_LinAlgError. }
  intros Pt _.
  apply bind_no_LinAlgError; [apply get_qt_of_no_LinAlgError; exact HE | intros qt _].
  apply bind_no_LinAlgError; [apply dot_no_LinAlgError | intros q _].
  apply bind_no_LinAlgError; [apply HHouse | intros Q _].
  unfold House_apply.
  apply bind_no_LinAlgError; [apply dot_no_LinAlgError | intros QLH _].
  apply bind_no_LinAlgError; [apply dot_no_LinAlgError | intros QJ _].
  apply bind_no_LinAlgError; [apply dot_no_LinAlgError | intros PtLQ _].
  apply bind_no_LinAlgError; [apply dot_no_LinAlgError | intros X _].
  apply bind_no_LinAlgError; [apply Hhess | intros [H T] _].
  apply bind_no_LinAlgError; [apply dot_no_LinAlgError | intros QT _].
  apply bind_no_LinAlgError; [apply dot_no_LinAlgError | intros LQT _].
  apply bind_no_LinAlgError; [apply dot_no_LinAlgError | intros PtLQT _].
  apply bind_no_LinAlgError; [apply dot_no_LinAlgError | intros R _].
  discriminate.
Qed.

End ArnoldifyerGet.

(** ** Concrete data for the examples *)

Module Examples.
Import Exact.
Local Open Scope Z_scope.

Definition ints (r c : nat) (l : list (list Z)) : matrix :=
  of_rows r c (map (map z) l).

(** A square [H]: the invariant case of the docstring, [N = 2], [n = 1],
    no deflation vectors. *)
Definition V_sq : matrix := ints 2 1 [[1]; [0]].
Definition H_sq : matrix := ints 1 1 [[1]].
Definition U_none : matrix := ints 2 0 [[]; []].
Definition B_none (r : nat) : matrix := of_rows r 0 (repeat [] r).
Definition C_none (c : nat) : matrix := of_rows 0 c [].
Definition E_none : matrix := ints 0 0 [].
Definition Uv_none : matrix := ints 0 1 [].

(** A plain Krylov relation: [A = [[1, 0], [1, 1]]], [V = I], [N = 2],
    [n = 1], [d = 0]. *)
Definition A_k : matrix := ints 2 2 [[1; 0]; [1; 1]].
Definition V_k : matrix := ints 2 2 [[1; 0]; [0; 1]].
Definition H_k : matrix := ints 2 1 [[1]; [1]].

(** A deflated relation with [N = 4], [n = 1], [d = 1]. *)
Definition V_d : matrix := ints 4 2 [[1; 0]; [0; 1]; [0; 0]; [0; 0]].
Definition U_d : matrix := ints 4 1 [[0]; [0]; [1]; [0]].
Definition AU_d : matrix := ints 4 1 [[4]; [3]; [3]; [3]].
Definition H_d : matrix := of_rows 2 1 [[frac 25 3]; [z 5]].
Definition B_d : matrix := ints 2 1 [[4]; [3]].
Definition C_d : matrix := ints 1 1 [[-4]].
Definition E_d : matrix := ints 1 1 [[3]].
Definition Uv_d : matrix := ints 1 1 [[2]].

End Examples.

(** ** Claims about the construction *)

Section ConstructionClaims.
Context {S : Scalar} {SL : ScalarLaws S} {BE : Backend}.
Import Arnoldifyer.

(** C5 (fails on the code).  When [H] is square, the invariant case of the
    docstring, the construction never returns an instance: if [EinvC] is
    obtained, assembling [L] raises [ValueError], because [zeros((n+1, d))]
    has one row more than [H]; otherwise the solve for [EinvC] has raised. *)
Theorem square_H_construction_raises
    (V U AU H B_ C E : matrix) (Pv_norm : F) (U_v : matrix) :
  nrows H = ncols H ->
  exists e, __init__ V U AU H B_ C E Pv_norm U_v = Raise e /\
    (e = ValueError \/ init_EinvC C E (ncols H) (ncols U) = Raise e).
Proof.
  intros Hsq. unfold __init__.
  destruct (init_EinvC C E (ncols H) (ncols U)) as [EinvC|e] eqn:HE; simpl.
  - exists ValueError. split; [|left; reflexivity].
    rewrite bmat22_eq. autorewrite with shape.
    replace (nrows H =? ncols H + 1) with false
      by (symmetry; apply Nat.eqb_neq; lia).
    reflexivity.
  - exists e. split; [reflexivity | right; reflexivity].
Qed.



(** The part of [AU] the bases leave unexplained, in the words of the
    specification, [AU - U E - V B_], entry by entry. *)
Definition unexplained_AU (V U AU B_ E : matrix) : matrix :=
  tabulate (nrows AU) (ncols AU) (fun i j =>
    Fsub (Fsub (entry AU i j)
               (sumn (ncols U) (fun k => Fmul (entry U i k) (entry E k j))))
         (sumn (ncols V) (fun k => Fmul (entry V i k) (entry B_ k j)))).

(** The number of indices [i < k] at which [p] holds. *)
Fixpoint count_below (k : nat) (p : nat -> bool) : nat :=
  match k with
  | O => 0
  | Datatypes.S k' => count_below k' p + (if p k' then 1 else 0)
  end.

(** The rank estimate, in the words of the specification: the count of the
    diagonal entries of [R] whose magnitude exceeds [1e-14 * A_norm]. *)
Definition rank_estimate (R : matrix) (A_norm : F) : nat :=
  count_below (Nat.min (nrows R) (ncols R))
    (fun i => Fgtb (Fabs (entry R i i)) (Fmul F1e_14 A_norm)).

Lemma count_below_le k p : count_below k p <= k.
Proof.
  induction k as [|k IH]; simpl; [lia|]. destruct (p k); lia.
Qed.

(** Line 102 counts what the specification counts. *)
Lemma rank_of_estimate (R : matrix) (A_norm : F) :
  rank_of R A_norm = rank_estimate R A_norm.
Proof.
  unfold rank_of, rank_estimate, count_gt, diag.
  induction (Nat.min (nrows R) (ncols R)) as [|k IH]; [reflexivity|].
  rewrite seq_S, map_app, filter_app, length_app, IH. simpl.
  destruct (Fgtb _ _); reflexivity.
Qed.

(** Line 97 on arrays of the documented shapes. *)
Lemma projected_AU_unexplained (V U AU B_ E X : matrix) :
  projected_AU V U AU B_ E = Ok X ->
  shape AU = (nrows U, ncols E) -> nrows V = nrows U -> ncols B_ = ncols E ->
  X = unexplained_AU V U AU B_ E.
Proof.
  unfold projected_AU, shape. intros H0 HAU HV HB.
  injection HAU as HAr HAc.
  inv_bind H0. rename a into UE, Ha into HUE.
  apply dot_Ok in HUE. destruct HUE as [HUEs ->].
  inv_bind H0. rename a into AU_UE, Ha into HAU_UE.
  rewrite sub_same_shape in HAU_UE by (autorewrite with shape; lia).
  injection HAU_UE as <-.
  inv_bind H0. rename a into VB, Ha into HVB.
  apply dot_Ok in HVB. destruct HVB as [HVBs ->].
  rewrite sub_same_shape in H0 by (autorewrite with shape; lia).
  injection H0 as <-.
  unfold unexplained_AU, msub at 1. autorewrite with shape.
  apply tabulate_ext. intros i j Hi Hj.
  rewrite entry_msub by lia.
  rewrite !entry_mmul by lia. reflexivity.
Qed.

(** C4.  With deflation vectors, a constructed instance comes from the
    column-pivoted QR of [AU - U E - V B_] (entry by entry, on arrays of the
    documented shapes): [A_norm] is the spectral norm of the assembled [M];
    the rank [l] the code retains is the number of diagonal entries of [R]
    whose magnitude exceeds [1e-14 * A_norm], at most the length of the
    diagonal; and [Q1], the right part of [Z], is the first [l] columns of
    [Q]. *)
Theorem rank_revealing_residual
    (V U AU H B_ C E : matrix) (Pv_norm : F) (U_v : matrix) (self : t) :
  0 < ncols U ->
  __init__ V U AU H B_ C E Pv_norm U_v = Ok self ->
  exists EinvC X Q R P,
    init_EinvC C E (ncols H) (ncols U) = Ok EinvC /\
    self.(M) = M_of H B_ C E EinvC (ncols H) /\
    linalg_norm self.(M) = Ok self.(A_norm) /\
    projected_AU V U AU B_ E = Ok X /\
    (shape AU = shape U -> nrows V = nrows U ->
       X = unexplained_AU V U AU B_ E) /\
    linalg_qr X = Ok (Q, R, P) /\
    let l := rank_estimate R self.(A_norm) in
    rank_of R self.(A_norm) = l /\
    l <= Nat.min (nrows R) (ncols R) /\
    self.(Z) = block12 (tabulate (nrows V) 1 (fun i _ => entry V i (ncols V - 1)))
                 (tabulate (nrows Q) (Nat.min l (ncols Q)) (entry Q)) /\
    nrows self.(N) = 1 + l.
Proof.
  intros Hd Hinit.
  destruct (init_inv _ _ _ _ _ _ _ _ _ _ Hinit) as [EinvC [Q1 Hc]].
  destruct Hc.
  apply init_Q1_N_pos in c_Q1_N0; [|exact Hd].
  destruct c_Q1_N0 as (X & Q & R & P & Bl & R12P & HX & Hqr & HQ1 & _ & _ & _ & HN0 & _).
  exists EinvC, X, Q, R, P.
  split; [exact c_EinvC0|].
  split; [rewrite c_self0 at 1; reflexivity|].
  split; [rewrite c_self0 at 1; simpl; exact c_norm0|].
  split; [exact HX|].
  split.
  { intros HAU HV.
    apply (projected_AU_unexplained _ _ _ _ _ _ HX); [|exact HV|lia].
    rewrite HAU. unfold shape. rewrite c_E_cols0. reflexivity. }
  split; [exact Hqr|].
  cbv zeta. rewrite rank_of_estimate in HQ1, HN0.
  split; [apply rank_of_estimate|].
  split; [apply count_below_le|].
  split.
  - rewrite c_self0 at 1. simpl. rewrite HQ1. reflexivity.
  - rewrite HN0. unfold N1_of. autorewrite with shape. reflexivity.
Qed.

End ConstructionClaims.

(** ** The construction claims on the examples *)

Module ConstructionExamples.
Import Exact Examples Arnoldifyer.

(** The instance built from the plain Krylov relation. *)
Definition self_k : t :=
  Eval vm_compute in
    match __init__ V_k U_none U_none H_k (B_none 2) (C_none 1) E_none (z 1) Uv_none with
    | Ok self => self
    | Raise _ => krylov_only V_k H_k (z 0) (z 0)
    end.

Lemma init_k :
  __init__ V_k U_none U_none H_k (B_none 2) (C_none 1) E_none (z 1) Uv_none
  = Ok self_k.
Proof. reflexivity. Qed.

(** The failing input of C5, evaluated. *)
Example square_H_raises_ValueError :
  __init__ V_sq U_none U_none H_sq (B_none 1) (C_none 1) E_none (z 1) Uv_none
  = Raise ValueError.
Proof. reflexivity. Qed.

Lemma square_H_construction_raises_witness :
  nrows H_sq = ncols H_sq /\
  exists e,
    __init__ V_sq U_none U_none H_sq (B_none 1) (C_none 1) E_none (z 1) Uv_none
      = Raise e /\
    (e = ValueError \/ init_EinvC (C_none 1) E_none (ncols H_sq) (ncols U_none) = Raise e).
Proof.
  split; [reflexivity|].
  apply square_H_construction_raises. reflexivity.
Defined.


(** Equality of rational matrices by evaluation. *)
Ltac qc_mat := apply Exact.matrix_eqb_sound; vm_compute; reflexivity.

(** The instance built from the deflated relation. *)
Definition self_d : t :=
  Eval vm_compute in
    match __init__ V_d U_d AU_d H_d B_d C_d E_d (z 1) Uv_d with
    | Ok self => self
    | Raise _ => krylov_only V_k H_k (z 0) (z 0)
    end.

Lemma init_d :
  __init__ V_d U_d AU_d H_d B_d C_d E_d (z 1) Uv_d = Ok self_d.
Proof. reflexivity. Qed.

Lemma invertible_E_d : invertible E_d.
Proof.
  split; [reflexivity|].
  exists (of_rows 1 1 [[frac 1 3]]).
  repeat split; try reflexivity; qc_mat.
Qed.

(** Evaluate the call a contract is about. *)
Ltac eval_call c :=
  let r := eval vm_compute in c in
  replace c with r by (vm_compute; reflexivity); cbv beta iota.

Lemma solve_contract_E_d_C_d : solve_contract E_d C_d.
Proof.
  unfold solve_contract. eval_call (linalg_solve E_d C_d).
  repeat split; try reflexivity; try qc_mat.
  exists (of_rows 1 1 [[frac 1 3]]).
  repeat split; try reflexivity; qc_mat.
Qed.

(** A singular deflation block. *)
Definition E_s : matrix := Examples.ints 1 1 [[0%Z]].

Lemma singular_E_s : singular E_s.
Proof.
  split; [reflexivity|].
  exists (Examples.ints 1 1 [[1%Z]]).
  repeat split; try reflexivity; try qc_mat.
  intros H.
  apply (f_equal (fun A : @matrix QcScalar =>
                    Qcanon.Qc_eq_bool (@entry QcScalar A 0 0) (z 0))) in H.
  vm_compute in H. discriminate H.
Qed.

Lemma solve_contract_E_s_C_d : solve_contract E_s C_d.
Proof.
  unfold solve_contract. eval_call (linalg_solve E_s C_d).
  right. split; [reflexivity | exact singular_E_s].
Qed.


Lemma rank_revealing_residual_witness :
  0 < ncols U_d /\
  __init__ V_d U_d AU_d H_d B_d C_d E_d (z 1) Uv_d = Ok self_d /\
  shape AU_d = shape U_d /\ nrows V_d = nrows U_d /\
  exists Q R P,
    linalg_qr (unexplained_AU V_d U_d AU_d B_d E_d) = Ok (Q, R, P) /\
    linalg_norm self_d.(M) = Ok self_d.(A_norm) /\
    rank_of R self_d.(A_norm) = rank_estimate R self_d.(A_norm) /\
    rank_estimate R self_d.(A_norm) = 1 /\
    self_d.(Z) = block12 (tabulate 4 1 (fun i _ => entry V_d i 1))
                   (tabulate (nrows Q) (Nat.min 1 (ncols Q)) (entry Q)).
Proof.
  assert (Hd : 0 < ncols U_d) by (vm_compute; lia).
  assert (HAU : shape AU_d = shape U_d) by reflexivity.
  assert (HV : nrows V_d = nrows U_d) by reflexivity.
  destruct (rank_revealing_residual _ _ _ _ _ _ _ _ _ _ Hd init_d)
    as (EinvC & X & Q & R & P & _ & _ & Hnorm & _ & HX & Hqr & Hl).
  cbv zeta in Hl. destruct Hl as (Hrank & _ & HZ & HN).
  assert (H2 : nrows self_d.(N) = 2) by reflexivity.
  assert (Hl1 : rank_estimate R self_d.(A_norm) = 1) by lia.
  rewrite Hl1 in HZ. rewrite (HX HAU HV) in Hqr.
  split; [exact Hd|]. split; [exact init_d|].
  split; [exact HAU|]. split; [exact HV|].
  exists Q, R, P. split; [exact Hqr|]. split; [exact Hnorm|].
  split; [exact Hrank|]. split; [exact Hl1 | exact HZ].
Defined.

End ConstructionExamples.

(** ** Claims about [get] *)

Section GetClaims.
Context {S : Scalar} {SL : ScalarLaws S} {BE : Backend}.
Import Arnoldifyer.

(** C1 (as amended).  For a reduction subspace [Wt] on which
    [get(Wt, full=True)] returns, [Wt] has [n + d] rows and, when the
    reflector and the Hessenberg reduction meet their contracts,
    [Vh H + Z R] equals the block relation [[V_n, U] J + Z N] applied to
    [Pt L QT]: the round trip holds for the [Pt]-projected image.  An
    operator [A] with [A [V_n, U] = ([V_n, U] J + Z N) L] maps [Vh] to the
    same block relation applied to [L QT], without [Pt]. *)
Theorem reduced_relation
    (V U AU H B_ C E : matrix) (Pv_norm : F) (U_v : matrix) (self : t)
    (Wt : matrix) (loc : locals) (Hh Rh Vh Fh : matrix) :
  __init__ V U AU H B_ C E Pv_norm U_v = Ok self ->
  get_locals self Wt = Ok loc ->
  fst (get Wt true self) = Ok (HRVhF Hh Rh Vh Fh) ->
  House_contract loc.(get_q) ->
  hessenberg_contract (hessenberg_arg self loc) ->
  let VnU := block12 (cols_upto V (ncols H)) U in
  let relation := madd (mmul VnU self.(J)) (mmul self.(Z) self.(N)) in
  nrows Wt = ncols H + ncols U /\
  Vh = mmul VnU loc.(get_QT) /\
  madd (mmul Vh Hh) (mmul self.(Z) Rh) =
    mmul relation (mmul loc.(get_Pt) (mmul self.(L) loc.(get_QT))) /\
  forall A, ncols A = nrows VnU ->
    mmul A VnU = mmul relation self.(L) ->
    mmul A Vh = mmul relation (mmul self.(L) loc.(get_QT)).
Proof.
  intros Hinit Hloc Hget HHouse Hhess VnU relation.
  pose proof (init_built _ _ _ _ _ _ _ _ _ _ Hinit) as Hb.
  destruct (init_inv _ _ _ _ _ _ _ _ _ _ Hinit) as [EinvC [Q1 Hc]].
  assert (Hn : self.(n) = ncols H) by (destruct Hc; rewrite c_self0; reflexivity).
  assert (Hd : self.(d) = ncols U) by (destruct Hc; rewrite c_self0; reflexivity).
  assert (HV : self.(Arnoldifyer.V) = V) by (destruct Hc; rewrite c_self0; reflexivity).
  assert (HU : self.(Arnoldifyer.U) = U) by (destruct Hc; rewrite c_self0; reflexivity).
  clear Hc.
  destruct (get_locals_inv _ _ _ Hb Hloc) as [Xs Ht].
  unfold get, call in Hget. simpl in Hget. rewrite Hloc in Hget. simpl in Hget.
  apply get_return_full_inv in Hget.
  destruct Hget as (-> & -> & HVUr & HVUc & -> & HZc).
  rewrite Hn, HV, HU in *. fold VnU in HVUc |- *.
  destruct Hb, Ht. rewrite Hn, Hd, ?HV, ?HU in *.
  specialize (HHouse _ t_Q0).
  destruct HHouse as (_ & _ & _ & _ & HQh & HQQ & _).
  specialize (Hhess _ _ t_hess0).
  destruct Hhess as (_ & HwH & HHr & HHc & _ & _ & [HTsq [_ HTT]] & HX & _).
  unfold hessenberg_arg in HX, HHr, HHc. unfold canonical in HX.
  rewrite (wf_mmul _ _ : wf (mmul _ _)) in HX.
  rewrite t_LQ0 in HX. autorewrite with shape in HHr, HHc.
  rewrite t_q0 in HQQ. autorewrite with shape in HQQ.
  rewrite b_J_rows0 in HQQ. rewrite t_T_rows0 in HTT.
  rewrite t_QT0 in HVUc. autorewrite with shape in HVUc.
  split; [exact t_Wt_rows0|]. split; [reflexivity|]. split.
  - rewrite t_R0, t_QT0.
    apply (relation_core VnU (J self) (get_Pt loc) (L self) (get_Q loc) (get_T loc)
             (get_H loc) (Z self) (N self) (ncols H + ncols U) (ncols H + ncols U + 1));
      try assumption; try lia.
    rewrite t_R0 in HZc. autorewrite with shape in HZc. exact HZc.
  - intros A HA HAW.
    rewrite <- (mmul_assoc A) by exact HA. rewrite HAW.
    apply mmul_assoc. unfold relation. autorewrite with shape. lia.
Qed.

(** The inverse the formulas of section 4.2 write as [( . )^-1]. *)
Definition inverse_of (A Ai : matrix) : Prop :=
  wf Ai /\ nrows Ai = ncols A /\ ncols Ai = nrows A /\
  mmul Ai A = eye (ncols A) (ncols A).

(** [Pt = I - L Wt (PtE)^-1 Wt^H J], in the words of the specification. *)
Definition Pt_formula (self : t) (Wt PtEinv : matrix) : matrix :=
  let m := self.(n) + self.(d) + 1 in
  msub (eye m m)
       (mmul self.(L) (mmul Wt (mmul PtEinv (mmul (conjT Wt) self.(J))))).

(** [[Pv_norm; 0; E^-1 U_v]], or [[Pv_norm; 0]] when [d = 0]. *)
Definition seed_formula (self : t) (Einv : matrix) : matrix :=
  if 0 <? self.(d)
  then block21 (block21 (scalar11 self.(Pv_norm)) (zeros self.(n) 1))
               (mmul Einv (canonical self.(U_v)))
  else block21 (scalar11 self.(Pv_norm)) (zeros self.(n) 1).

(** C3.  On an instance [__init__] returned and a [Wt] on which [get]
    computes its locals, with the two solves meeting the contract of
    [numpy.linalg.solve]: [PtE = Wt^H M Wt]; [Pt] is the stated projector, of
    size [(n+d+1) x (n+d+1)]; [qt] is [Pt] applied to the stated seed; [QT] is
    the reflector of [q = J qt] times the transform of the Hessenberg
    reduction; and the residual coefficients returned are [N Pt L QT]. *)
Theorem get_computes_stated_formulas
    (V U AU H B_ C E : matrix) (Pv_norm : F) (U_v : matrix) (self : t)
    (Wt : matrix) (loc : locals) (PtEinv Einv : matrix) :
  __init__ V U AU H B_ C E Pv_norm U_v = Ok self ->
  get_locals self Wt = Ok loc ->
  solve_contract loc.(get_PtE) (mmul (conjT Wt) self.(J)) ->
  inverse_of loc.(get_PtE) PtEinv ->
  (0 < ncols U -> solve_contract E U_v /\ inverse_of E Einv) ->
  let m := ncols H + ncols U + 1 in
  loc.(get_PtE) = mmul (conjT Wt) (mmul self.(M) Wt) /\
  loc.(get_Pt) = Pt_formula self Wt PtEinv /\
  nrows loc.(get_Pt) = m /\ ncols loc.(get_Pt) = m /\
  loc.(get_qt) = mmul loc.(get_Pt) (seed_formula self Einv) /\
  loc.(get_q) = mmul self.(J) loc.(get_qt) /\
  House loc.(get_q) = Ok loc.(get_Q) /\
  linalg_hessenberg (hessenberg_arg self loc) = Ok (loc.(get_H), loc.(get_T)) /\
  loc.(get_QT) = mmul loc.(get_Q) loc.(get_T) /\
  loc.(get_R) = mmul self.(N) (mmul loc.(get_Pt) (mmul self.(L) loc.(get_QT))) /\
  forall full out, fst (get Wt full self) = Ok out ->
    returned_H out = loc.(get_H) /\ returned_R out = loc.(get_R).
Proof.
  intros Hinit Hloc HsP HiP HsE m.
  pose proof (init_built _ _ _ _ _ _ _ _ _ _ Hinit) as Hb.
  destruct (init_inv _ _ _ _ _ _ _ _ _ _ Hinit) as [EinvC [Q1 Hc]].
  assert (Hn : self.(n) = ncols H) by (destruct Hc; rewrite c_self0; reflexivity).
  assert (Hd : self.(d) = ncols U) by (destruct Hc; rewrite c_self0; reflexivity).
  assert (HE : self.(Arnoldifyer.E) = E) by (destruct Hc; rewrite c_self0; reflexivity).
  assert (HUv : self.(Arnoldifyer.U_v) = U_v) by (destruct Hc; rewrite c_self0; reflexivity).
  clear Hc.
  destruct (get_locals_inv _ _ _ Hb Hloc) as [Xs Ht].
  destruct Hb, Ht.
  assert (HXs : Xs = mmul PtEinv (mmul (conjT Wt) (J self))).
  { destruct HiP as (Hw & Hr & Hc & Hinv).
    rewrite (solve_by_inverse _ _ _ _ HsP t_solve0 Hw Hr Hc Hinv).
    unfold canonical. rewrite (wf_mmul _ _ : wf (mmul _ _)). reflexivity. }
  assert (HPt : get_Pt loc = Pt_formula self Wt PtEinv).
  { unfold Pt_formula. rewrite <- HXs.
    rewrite sub_same_shape in t_Pt0.
    - injection t_Pt0 as <-. reflexivity.
    - autorewrite with shape. lia.
    - rewrite HXs. autorewrite with shape. lia. }
  assert (Hqt : get_qt loc = mmul (get_Pt loc) (seed_formula self Einv)).
  { destruct (get_qt_of_inv _ _ _ t_qt0) as [Hpos Hzero].
    unfold seed_formula.
    destruct (Nat.ltb_spec 0 (d self)) as [Hd0|Hd0].
    - destruct (Hpos Hd0) as (EinvUv & HsU & ->).
      rewrite Hd in Hd0. destruct (HsE Hd0) as [HcE (Hw & Hr & Hc & Hinv)].
      rewrite HE, HUv in HsU.
      rewrite (solve_by_inverse _ _ _ _ HcE HsU Hw Hr Hc Hinv).
      rewrite HUv. reflexivity.
    - apply Hzero. lia. }
  rewrite Hn, Hd in *. unfold m.
  do 10 (split; [assumption|]).
  intros full out Hout.
  destruct (get_Ok_inv _ _ _ _ Hout) as (loc' & Hloc' & Hret).
  rewrite Hloc in Hloc'. injection Hloc' as <-.
  apply (get_return_HR _ _ _ _ Hret).
Qed.

Lemma count_gt_le xs t : count_gt xs t <= length xs.
Proof. unfold count_gt. apply filter_length_le. Qed.

Lemma length_diag A : length (diag A) = Nat.min (nrows A) (ncols A).
Proof. unfold diag. rewrite length_map, length_seq. reflexivity. Qed.

(** C10.  With deflation vectors, for every [Wt] on which [get] returns
    (such a [Wt] has [n + d] rows), when the pivoted QR of the construction
    and the Hessenberg reduction of the call meet their contracts: the
    reduced Hessenberg matrix is [(n+d) x (n+d)], the residual coefficient
    matrix is [(1+l) x (n+d)], whatever the number of columns of [Wt], and
    [Z] has [1 + l] columns, [l] being the rank counted from [R]. *)
Theorem output_shapes
    (V U AU H B_ C E : matrix) (Pv_norm : F) (U_v : matrix) (self : t)
    (Wt : matrix) (full : bool) (loc : locals) (out : returned) :
  0 < ncols U ->
  __init__ V U AU H B_ C E Pv_norm U_v = Ok self ->
  (forall X, projected_AU V U AU B_ E = Ok X -> qr_contract X) ->
  get_locals self Wt = Ok loc ->
  hessenberg_contract (hessenberg_arg self loc) ->
  fst (get Wt full self) = Ok out ->
  exists X Q R P,
    projected_AU V U AU B_ E = Ok X /\ linalg_qr X = Ok (Q, R, P) /\
    let l := count_gt (diag R) (Fmul F1e_14 self.(A_norm)) in
    let n := ncols H in
    let d := ncols U in
    nrows H = n + 1 /\
    nrows Wt = n + d /\
    shape (returned_H out) = (n + d, n + d) /\
    shape (returned_R out) = (1 + l, n + d) /\
    ncols self.(Z) = 1 + l.
Proof.
  intros Hd0 Hinit Hqrc Hloc Hhess Hout.
  pose proof (init_built _ _ _ _ _ _ _ _ _ _ Hinit) as Hb.
  destruct (init_inv _ _ _ _ _ _ _ _ _ _ Hinit) as [EinvC [Q1 Hc]].
  assert (Hn : self.(n) = ncols H) by (destruct Hc; rewrite c_self0; reflexivity).
  assert (Hd : self.(d) = ncols U) by (destruct Hc; rewrite c_self0; reflexivity).
  assert (HZ : ncols self.(Z) = 1 + ncols Q1).
  { destruct Hc. rewrite c_self0. simpl. reflexivity. }
  destruct Hc.
  apply init_Q1_N_pos in c_Q1_N0; [|exact Hd0].
  destruct c_Q1_N0 as (X & Q & R & P & Bl & R12P & HX & Hqr & HQ1 & _ & _ & _ & HN0 & _).
  exists X, Q, R, P. split; [exact HX | split; [exact Hqr|]].
  cbv zeta. unfold rank_of in HQ1, HN0.
  set (l := count_gt (diag R) (Fmul F1e_14 (A_norm self))) in *.
  destruct (Hqrc X HX Q R P Hqr) as (_ & _ & HQc & _ & HRr & HRc & _).
  assert (Hl : l <= ncols Q).
  { unfold l. etransitivity; [apply count_gt_le|]. rewrite length_diag. lia. }
  destruct (get_locals_inv _ _ _ Hb Hloc) as [Xs Ht].
  destruct (get_Ok_inv _ _ _ _ Hout) as (loc' & Hloc' & Hret).
  rewrite Hloc in Hloc'. injection Hloc' as <-.
  destruct (get_return_HR _ _ _ _ Hret) as [-> ->].
  destruct Ht. rewrite Hn, Hd in *.
  destruct (Hhess _ _ t_hess0) as (_ & _ & HHr & HHc & _ & _ & [HTsq _] & _).
  unfold hessenberg_arg in HHr, HHc. autorewrite with shape in HHr, HHc.
  split; [exact c_H_rows0|]. split; [exact t_Wt_rows0|]. split; [|split].
  - unfold shape. rewrite HHr, HHc, t_Q_rows0. reflexivity.
  - unfold shape. rewrite t_R0, t_QT0. autorewrite with shape.
    rewrite HN0. unfold N1_of. autorewrite with shape.
    rewrite <- HTsq, t_T_rows0. reflexivity.
  - rewrite HZ, HQ1. autorewrite with shape. lia.
Qed.


End GetClaims.

(** ** Claims about the projector *)

Section ObliqueClaims.
Context {S : Scalar} {SL : ScalarLaws S} {BE : Backend}.
Import ObliqueProjection.

Lemma canonical_wf (A0 : matrix) : wf A0 -> canonical A0 = A0.
Proof. intros H. exact H. Qed.

Lemma inner_Ok (self : t) X Y c N :
  inner X Y self.(ip_B) = Ok c ->
  wf Y -> nrows Y = N ->
  c = mmul (conjT X) (mmul (weight self N) Y).
Proof.
  unfold inner, weight. destruct (ip_B self) as [B|]; intros H0 HwY HY.
  - inv_bind H0. apply dot_Ok in Ha. destruct Ha as [_ ->].
    apply dot_Ok in H0. destruct H0 as [_ ->]. reflexivity.
  - apply dot_Ok in H0. destruct H0 as [_ ->].
    rewrite <- HY, mmul_eye_l by exact HwY. reflexivity.
Qed.

Lemma inner_eq (self : t) X Y N :
  wf Y -> nrows Y = N -> nrows X = N ->
  nrows (weight self N) = N -> ncols (weight self N) = N ->
  inner X Y self.(ip_B) = Ok (mmul (conjT X) (mmul (weight self N) Y)).
Proof.
  unfold inner, weight. destruct (ip_B self) as [B|]; intros HwY HY HX HBr HBc.
  - rewrite dot_eq by lia. simpl. rewrite dot_eq by (autorewrite with shape; lia).
    reflexivity.
  - rewrite dot_eq by (autorewrite with shape; lia).
    rewrite <- HY, mmul_eye_l by exact HwY. reflexivity.
Qed.

Lemma residual_eq (pre : linear_system) x N :
  nrows pre.(pre_A) = N -> ncols pre.(pre_A) = N ->
  nrows pre.(pre_Ml) = N -> ncols pre.(pre_Ml) = N ->
  nrows pre.(pre_b) = N -> ncols pre.(pre_b) = 1 ->
  nrows x = N -> ncols x = 1 ->
  residual pre x
  = Ok (mmul pre.(pre_Ml) (msub pre.(pre_b) (mmul pre.(pre_A) x))).
Proof.
  intros. unfold residual. rewrite dot_eq by lia. simpl.
  rewrite sub_same_shape by (autorewrite with shape; lia). simpl.
  rewrite dot_eq by (autorewrite with shape; lia). reflexivity.
Qed.

(** The coefficients the correction computes solve the projected system. *)
Lemma correction_solves (self : t) (Aeff : matrix) (N d : nat) z loc :
  projector self Aeff N d ->
  wf z -> nrows z = N -> ncols z = 1 ->
  _correction_locals self z = Ok loc ->
  triangular_contract (conjT self.(WR)) loc.(c_inner) true ->
  (forall Q0 R0, self.(Q) = Some Q0 -> self.(R) = Some R0 ->
     triangular_contract R0 (mmul (conjT Q0) loc.(c_WR)) false) ->
  wf loc.(c_R) /\ nrows loc.(c_R) = d /\ ncols loc.(c_R) = 1 /\
  mmul (mmul (conjT self.(U)) (mmul (weight self N) (mmul Aeff self.(V)))) loc.(c_R)
  = mmul (conjT self.(U)) (mmul (weight self N) z).
Proof.
  intros Hp Hwz Hzr Hzc Hloc HcWR HcR. destruct Hp.
  unfold _correction_locals in Hloc.
  inv_bind Hloc. rename a into c0, Ha into Hc0.
  apply (inner_Ok self _ _ _ N) in Hc0; [|exact Hwz | exact Hzr].
  inv_bind Hloc. rename a into c1, Ha into Hc1.
  set (G := mmul (conjT (W self)) (mmul (weight self N) (V self))) in *.
  assert (HG : mmul (conjT (U self)) (mmul (weight self N) (mmul Aeff (V self)))
               = mmul (conjT (WR self)) G).
  { rewrite <- p_adjoint0, p_AH_U0.
    rewrite conjT_mmul by lia.
    unfold G. apply mmul_assoc. autorewrite with shape. lia. }
  rewrite HG.
  assert (Hc0r : nrows c0 = d) by (rewrite Hc0; autorewrite with shape; lia).
  assert (Hc0c : ncols c0 = 1) by (rewrite Hc0; autorewrite with shape; lia).
  assert (Hc0w : wf c0) by (rewrite Hc0; apply wf_mmul).
  assert (Hc1' : wf c1 /\ nrows c1 = d /\ ncols c1 = 1 /\
                 mmul (conjT (WR self)) c1 = c0).
  { assert (HcWR' : triangular_contract (conjT (WR self)) c0 true).
    { destruct (Q self), (R self).
      1: inv_bind Hloc; inv_bind Hloc.
      all: injection Hloc as <-; exact HcWR. }
    destruct (HcWR' _ Hc1) as (_ & _ & Hw & Hr & Hc & Hs).
    rewrite tril_conjT in Hs by exact p_WR_upper0.
    rewrite canonical_wf in Hs by exact Hc0w.
    repeat split; try assumption; lia. }
  destruct Hc1' as (Hwc1 & Hc1r & Hc1c & Hc1s).
  rewrite <- Hc0.
  assert (Hfin : forall c2, wf c2 -> G = eye d d -> c2 = c1 ->
                 mmul (mmul (conjT (WR self)) G) c2 = c0).
  { intros c2 _ HGI ->. rewrite HGI.
    rewrite (mmul_assoc (conjT (WR self))) by (autorewrite with shape; lia).
    rewrite <- Hc1r, mmul_eye_l by exact Hwc1. exact Hc1s. }
  destruct (Q self) as [Q0|] eqn:HQ, (R self) as [R0|] eqn:HR.
  - inv_bind Hloc. rename a into QHc, Ha into HQHc.
    apply dot_Ok in HQHc. destruct HQHc as [_ ->].
    inv_bind Hloc. rename a into c2, Ha into Hc2.
    injection Hloc as <-. simpl in *.
    destruct p_QR0 as (HwQ & HQr & HQc & HwR & HRr & HRc & HQQ & HRu & HGQR).
    destruct (HcR Q0 R0 eq_refl eq_refl _ Hc2) as (_ & _ & Hw & Hr & Hc & Hs).
    rewrite HRu in Hs. rewrite canonical_wf in Hs by apply wf_mmul.
    autorewrite with shape in Hr, Hc.
    split; [exact Hw|]. split; [lia|]. split; [lia|].
    rewrite HGQR.
    rewrite (mmul_assoc (conjT (WR self))) by (autorewrite with shape; lia).
    rewrite (mmul_assoc Q0 R0) by lia. rewrite Hs.
    rewrite <- (mmul_assoc Q0) by (autorewrite with shape; lia).
    rewrite HQQ. rewrite <- Hc1r, mmul_eye_l by exact Hwc1.
    exact Hc1s.
  - injection Hloc as <-. simpl.
    split; [exact Hwc1|]. split; [exact Hc1r|]. split; [exact Hc1c|].
    apply Hfin; [exact Hwc1 | exact p_QR0 | reflexivity].
  - injection Hloc as <-. simpl.
    split; [exact Hwc1|]. split; [exact Hc1r|]. split; [exact Hc1c|].
    apply Hfin; [exact Hwc1 | exact p_QR0 | reflexivity].
  - injection Hloc as <-. simpl.
    split; [exact Hwc1|]. split; [exact Hc1r|]. split; [exact Hc1c|].
    apply Hfin; [exact Hwc1 | exact p_QR0 | reflexivity].
Qed.

(** A linear system on vectors of dimension [N]. *)
Record well_shaped (pre : linear_system) (N : nat) : Prop := {
  s_A_rows : nrows pre.(pre_A) = N;
  s_A_cols : ncols pre.(pre_A) = N;
  s_Ml_rows : nrows pre.(pre_Ml) = N;
  s_Ml_cols : ncols pre.(pre_Ml) = N;
  s_Mr_rows : nrows pre.(pre_Mr) = N;
  s_Mr_cols : ncols pre.(pre_Mr) = N;
  s_b_rows : nrows pre.(pre_b) = N;
  s_b_cols : ncols pre.(pre_b) = 1;
  s_x0_rows : nrows pre.(pre_x0) = N;
  s_x0_cols : ncols pre.(pre_x0) = 1
}.

(** C2 (as amended).  For a projector built for the operator
    [Ml A Mr] of the system, whose triangular solves meet the contract of
    [scipy.linalg.solve_triangular]: the guess [get_x0] returns makes the
    effective residual [Ml (b - A x)] orthogonal, in the given inner
    product, to every column of the deflation basis [U]. *)
Theorem corrected_residual_orthogonal_to_U
    (self : t) (pre : linear_system) (N d : nat)
    (z : matrix) (loc : locals) (x : matrix) :
  projector self (mmul pre.(pre_Ml) (mmul pre.(pre_A) pre.(pre_Mr))) N d ->
  well_shaped pre N ->
  residual pre pre.(pre_x0) = Ok z ->
  _correction_locals self z = Ok loc ->
  triangular_contract (conjT self.(WR)) loc.(c_inner) true ->
  (forall Q0 R0, self.(Q) = Some Q0 -> self.(R) = Some R0 ->
     triangular_contract R0 (mmul (conjT Q0) loc.(c_WR)) false) ->
  fst (get_x0 pre self) = Ok x ->
  exists r, residual pre x = Ok r /\
            inner self.(U) r self.(ip_B) = Ok (zeros d 1).
Proof.
  intros Hp Hs Hz Hloc HcWR HcR Hx.
  destruct Hs.
  rewrite (residual_eq pre _ N) in Hz by assumption. injection Hz as Hz.
  assert (Hwz : wf z) by (rewrite <- Hz; apply wf_mmul).
  assert (Hzr : nrows z = N) by (rewrite <- Hz; autorewrite with shape; lia).
  assert (Hzc : ncols z = 1) by (rewrite <- Hz; autorewrite with shape; lia).
  destruct (correction_solves self _ N d z loc Hp Hwz Hzr Hzc Hloc HcWR HcR)
    as (Hwc & Hcr & Hcc & Hsol).
  destruct Hp.
  set (Aeff := mmul (pre_Ml pre) (mmul (pre_A pre) (pre_Mr pre))) in *.
  set (c2 := c_R loc) in *.
  unfold get_x0, call in Hx. simpl in Hx. unfold get_x0_body in Hx.
  rewrite (residual_eq pre _ N) in Hx by assumption. simpl in Hx.
  rewrite Hz in Hx. unfold _correction in Hx. rewrite Hloc in Hx. simpl in Hx.
  fold c2 in Hx.
  rewrite dot_eq in Hx by lia. simpl in Hx.
  rewrite dot_eq in Hx by (autorewrite with shape; lia). simpl in Hx.
  rewrite add_same_shape in Hx by (autorewrite with shape; lia).
  injection Hx as <-.
  set (corr := mmul (V self) c2).
  assert (Hr : mmul (pre_Ml pre)
                 (msub (pre_b pre)
                    (mmul (pre_A pre) (madd (pre_x0 pre) (mmul (pre_Mr pre) corr))))
               = msub z (mmul Aeff corr)).
  { rewrite mmul_madd_r by (unfold corr; autorewrite with shape; lia).
    rewrite msub_madd by (autorewrite with shape; lia).
    rewrite mmul_msub_r by (unfold corr; autorewrite with shape; lia).
    rewrite Hz. f_equal. unfold Aeff.
    rewrite (mmul_assoc (pre_Ml pre)) by (autorewrite with shape; lia).
    rewrite (mmul_assoc (pre_A pre)) by lia. reflexivity. }
  exists (msub z (mmul Aeff corr)). split.
  - rewrite (residual_eq pre _ N)
      by (try assumption; unfold corr; autorewrite with shape; lia).
    rewrite Hr. reflexivity.
  - rewrite (inner_eq self _ _ N)
      by (try assumption; try apply wf_msub; autorewrite with shape; lia).
    f_equal.
    rewrite mmul_msub_r by (unfold corr, Aeff; autorewrite with shape; lia).
    rewrite mmul_msub_r by (unfold corr, Aeff; autorewrite with shape; lia).
    unfold corr.
    rewrite <- (mmul_assoc Aeff (V self) c2)
      by (unfold Aeff; autorewrite with shape; lia).
    rewrite <- (mmul_assoc (weight self N) (mmul Aeff (V self)) c2)
      by (unfold Aeff; autorewrite with shape; lia).
    rewrite <- (mmul_assoc (conjT (U self))
                  (mmul (weight self N) (mmul Aeff (V self))) c2)
      by (unfold Aeff; autorewrite with shape; lia).
    rewrite Hsol. rewrite msub_diag. autorewrite with shape.
    rewrite p_U_cols0, Hzc. reflexivity.
Qed.

End ObliqueClaims.

(** ** The public operations mutate nothing *)

Ltac preserves_step :=
  first [ apply Store.preserves_ret | apply Store.preserves_getattr
        | apply Store.preserves_read
        | apply Store.preserves_new | apply Store.preserves_new2
        | apply Store.preserves_op1 | apply Store.preserves_op2
        | apply Store.preserves_op3 | apply Store.preserves_op1_pair
        | apply Store.preserves_bind; [|intros ?] ].

Ltac holds_tac := first [ eassumption | apply Store.holds_ext; holds_tac ].

Lemma bind_assoc {A B C : Type} (c : result A) (k1 : A -> result B)
    (k2 : B -> result C) :
  bind (bind c k1) k2 = bind c (fun x => bind (k1 x) k2).
Proof. destruct c; reflexivity. Qed.

Lemma bind_Ok {A B : Type} (a : A) (k : A -> result B) : bind (Ok a) k = k a.
Proof. reflexivity. Qed.

Ltac sim_head :=
  lazymatch goal with
  | |- Store.sim _ _ _ (Store.pbind (Store.pbind _ _) _) _ =>
      apply Store.sim_assoc
  | |- Store.sim _ _ _ (Store.pbind (Store.getattr _) _) _ =>
      apply Store.sim_getattr
  | |- Store.sim _ _ _ (Store.pbind (Store.ret _) _) _ =>
      apply Store.sim_ret_bind
  | |- Store.sim _ _ _ (Store.pbind (Store.new (Ok _)) _) _ =>
      apply Store.sim_alloc; intros ? ? ?
  | |- Store.sim _ _ _ (Store.pbind (Store.op1 (fun X => Ok _) _) _) _ =>
      eapply Store.sim_pure1; [holds_tac | intros ? ? ?]
  | |- Store.sim _ _ _ (Store.pbind (Store.op1 _ _) _) (bind _ _) =>
      eapply Store.sim_bind_op1; [holds_tac | reflexivity | intros ? ? ? ?]
  | |- Store.sim _ _ _ (Store.pbind (Store.op2 _ _ _) _) (bind _ _) =>
      eapply Store.sim_bind_op2;
      [holds_tac | holds_tac | reflexivity | intros ? ? ? ?]
  | |- Store.sim _ _ _ (Store.pbind (Store.op3 _ _ _ _) _) (bind _ _) =>
      eapply Store.sim_bind_op3;
      [holds_tac | holds_tac | holds_tac | reflexivity | intros ? ? ? ?]
  | |- Store.sim _ _ _ (Store.pbind (Store.op1_pair _ _) _) (bind _ _) =>
      eapply Store.sim_bind_op1_pair;
      [holds_tac | reflexivity | intros ? ? ? ? ? ? ?]
  | |- Store.sim _ _ _ (Store.pbind (if ?b then _ else _) _) _ =>
      destruct b
  | |- Store.sim _ _ _ (if ?b then _ else _) _ =>
      destruct b
  | |- Store.sim _ _ _ (Store.op2 _ _ _) _ =>
      eapply Store.sim_last_op2; [holds_tac | holds_tac | reflexivity]
  end.

Ltac sim_step simp := cbv beta zeta; simp; rewrite ?bind_assoc, ?bind_Ok; cbv beta zeta; sim_head.

Section PurityClaims.
Context {S : Scalar} {BE : Backend}.
Import Store.

Lemma get_preserves (Wt : ref) (full : bool) :
  preserves (ArnoldifyerObject.get Wt full).
Proof.
  unfold ArnoldifyerObject.get, ArnoldifyerObject.T_conj, ArnoldifyerObject.dot_.
  repeat preserves_step.
  - destruct (0 <? _); repeat preserves_step.
  - match goal with p : (ref * ref)%type |- _ => destruct p as [H T] end.
    repeat preserves_step.
    destruct full; repeat preserves_step.
Qed.

Definition stands_for (h : store) (r : ArnoldifyerObject.returned)
    (x : Arnoldifyer.returned) : Prop :=
  ArnoldifyerObject.returned_values h (Ok r) = Ok x.

Lemma get_sim (o : ArnoldifyerObject.t) (Wt : ref) (full : bool) (h : store) :
  ArnoldifyerObject.valid o h -> Wt < length h ->
  sim stands_for o h (ArnoldifyerObject.get Wt full)
    (fst (Arnoldifyer.get (value h Wt) full (ArnoldifyerObject.instance o h))).
Proof.
  intros Hv HWt. unfold ArnoldifyerObject.valid in Hv.
  destruct o. cbn [ArnoldifyerObject.V ArnoldifyerObject.U ArnoldifyerObject.AU
    ArnoldifyerObject.H ArnoldifyerObject.B_ ArnoldifyerObject.C
    ArnoldifyerObject.E ArnoldifyerObject.U_v ArnoldifyerObject.L
    ArnoldifyerObject.J ArnoldifyerObject.M ArnoldifyerObject.N
    ArnoldifyerObject.Z] in Hv.
  repeat match goal with
  | H : Forall _ (_ :: _) |- _ => inversion_clear H
  | H : Forall _ [] |- _ => clear H
  end.
  repeat match goal with
  | H : ?r < length h |- _ => apply holds_valid in H
  end.
  unfold ArnoldifyerObject.get, ArnoldifyerObject.T_conj, ArnoldifyerObject.dot_.
  unfold Arnoldifyer.get, call. cbn [fst].
  unfold Arnoldifyer.get_locals, Arnoldifyer.get_PtE_of,
    Arnoldifyer.get_Pt_of, Arnoldifyer.get_qt_of, House_apply,
    Arnoldifyer.get_return, ArnoldifyerObject.instance.
  cbn [ArnoldifyerObject.n ArnoldifyerObject.d ArnoldifyerObject.invariant
    ArnoldifyerObject.V ArnoldifyerObject.U ArnoldifyerObject.AU
    ArnoldifyerObject.H ArnoldifyerObject.B_ ArnoldifyerObject.C
    ArnoldifyerObject.E ArnoldifyerObject.U_v ArnoldifyerObject.L
    ArnoldifyerObject.J ArnoldifyerObject.M ArnoldifyerObject.N
    ArnoldifyerObject.Z ArnoldifyerObject.Pv_norm ArnoldifyerObject.A_norm
    Arnoldifyer.n Arnoldifyer.d Arnoldifyer.M
    Arnoldifyer.J Arnoldifyer.L Arnoldifyer.E Arnoldifyer.U_v Arnoldifyer.Pv_norm
    Arnoldifyer.N Arnoldifyer.V Arnoldifyer.U Arnoldifyer.Z].
  repeat sim_step ltac:(cbn [ArnoldifyerObject.n ArnoldifyerObject.d
    ArnoldifyerObject.invariant
    ArnoldifyerObject.V ArnoldifyerObject.U ArnoldifyerObject.AU
    ArnoldifyerObject.H ArnoldifyerObject.B_ ArnoldifyerObject.C
    ArnoldifyerObject.E ArnoldifyerObject.U_v ArnoldifyerObject.L
    ArnoldifyerObject.J ArnoldifyerObject.M ArnoldifyerObject.N
    ArnoldifyerObject.Z ArnoldifyerObject.Pv_norm ArnoldifyerObject.A_norm
    Arnoldifyer.get_H Arnoldifyer.get_R Arnoldifyer.get_QT]).
  all: apply sim_ret; unfold stands_for;
    cbn [ArnoldifyerObject.returned_values Arnoldifyer.get_H Arnoldifyer.get_R];
    repeat match goal with
    | |- context [value ?h0 ?r] => erewrite (holds_value h0 r) by holds_tac
    end;
    reflexivity.
Qed.

Lemma get_x0_preserves : preserves ProjectionObject.get_x0.
Proof.
  unfold ProjectionObject.get_x0, ProjectionObject._correction,
    ProjectionObject.inner, ProjectionObject.T_conj, ProjectionObject.dot_.
  repeat preserves_step.
  - match goal with |- preserves (match ?x with _ => _ end) => destruct x end;
      repeat preserves_step.
  - repeat match goal with
    | |- preserves (match ?x with _ => _ end) => destruct x
    end; repeat preserves_step.
Qed.

Lemma get_x0_sim (o : ProjectionObject.objects) (h : store) :
  ProjectionObject.valid o h ->
  sim holds o h ProjectionObject.get_x0
    (fst (ObliqueProjection.get_x0
            (ProjectionObject.system o.(ProjectionObject.pre) h)
            (ProjectionObject.instance o.(ProjectionObject.self) h))).
Proof.
  intros (Hv & HB & HQ & HR).
  destruct o as [[A U AH_U ip_B V W WR Q R] [pA pMl pMr pb px0]].
  cbn [ProjectionObject.self ProjectionObject.pre ProjectionObject.A
    ProjectionObject.U ProjectionObject.AH_U ProjectionObject.ip_B
    ProjectionObject.V ProjectionObject.W ProjectionObject.WR
    ProjectionObject.Q ProjectionObject.R ProjectionObject.pre_A
    ProjectionObject.pre_Ml ProjectionObject.pre_Mr ProjectionObject.pre_b
    ProjectionObject.pre_x0] in *.
  repeat match goal with
  | H : Forall _ (_ :: _) |- _ => inversion_clear H
  | H : Forall _ [] |- _ => clear H
  end.
  destruct ip_B as [B|], Q as [Q|], R as [R|];
    cbn [ProjectionObject.valid_option] in *.
  all: repeat match goal with
  | H : ?r < length ?h0 |- _ => apply holds_valid in H
  end.
  all: unfold ProjectionObject.get_x0, ProjectionObject._correction,
    ProjectionObject.inner, ProjectionObject.T_conj, ProjectionObject.dot_.
  all: unfold ObliqueProjection.get_x0, call; cbn [fst].
  all: unfold ObliqueProjection.get_x0_body, ObliqueProjection.residual,
    ObliqueProjection._correction, ObliqueProjection._correction_locals,
    ObliqueProjection.inner, ProjectionObject.instance, ProjectionObject.system.
  all: cbn [option_map ProjectionObject.self ProjectionObject.pre ProjectionObject.A
    ProjectionObject.U ProjectionObject.AH_U ProjectionObject.ip_B
    ProjectionObject.V ProjectionObject.W ProjectionObject.WR
    ProjectionObject.Q ProjectionObject.R ProjectionObject.pre_A
    ProjectionObject.pre_Ml ProjectionObject.pre_Mr ProjectionObject.pre_b
    ProjectionObject.pre_x0
    ObliqueProjection.A ObliqueProjection.U ObliqueProjection.ip_B
    ObliqueProjection.V ObliqueProjection.WR ObliqueProjection.Q
    ObliqueProjection.R ObliqueProjection.pre_A ObliqueProjection.pre_Ml
    ObliqueProjection.pre_Mr ObliqueProjection.pre_b ObliqueProjection.pre_x0].
  all: repeat sim_step ltac:(cbn [ProjectionObject.self ProjectionObject.pre
    ProjectionObject.A
    ProjectionObject.U ProjectionObject.AH_U ProjectionObject.ip_B
    ProjectionObject.V ProjectionObject.W ProjectionObject.WR
    ProjectionObject.Q ProjectionObject.R ProjectionObject.pre_A
    ProjectionObject.pre_Ml ProjectionObject.pre_Mr ProjectionObject.pre_b
    ProjectionObject.pre_x0 ObliqueProjection.c_R]).
Qed.

Lemma valid_ext (o : ArnoldifyerObject.t) (h ext : store) :
  ArnoldifyerObject.valid o h -> ArnoldifyerObject.valid o (h ++ ext).
Proof.
  unfold ArnoldifyerObject.valid. apply Forall_impl.
  intros r Hr. rewrite length_app. lia.
Qed.

Lemma instance_ext (o : ArnoldifyerObject.t) (h ext : store) :
  ArnoldifyerObject.valid o h ->
  ArnoldifyerObject.instance o (h ++ ext) = ArnoldifyerObject.instance o h.
Proof.
  unfold ArnoldifyerObject.valid, ArnoldifyerObject.instance. intros Hv.
  repeat match goal with
  | H : Forall _ (_ :: _) |- _ => inversion_clear H
  end.
  rewrite !value_app_old by assumption. reflexivity.
Qed.

Lemma valid_option_ext (h ext : store) (r : option ref) :
  ProjectionObject.valid_option h r -> ProjectionObject.valid_option (h ++ ext) r.
Proof. destruct r; simpl; [rewrite length_app; lia | trivial]. Qed.

Lemma projection_valid_ext (o : ProjectionObject.objects) (h ext : store) :
  ProjectionObject.valid o h -> ProjectionObject.valid o (h ++ ext).
Proof.
  intros (Hv & HB & HQ & HR). repeat split; try apply valid_option_ext; try assumption.
  revert Hv. apply Forall_impl. intros r Hr. rewrite length_app. lia.
Qed.

Lemma option_value_ext (h ext : store) (r : option ref) :
  ProjectionObject.valid_option h r ->
  option_map (value (h ++ ext)) r = option_map (value h) r.
Proof.
  destruct r; simpl; intros Hr; [|reflexivity].
  rewrite value_app_old by exact Hr. reflexivity.
Qed.

Lemma projection_instance_ext (o : ProjectionObject.objects) (h ext : store) :
  ProjectionObject.valid o h ->
  ProjectionObject.instance o.(ProjectionObject.self) (h ++ ext)
    = ProjectionObject.instance o.(ProjectionObject.self) h /\
  ProjectionObject.system o.(ProjectionObject.pre) (h ++ ext)
    = ProjectionObject.system o.(ProjectionObject.pre) h.
Proof.
  intros (Hv & HB & HQ & HR).
  unfold ProjectionObject.instance, ProjectionObject.system.
  repeat match goal with
  | H : Forall _ (_ :: _) |- _ => inversion_clear H
  end.
  rewrite !value_app_old by assumption.
  rewrite !option_value_ext by assumption. split; reflexivity.
Qed.

(** C9.  [get] and [get_x0] as programs on objects: run from any store in
    which the attributes and the arguments refer to arrays, whether they
    return or raise, they bind no attribute of the instance (or of the
    record [pre]) to another object, and every array that existed before the
    call - the stored matrices and the inputs among them - holds the values
    it held; what they return, read in the store they leave, is what the
    value model computes from the values of the attributes and of the
    arguments; and the same call repeated on the state the first one left
    returns equal values. *)
Theorem public_operations_mutate_nothing
    (o : ArnoldifyerObject.t) (Wt : ref) (full : bool) (h : store)
    (p : ProjectionObject.objects) (hp : store) :
  ArnoldifyerObject.valid o h -> Wt < length h ->
  ProjectionObject.valid p hp ->
  (let run := ArnoldifyerObject.get Wt full (o, h) in
   let again := ArnoldifyerObject.get Wt full (snd run) in
   fst (snd run) = o /\
   (forall r, r < length h -> value (snd (snd run)) r = value h r) /\
   ArnoldifyerObject.returned_values (snd (snd run)) (fst run)
     = fst (Arnoldifyer.get (value h Wt) full (ArnoldifyerObject.instance o h)) /\
   ArnoldifyerObject.returned_values (snd (snd again)) (fst again)
     = ArnoldifyerObject.returned_values (snd (snd run)) (fst run)) /\
  (let run := ProjectionObject.get_x0 (p, hp) in
   let again := ProjectionObject.get_x0 (snd run) in
   fst (snd run) = p /\
   (forall r, r < length hp -> value (snd (snd run)) r = value hp r) /\
   ProjectionObject.returned_value (snd (snd run)) (fst run)
     = fst (ObliqueProjection.get_x0
              (ProjectionObject.system p.(ProjectionObject.pre) hp)
              (ProjectionObject.instance p.(ProjectionObject.self) hp)) /\
   ProjectionObject.returned_value (snd (snd again)) (fst again)
     = ProjectionObject.returned_value (snd (snd run)) (fst run)).
Proof.
  intros Hv HWt Hp. split; cbv zeta.
  - destruct (get_preserves Wt full o h) as [Ho [ext Hh]].
    assert (Hrun : forall h0, ArnoldifyerObject.valid o h0 -> Wt < length h0 ->
              ArnoldifyerObject.returned_values
                (snd (snd (ArnoldifyerObject.get Wt full (o, h0))))
                (fst (ArnoldifyerObject.get Wt full (o, h0)))
              = fst (Arnoldifyer.get (value h0 Wt) full
                       (ArnoldifyerObject.instance o h0))).
    { intros h0 Hv0 HWt0.
      apply (sim_run stands_for); [intros h' a b Hab; exact Hab | reflexivity|].
      apply get_sim; assumption. }
    split; [exact Ho|]. split.
    { intros r Hr. rewrite Hh. apply value_app_old. exact Hr. }
    split; [apply Hrun; assumption|].
    assert (Hs : snd (ArnoldifyerObject.get Wt full (o, h)) = (o, h ++ ext))
      by (apply injective_projections; assumption).
    rewrite (Hrun h Hv HWt). rewrite Hs.
    etransitivity.
    { apply (Hrun (h ++ ext)); [apply valid_ext; exact Hv|].
      rewrite length_app. lia. }
    rewrite instance_ext by exact Hv.
    rewrite value_app_old by exact HWt. reflexivity.
  - destruct (get_x0_preserves p hp) as [Ho [ext Hh]].
    assert (Hrun : forall h0, ProjectionObject.valid p h0 ->
              ProjectionObject.returned_value
                (snd (snd (ProjectionObject.get_x0 (p, h0))))
                (fst (ProjectionObject.get_x0 (p, h0)))
              = fst (ObliqueProjection.get_x0
                       (ProjectionObject.system p.(ProjectionObject.pre) h0)
                       (ProjectionObject.instance p.(ProjectionObject.self) h0))).
    { intros h0 Hv0.
      apply (sim_run holds).
      - intros h' a b Hab. simpl. f_equal. apply (holds_value _ _ _ Hab).
      - reflexivity.
      - apply get_x0_sim. exact Hv0. }
    split; [exact Ho|]. split.
    { intros r Hr. rewrite Hh. apply value_app_old. exact Hr. }
    split; [apply Hrun; assumption|].
    assert (Hs : snd (ProjectionObject.get_x0 (p, hp)) = (p, hp ++ ext))
      by (apply injective_projections; assumption).
    rewrite (Hrun hp Hp). rewrite Hs.
    etransitivity.
    { apply (Hrun (hp ++ ext)). apply projection_valid_ext. exact Hp. }
    destruct (projection_instance_ext p hp ext Hp) as [-> ->]. reflexivity.
Qed.

End PurityClaims.

(** ** The claims about [get] on the examples *)

Module GetExamples.
Import Exact Examples Arnoldifyer ConstructionExamples.

Lemma exact_householder_no_LinAlgError : raises_no_LinAlgError House.
Proof.
  intros q. unfold House. simpl. unfold exact_householder.
  destruct (negb _); [discriminate|].
  destruct (forallb _ _); [discriminate|].
  destruct (norm2_exact q); discriminate.
Qed.

Lemma exact_hessenberg_no_LinAlgError : raises_no_LinAlgError linalg_hessenberg.
Proof.
  intros X. simpl. unfold exact_hessenberg. destruct (_ && _); discriminate.
Qed.

(** A reduction subspace with [n + d = 2] rows and one column. *)
Definition Wt_d : matrix := Examples.ints 2 1 [[1%Z]; [0%Z]].

Definition loc_d : locals :=
  Eval vm_compute in
    match get_locals self_d Wt_d with
    | Ok loc => loc
    | Raise _ => Locals (zeros 0 0) (zeros 0 0) (zeros 0 0) (zeros 0 0) (zeros 0 0)
                   (zeros 0 0) (zeros 0 0) (zeros 0 0) (zeros 0 0) (zeros 0 0)
    end.

Lemma get_locals_d : get_locals self_d Wt_d = Ok loc_d.
Proof. reflexivity. Qed.

Definition out_d : returned :=
  Eval vm_compute in
    match fst (get Wt_d true self_d) with
    | Ok out => out
    | Raise _ => HR (zeros 0 0) (zeros 0 0)
    end.

Definition Vh_d : matrix :=
  match out_d with HRVhF _ _ Vh _ => Vh | HR _ _ => zeros 0 0 end.
Definition Fh_d : matrix :=
  match out_d with HRVhF _ _ _ Fh => Fh | HR _ _ => zeros 0 0 end.

Lemma get_d :
  fst (get Wt_d true self_d)
  = Ok (HRVhF (returned_H out_d) (returned_R out_d) Vh_d Fh_d).
Proof. reflexivity. Qed.

(** Equality of rationals by evaluation. *)
Ltac qc_eq := apply Qcanon.Qc_is_canon; vm_compute; reflexivity.

Lemma House_contract_d : House_contract loc_d.(get_q).
Proof.
  intros Q0 HQ.
  assert (HQ0 : House loc_d.(get_q) = Ok loc_d.(get_Q)) by (reflexivity).
  rewrite HQ0 in HQ. injection HQ as <-.
  split; [reflexivity|]. split; [reflexivity|].
  split; [reflexivity|]. split; [reflexivity|].
  split; [qc_mat|]. split; [qc_mat|].
  intros i Hi0 Hi. change (nrows (get_q loc_d)) with 2 in Hi.
  assert (i = 1) by lia. subst i. qc_eq.
Qed.

Lemma hessenberg_contract_d : hessenberg_contract (hessenberg_arg self_d loc_d).
Proof.
  intros H0 T0 HH.
  assert (HH0 : linalg_hessenberg (hessenberg_arg self_d loc_d)
                = Ok (loc_d.(get_H), loc_d.(get_T))) by (reflexivity).
  rewrite HH0 in HH. injection HH as <- <-.
  split; [reflexivity|]. split; [reflexivity|].
  split; [reflexivity|]. split; [reflexivity|].
  split; [reflexivity|]. split; [reflexivity|].
  split; [split; [reflexivity | split; qc_mat]|].
  split; [qc_mat|].
  intros i j Hi Hj. change (nrows (hessenberg_arg self_d loc_d)) with 2 in Hi. lia.
Qed.

Lemma reduced_relation_witness :
  __init__ V_d U_d AU_d H_d B_d C_d E_d (z 1) Uv_d = Ok self_d /\
  get_locals self_d Wt_d = Ok loc_d /\
  fst (get Wt_d true self_d)
    = Ok (HRVhF (returned_H out_d) (returned_R out_d) Vh_d Fh_d) /\
  House_contract loc_d.(get_q) /\
  hessenberg_contract (hessenberg_arg self_d loc_d) /\
  nrows Wt_d = ncols H_d + ncols U_d /\
  madd (mmul Vh_d (returned_H out_d)) (mmul self_d.(Z) (returned_R out_d)) =
    mmul (madd (mmul (block12 (cols_upto V_d (ncols H_d)) U_d) self_d.(J))
               (mmul self_d.(Z) self_d.(N)))
         (mmul loc_d.(get_Pt) (mmul self_d.(L) loc_d.(get_QT))).
Proof.
  pose proof (reduced_relation (SL := QcScalarLaws) _ _ _ _ _ _ _ _ _ _ _ _ _ _ _ _
                init_d get_locals_d get_d House_contract_d hessenberg_contract_d) as X.
  cbv zeta in X. destruct X as (H1 & _ & H2 & _).
  split; [exact init_d|]. split; [exact get_locals_d|]. split; [exact get_d|].
  split; [exact House_contract_d|]. split; [exact hessenberg_contract_d|].
  split; [exact H1 | exact H2].
Defined.

(** The inverses of the 1 x 1 matrices [PtE = [3]] and [E = [3]]. *)
Definition third : matrix := of_rows 1 1 [[frac 1 3]].

Lemma solve_contract_PtE_d :
  solve_contract loc_d.(get_PtE) (mmul (conjT Wt_d) self_d.(J)).
Proof.
  unfold solve_contract.
  eval_call (linalg_solve loc_d.(get_PtE) (mmul (conjT Wt_d) self_d.(J))).
  split; [reflexivity|]. split.
  { split; [reflexivity|]. exists third.
    split; [reflexivity|]. split; [reflexivity|].
    split; [reflexivity|]. split; qc_mat. }
  split; [reflexivity|]. split; [reflexivity|].
  split; [reflexivity|]. qc_mat.
Qed.

Lemma solve_contract_E_d_Uv_d : solve_contract E_d Uv_d.
Proof.
  unfold solve_contract. eval_call (linalg_solve E_d Uv_d).
  split; [reflexivity|]. split; [exact invertible_E_d|].
  split; [reflexivity|]. split; [reflexivity|].
  split; [reflexivity|]. qc_mat.
Qed.

Lemma inverse_of_PtE_d : inverse_of loc_d.(get_PtE) third.
Proof.
  split; [reflexivity|]. split; [reflexivity|].
  split; [reflexivity|]. qc_mat.
Qed.

Lemma inverse_of_E_d : inverse_of E_d third.
Proof.
  split; [reflexivity|]. split; [reflexivity|].
  split; [reflexivity|]. qc_mat.
Qed.

Lemma get_computes_stated_formulas_witness :
  __init__ V_d U_d AU_d H_d B_d C_d E_d (z 1) Uv_d = Ok self_d /\
  get_locals self_d Wt_d = Ok loc_d /\
  solve_contract loc_d.(get_PtE) (mmul (conjT Wt_d) self_d.(J)) /\
  inverse_of loc_d.(get_PtE) third /\
  (0 < ncols U_d -> solve_contract E_d Uv_d /\ inverse_of E_d third) /\
  loc_d.(get_PtE) = mmul (conjT Wt_d) (mmul self_d.(M) Wt_d) /\
  loc_d.(get_Pt) = Pt_formula self_d Wt_d third /\
  loc_d.(get_qt) = mmul loc_d.(get_Pt) (seed_formula self_d third) /\
  loc_d.(get_R)
    = mmul self_d.(N) (mmul loc_d.(get_Pt) (mmul self_d.(L) loc_d.(get_QT))) /\
  returned_R out_d = loc_d.(get_R).
Proof.
  assert (HE : 0 < ncols U_d -> solve_contract E_d Uv_d /\ inverse_of E_d third).
  { intros _. split; [exact solve_contract_E_d_Uv_d | exact inverse_of_E_d]. }
  pose proof (get_computes_stated_formulas (SL := QcScalarLaws)
                _ _ _ _ _ _ _ _ _ _ _ _ _ _
                init_d get_locals_d solve_contract_PtE_d inverse_of_PtE_d HE) as X.
  cbv zeta in X.
  destruct X as (H1 & H2 & _ & _ & H3 & _ & _ & _ & _ & H4 & H5).
  split; [exact init_d|]. split; [exact get_locals_d|].
  split; [exact solve_contract_PtE_d|]. split; [exact inverse_of_PtE_d|].
  split; [exact HE|]. split; [exact H1|]. split; [exact H2|].
  split; [exact H3|]. split; [exact H4|].
  exact (proj2 (H5 true _ get_d)).
Defined.

(** The argument of the pivoted QR of the construction and its result. *)
Definition X_d : matrix :=
  Eval vm_compute in
    match projected_AU V_d U_d AU_d B_d E_d with
    | Ok X => X
    | Raise _ => zeros 0 0
    end.

Definition Q_d : matrix := Examples.ints 4 1 [[0%Z]; [0%Z]; [0%Z]; [1%Z]].
Definition R_d : matrix := Examples.ints 1 1 [[3%Z]].

Lemma projected_AU_d : projected_AU V_d U_d AU_d B_d E_d = Ok X_d.
Proof. reflexivity. Qed.

Lemma qr_contract_d :
  forall X, projected_AU V_d U_d AU_d B_d E_d = Ok X -> qr_contract X.
Proof.
  intros X HX. rewrite projected_AU_d in HX. injection HX as <-.
  intros Q0 R0 P0 Hqr.
  assert (Hqr0 : exists Q1 R1, linalg_qr X_d = Ok (Q1, R1, (O :: nil)) /\
                   Q1 = Q_d /\ R1 = R_d).
  { eexists. eexists. split; [reflexivity|]. split; qc_mat. }
  destruct Hqr0 as (Q1 & R1 & Hqr1 & -> & ->).
  rewrite Hqr1 in Hqr. injection Hqr as <- <- <-.
  cbv zeta.
  split; [reflexivity|]. split; [reflexivity|]. split; [reflexivity|].
  split; [reflexivity|]. split; [reflexivity|]. split; [reflexivity|].
  split; [reflexivity|]. split; [qc_mat|]. split.
  - unfold take_cols.
    replace (forallb (fun k => k <? ncols X_d) (O :: nil)) with true by reflexivity.
    apply f_equal. qc_mat.
  - intros i j Hj Hi. change (Nat.min (nrows X_d) (ncols X_d)) with 1 in Hi. lia.
Qed.

Lemma output_shapes_witness :
  0 < ncols U_d /\
  __init__ V_d U_d AU_d H_d B_d C_d E_d (z 1) Uv_d = Ok self_d /\
  (forall X, projected_AU V_d U_d AU_d B_d E_d = Ok X -> qr_contract X) /\
  get_locals self_d Wt_d = Ok loc_d /\
  hessenberg_contract (hessenberg_arg self_d loc_d) /\
  fst (get Wt_d true self_d)
    = Ok (HRVhF (returned_H out_d) (returned_R out_d) Vh_d Fh_d) /\
  exists X Q R P,
    projected_AU V_d U_d AU_d B_d E_d = Ok X /\ linalg_qr X = Ok (Q, R, P) /\
    nrows Wt_d = ncols H_d + ncols U_d /\
    shape (returned_H out_d) = (ncols H_d + ncols U_d, ncols H_d + ncols U_d) /\
    shape (returned_R out_d)
      = (1 + count_gt (diag R) (Fmul F1e_14 self_d.(A_norm)), ncols H_d + ncols U_d) /\
    ncols self_d.(Z) = 1 + count_gt (diag R) (Fmul F1e_14 self_d.(A_norm)).
Proof.
  assert (Hd : 0 < ncols U_d) by (vm_compute; lia).
  destruct (output_shapes _ _ _ _ _ _ _ _ _ _ _ _ _ _
              Hd init_d qr_contract_d get_locals_d hessenberg_contract_d get_d)
    as (X & Q & R & P & HX & Hqr & Hsh).
  cbv zeta in Hsh. destruct Hsh as (_ & H1 & H2 & H3 & H4).
  split; [exact Hd|]. split; [exact init_d|]. split; [exact qr_contract_d|].
  split; [exact get_locals_d|]. split; [exact hessenberg_contract_d|].
  split; [exact get_d|].
  exists X, Q, R, P.
  split; [exact HX|]. split; [exact Hqr|]. split; [exact H1|].
  split; [exact H2|]. split; [exact H3 | exact H4].
Defined.

(** A reduction subspace the compressed operator vanishes on. *)
Definition Wt_0 : matrix := Examples.ints 2 1 [[0%Z]; [0%Z]].

Lemma singular_PtE_0 : singular (mmul (conjT Wt_0) (mmul self_d.(M) Wt_0)).
Proof.
  split; [reflexivity|].
  exists (Examples.ints 1 1 [[1%Z]]).
  split; [reflexivity|]. split; [reflexivity|]. split; [reflexivity|].
  split; [|qc_mat].
  intros H.
  apply (f_equal (fun A : @matrix QcScalar =>
                    Qcanon.Qc_eq_bool (@entry QcScalar A 0 0) (z 0))) in H.
  vm_compute in H. discriminate H.
Qed.

Lemma solve_contract_PtE_0 :
  solve_contract (mmul (conjT Wt_0) (mmul self_d.(M) Wt_0))
                 (mmul (conjT Wt_0) self_d.(J)).
Proof.
  unfold solve_contract.
  eval_call (linalg_solve (mmul (conjT Wt_0) (mmul self_d.(M) Wt_0))
                          (mmul (conjT Wt_0) self_d.(J))).
  right. split; [reflexivity | exact singular_PtE_0].
Qed.


(** The operator of the plain Krylov relation maps [V_n] to [V H]. *)
Lemma krylov_relation_k : mmul A_k (cols_upto V_k 1) = mmul V_k H_k.
Proof. qc_mat. Qed.

(** C1 at a concrete input.  On the plain Krylov relation of
    [A = [[1, 0], [1, 1]]] ([n = 1], [d = 0]): with the identity of
    [n + d + 1 = 2] rows, [get] raises [ValueError] and returns nothing;
    with the identity of [n + d = 1] rows it returns [H = 0], [R = 0] and
    [Vh = e1], for which [A Vh] is not [Vh H + Z R]. *)
Lemma round_trip_fails_for_the_operator :
  mmul A_k (cols_upto V_k 1) = mmul V_k H_k /\
  fst (get (eye 2 2) true self_k) = Raise ValueError /\
  exists Hh Rh Vh Fh,
    fst (get (eye 1 1) true self_k) = Ok (HRVhF Hh Rh Vh Fh) /\
    mmul A_k Vh <> madd (mmul Vh Hh) (mmul self_k.(Z) Rh).
Proof.
  split; [exact krylov_relation_k|]. split; [reflexivity|].
  eexists. eexists. eexists. eexists. split; [reflexivity|].
  intros H.
  apply (f_equal (fun A : @matrix QcScalar =>
                    Qcanon.Qc_eq_bool (@entry QcScalar A 0 0) (z 0))) in H.
  vm_compute in H. discriminate H.
Qed.

End GetExamples.

(** ** The projector claims on an example *)

Module ObliqueExamples.
Import Exact Examples ObliqueProjection ConstructionExamples.
Local Open Scope Z_scope.

(** [N = 2], [d = 1], the Euclidean inner product, no preconditioner:
    [A = [[3, 4], [0, 1]]], [U = e1], so [AH_U = A^H U = (3, 4)] has length 5,
    [W = (3/5, 4/5)], [WR = [5]] and [<W, V> = 3/5 = Q R]. *)
Definition A_p : matrix := ints 2 2 [[3; 4]; [0; 1]].
Definition U_p : matrix := ints 2 1 [[1]; [0]].
Definition AH_U_p : matrix := ints 2 1 [[3]; [4]].
Definition W_p : matrix := of_rows 2 1 [[frac 3 5]; [frac 4 5]].
Definition WR_p : matrix := ints 1 1 [[5]].
Definition Q_p : matrix := ints 1 1 [[1]].
Definition R_p : matrix := of_rows 1 1 [[frac 3 5]].

Definition self_p : t :=
  Build A_p U_p AH_U_p None U_p W_p WR_p (Some Q_p) (Some R_p).

Definition I2 : matrix := ints 2 2 [[1; 0]; [0; 1]].
Definition pre_p : linear_system :=
  LinearSystem A_p I2 I2 (ints 2 1 [[1]; [1]]) (ints 2 1 [[0]; [0]]).

(** The guess [get_x0] returns and the effective residual at it. *)
Definition x_p : matrix := of_rows 2 1 [[frac 1 3]; [z 0]].
Definition r_p : matrix := ints 2 1 [[0]; [1]].

Lemma adjoint_image_p : mmul (conjT A_p) U_p = AH_U_p.
Proof. qc_mat. Qed.

Lemma projector_p :
  projector self_p (mmul pre_p.(pre_Ml) (mmul pre_p.(pre_A) pre_p.(pre_Mr))) 2 1.
Proof.
  constructor; try reflexivity; try (reflexivity); try qc_mat.
  simpl.
  split; [reflexivity|]. split; [reflexivity|]. split; [reflexivity|].
  split; [reflexivity|]. split; [reflexivity|]. split; [reflexivity|].
  split; [qc_mat|]. split; qc_mat.
Qed.

Lemma well_shaped_p : well_shaped pre_p 2.
Proof. constructor; reflexivity. Qed.

Definition z_p : matrix :=
  Eval vm_compute in
    match residual pre_p pre_p.(pre_x0) with
    | Ok r => r
    | Raise _ => zeros 0 0
    end.

Definition loc_p : locals :=
  Eval vm_compute in
    match _correction_locals self_p z_p with
    | Ok loc => loc
    | Raise _ => Locals (zeros 0 0) (zeros 0 0) (zeros 0 0)
    end.

Lemma residual_x0_p : residual pre_p pre_p.(pre_x0) = Ok z_p.
Proof. reflexivity. Qed.

Lemma correction_locals_p : _correction_locals self_p z_p = Ok loc_p.
Proof. reflexivity. Qed.

Lemma Ok_eq {A : Type} (a b : A) : a = b -> Ok a = Ok b.
Proof. intros ->. reflexivity. Qed.

Lemma get_x0_p : fst (get_x0 pre_p self_p) = Ok x_p.
Proof.
  assert (H : exists x, fst (get_x0 pre_p self_p) = Ok x /\ x = x_p).
  { eexists. split; [reflexivity | qc_mat]. }
  destruct H as (x & Hx & <-). exact Hx.
Qed.

Lemma residual_x_p : residual pre_p x_p = Ok r_p.
Proof.
  assert (H : exists r, residual pre_p x_p = Ok r /\ r = r_p).
  { eexists. split; [reflexivity | qc_mat]. }
  destruct H as (r & Hr & <-). exact Hr.
Qed.

Lemma triangular_contract_WR_p :
  triangular_contract (conjT self_p.(WR)) loc_p.(c_inner) true.
Proof.
  intros X HX.
  assert (H0 : solve_triangular (conjT self_p.(WR)) loc_p.(c_inner) true
               = Ok loc_p.(c_WR)) by (reflexivity).
  rewrite H0 in HX. injection HX as <-.
  split; [reflexivity|]. split; [reflexivity|].
  split; [reflexivity|]. split; [reflexivity|].
  split; [reflexivity|]. qc_mat.
Qed.

Lemma triangular_contract_R_p :
  forall Q0 R0, self_p.(Q) = Some Q0 -> self_p.(R) = Some R0 ->
    triangular_contract R0 (mmul (conjT Q0) loc_p.(c_WR)) false.
Proof.
  intros Q0 R0 HQ HR. injection HQ as <-. injection HR as <-.
  intros X HX.
  assert (H0 : solve_triangular R_p (mmul (conjT Q_p) loc_p.(c_WR)) false
               = Ok loc_p.(c_R)) by (reflexivity).
  rewrite H0 in HX. injection HX as <-.
  split; [reflexivity|]. split; [reflexivity|].
  split; [reflexivity|]. split; [reflexivity|].
  split; [reflexivity|]. qc_mat.
Qed.

Lemma corrected_residual_orthogonal_to_U_witness :
  projector self_p (mmul pre_p.(pre_Ml) (mmul pre_p.(pre_A) pre_p.(pre_Mr))) 2 1 /\
  well_shaped pre_p 2 /\
  residual pre_p pre_p.(pre_x0) = Ok z_p /\
  _correction_locals self_p z_p = Ok loc_p /\
  triangular_contract (conjT self_p.(WR)) loc_p.(c_inner) true /\
  (forall Q0 R0, self_p.(Q) = Some Q0 -> self_p.(R) = Some R0 ->
     triangular_contract R0 (mmul (conjT Q0) loc_p.(c_WR)) false) /\
  fst (get_x0 pre_p self_p) = Ok x_p /\
  exists r, residual pre_p x_p = Ok r /\
            inner self_p.(U) r self_p.(ip_B) = Ok (zeros 1 1).
Proof.
  pose proof (corrected_residual_orthogonal_to_U (SL := QcScalarLaws)
                self_p pre_p 2 1 z_p loc_p x_p
                projector_p well_shaped_p residual_x0_p correction_locals_p
                triangular_contract_WR_p triangular_contract_R_p get_x0_p) as X.
  split; [exact projector_p|]. split; [exact well_shaped_p|].
  split; [exact residual_x0_p|]. split; [exact correction_locals_p|].
  split; [exact triangular_contract_WR_p|].
  split; [exact triangular_contract_R_p|]. split; [exact get_x0_p | exact X].
Defined.

(** C2 at a concrete input.  [AH_U] is the adjoint image of [U]; the
    corrected guess is [(1/3, 0)] and the effective residual at it is
    [(0, 1)], whose inner product with the column of [AH_U] is 4. *)
Lemma residual_not_orthogonal_to_AH_U :
  mmul (conjT A_p) U_p = AH_U_p /\
  projector self_p (mmul pre_p.(pre_Ml) (mmul pre_p.(pre_A) pre_p.(pre_Mr))) 2 1 /\
  fst (get_x0 pre_p self_p) = Ok x_p /\
  residual pre_p x_p = Ok r_p /\
  inner self_p.(AH_U) r_p self_p.(ip_B) = Ok (ints 1 1 [[4]]) /\
  ints 1 1 [[4]] <> zeros 1 1.
Proof.
  split; [exact adjoint_image_p|]. split; [exact projector_p|].
  split; [exact get_x0_p|]. split; [exact residual_x_p|]. split.
  - unfold inner. simpl. unfold dot.
    replace (ncols (conjT AH_U_p) =? nrows r_p)%nat with true by reflexivity.
    apply Ok_eq. qc_mat.
  - intros H.
    apply (f_equal (fun A : @matrix QcScalar =>
                      Qcanon.Qc_eq_bool (@entry QcScalar A 0 0) (z 0))) in H.
    vm_compute in H. discriminate H.
Qed.

End ObliqueExamples.

(** ** The objects of the examples *)

Module PurityExamples.
Import Exact Examples ConstructionExamples GetExamples ObliqueExamples Store.

(** The deflated instance as an object, and the argument of the call. *)
Definition h_d : store :=
  [V_d; U_d; AU_d; H_d; B_d; C_d; E_d; Uv_d;
   self_d.(Arnoldifyer.L); self_d.(Arnoldifyer.J); self_d.(Arnoldifyer.M);
   self_d.(Arnoldifyer.N); self_d.(Arnoldifyer.Z); Wt_d].

Definition o_d : ArnoldifyerObject.t :=
  ArnoldifyerObject.Build 1 false 1 0 1 2 3 4 5 6 (z 1) 7 8 9 10
    self_d.(Arnoldifyer.A_norm) 11 12.

(** The projector as an object; [V] is the array [U], and the two
    preconditioners are one identity. *)
Definition h_p : store :=
  [A_p; U_p; AH_U_p; W_p; WR_p; Q_p; R_p; I2;
   ints 2 1 [[1%Z]; [1%Z]]; ints 2 1 [[0%Z]; [0%Z]]].

Definition o_p : ProjectionObject.objects :=
  ProjectionObject.Objects
    (ProjectionObject.Build 0 1 2 None 1 3 4 (Some 5) (Some 6))
    (ProjectionObject.LinearSystem 0 7 7 8 9).

Lemma public_operations_mutate_nothing_witness :
  ArnoldifyerObject.valid o_d h_d /\ 13 < length h_d /\
  ProjectionObject.valid o_p h_p /\
  (fst (snd (ArnoldifyerObject.get 13 true (o_d, h_d))) = o_d /\
   (forall r, r < length h_d ->
      value (snd (snd (ArnoldifyerObject.get 13 true (o_d, h_d)))) r = value h_d r) /\
   ArnoldifyerObject.returned_values
     (snd (snd (ArnoldifyerObject.get 13 true (o_d, h_d))))
     (fst (ArnoldifyerObject.get 13 true (o_d, h_d)))
   = fst (Arnoldifyer.get Wt_d true self_d)) /\
  (fst (snd (ProjectionObject.get_x0 (o_p, h_p))) = o_p /\
   (forall r, r < length h_p ->
      value (snd (snd (ProjectionObject.get_x0 (o_p, h_p)))) r = value h_p r) /\
   ProjectionObject.returned_value
     (snd (snd (ProjectionObject.get_x0 (o_p, h_p))))
     (fst (ProjectionObject.get_x0 (o_p, h_p)))
   = fst (ObliqueProjection.get_x0 pre_p self_p)).
Proof.
  assert (Hd : ArnoldifyerObject.valid o_d h_d).
  { unfold ArnoldifyerObject.valid. simpl. repeat constructor; lia. }
  assert (HWt : 13 < length h_d) by (simpl; lia).
  assert (Hp : ProjectionObject.valid o_p h_p).
  { unfold ProjectionObject.valid. simpl.
    split; [repeat constructor; lia | repeat split; lia]. }
  destruct (public_operations_mutate_nothing o_d 13 true h_d o_p h_p Hd HWt Hp)
    as [(H1 & H2 & H3 & _) (H4 & H5 & H6 & _)].
  split; [exact Hd|]. split; [exact HWt|]. split; [exact Hp|].
  split.
  - split; [exact H1|]. split; [exact H2 | exact H3].
  - split; [exact H4|]. split; [exact H5 | exact H6].
Defined.

End PurityExamples.

(** * Further properties of the code *)

(** ** More algebra *)

Section MoreAlgebra.
Context {S : Scalar} {SL : ScalarLaws S}.

Add Ring Fring_more : F_ring.

Lemma sumn_split a b f :
  sumn (a + b) f = Fadd (sumn a f) (sumn b (fun k => f (a + k))).
Proof.
  induction b as [|b IH].
  - rewrite Nat.add_0_r. simpl. ring.
  - rewrite Nat.add_succ_r. simpl. rewrite IH. ring.
Qed.

Lemma mmul_zeros_l A r c :
  nrows A = c -> mmul (zeros r c) A = zeros r (ncols A).
Proof.
  intros HA. apply matrix_ext; auto with wf.
  rewrite nrows_mmul, ncols_mmul, nrows_zeros. intros i j Hi Hj.
  rewrite entry_mmul by (autorewrite with shape; lia).
  rewrite entry_zeros by lia. rewrite ncols_zeros.
  rewrite (sumn_ext _ _ (fun _ => Fzero)).
  - apply sumn_zero.
  - intros k Hk. rewrite entry_zeros by lia. ring.
Qed.

Lemma mmul_msub_l A B C :
  nrows A = nrows B -> ncols A = ncols B ->
  mmul (msub A B) C = msub (mmul A C) (mmul B C).
Proof.
  intros Hr Hc. apply matrix_ext; auto using wf_mmul, wf_msub.
  rewrite nrows_mmul, ncols_mmul, nrows_msub. intros i j Hi Hj.
  rewrite entry_msub, !entry_mmul
    by (rewrite ?nrows_msub, ?nrows_mmul, ?ncols_mmul; lia).
  rewrite ncols_msub, <- Hc, <- sumn_sub.
  apply sumn_ext. intros k Hk. rewrite entry_msub by lia. ring.
Qed.

Lemma msub_zeros_r A r c :
  wf A -> nrows A = r -> ncols A = c -> msub A (zeros r c) = A.
Proof.
  intros Hw Hr Hc. apply matrix_ext; auto using wf_msub.
  rewrite nrows_msub, ncols_msub. intros i j Hi Hj.
  rewrite entry_msub, entry_zeros by lia. ring.
Qed.

Lemma madd_zeros_r A r c :
  wf A -> nrows A = r -> ncols A = c -> madd A (zeros r c) = A.
Proof.
  intros Hw Hr Hc. apply matrix_ext; auto using wf_madd.
  rewrite nrows_madd, ncols_madd. intros i j Hi Hj.
  rewrite entry_madd, entry_zeros by lia. ring.
Qed.

Lemma madd_comm A B :
  nrows A = nrows B -> ncols A = ncols B -> madd A B = madd B A.
Proof.
  intros Hr Hc. apply matrix_ext; auto using wf_madd.
  rewrite nrows_madd, ncols_madd. intros i j Hi Hj.
  rewrite !entry_madd by lia. ring.
Qed.

Lemma conjT_madd A B :
  nrows A = nrows B -> ncols A = ncols B ->
  conjT (madd A B) = madd (conjT A) (conjT B).
Proof.
  intros Hr Hc. apply matrix_ext; auto using wf_madd, wf_conjT.
  rewrite nrows_conjT, ncols_conjT, nrows_madd, ncols_madd. intros i j Hi Hj.
  rewrite entry_conjT by (autorewrite with shape; lia).
  rewrite !entry_madd by (autorewrite with shape; lia).
  rewrite !entry_conjT by lia. apply Fconj_add.
Qed.

Lemma conjT_eye n : conjT (eye n n) = eye n n.
Proof.
  apply matrix_ext; auto with wf.
  rewrite nrows_conjT, ncols_conjT, nrows_eye, ncols_eye. intros i j Hi Hj.
  rewrite entry_conjT by (autorewrite with shape; lia).
  rewrite !entry_eye by lia. rewrite (Nat.eqb_sym j i).
  destruct (i =? j); [apply Fconj_one | apply Fconj_zero].
Qed.

Lemma entry_block12_l (A B : matrix) i j :
  i < nrows A -> j < ncols A -> entry (block12 A B) i j = entry A i j.
Proof.
  intros Hi Hj. unfold block12. rewrite entry_tabulate by lia.
  replace (j <? ncols A) with true by (symmetry; apply Nat.ltb_lt; lia).
  reflexivity.
Qed.

Lemma entry_block12_r (A B : matrix) i j :
  i < nrows A -> j < ncols B ->
  entry (block12 A B) i (ncols A + j) = entry B i j.
Proof.
  intros Hi Hj. unfold block12. rewrite entry_tabulate by lia.
  replace (ncols A + j <? ncols A) with false by (symmetry; apply Nat.ltb_ge; lia).
  f_equal. lia.
Qed.

Lemma entry_block21_t (A B : matrix) i j :
  i < nrows A -> j < ncols A -> entry (block21 A B) i j = entry A i j.
Proof.
  intros Hi Hj. unfold block21. rewrite entry_tabulate by lia.
  replace (i <? nrows A) with true by (symmetry; apply Nat.ltb_lt; lia).
  reflexivity.
Qed.

Lemma entry_block21_b (A B : matrix) i j :
  i < nrows B -> j < ncols A ->
  entry (block21 A B) (nrows A + i) j = entry B i j.
Proof.
  intros Hi Hj. unfold block21. rewrite entry_tabulate by lia.
  replace (nrows A + i <? nrows A) with false by (symmetry; apply Nat.ltb_ge; lia).
  f_equal. lia.
Qed.

End MoreAlgebra.

(** ** The assembled blocks *)

Section BlockRelation.
Context {S : Scalar} {SL : ScalarLaws S} {BE : Backend}.
Import Arnoldifyer.

Add Ring Fring_blocks : F_ring.

Lemma entry_block22 (A B C D : matrix) i j :
  i < nrows A + nrows C -> j < ncols A + ncols B ->
  ncols A + ncols B = ncols C + ncols D ->
  entry (block22 A B C D) i j =
  if i <? nrows A
  then (if j <? ncols A then entry A i j else entry B i (j - ncols A))
  else (if j <? ncols C then entry C (i - nrows A) j
        else entry D (i - nrows A) (j - ncols C)).
Proof.
  intros Hi Hj Hc. unfold block22, block21.
  rewrite entry_tabulate by (simpl; lia). simpl.
  destruct (Nat.ltb_spec i (nrows A)).
  - unfold block12. rewrite entry_tabulate by lia. reflexivity.
  - unfold block12. rewrite entry_tabulate by lia. reflexivity.
Qed.

(** [J L = M] for the closed forms of lines 85-92. *)
Lemma J_of_L_of (H B_ C E EinvC : matrix) (n d : nat) :
  nrows H = n + 1 -> ncols H = n -> n <= nrows B_ -> ncols B_ = d ->
  nrows E = d -> ncols E = d -> nrows C = d -> ncols C = n ->
  nrows EinvC = d -> ncols EinvC = n ->
  mmul E EinvC = canonical C ->
  mmul (J_of B_ E n d) (L_of H EinvC n d) = M_of H B_ C E EinvC n.
Proof.
  intros HHr HHc HBr HBc HEr HEc HCr HCc HXr HXc HEX.
  unfold J_of, L_of, M_of.
  apply matrix_ext; auto with wf; [shape .. |].
  rewrite nrows_mmul, ncols_mmul. autorewrite with shape.
  intros i j Hi Hj.
  rewrite entry_mmul by (autorewrite with shape; lia).
  autorewrite with shape.
  rewrite sumn_split.
  rewrite (entry_block22 (madd _ _)) by (autorewrite with shape; lia).
  autorewrite with shape. rewrite ?HBc.
  replace (Nat.min n (nrows H)) with n by lia.
  replace (Nat.min n (ncols H)) with n by lia.
  destruct (Nat.ltb_spec i n) as [Hin|Hin]; destruct (Nat.ltb_spec j n) as [Hjn|Hjn].
  - (* upper left: H[:n,:n] + B_[:n,:] EinvC *)
    rewrite entry_madd by (autorewrite with shape; lia).
    rewrite entry_mmul by (autorewrite with shape; lia).
    autorewrite with shape. rewrite ?HBc.
    f_equal.
    + rewrite (sumn_ext _ _ (fun k => Fmul (if i =? k then Fone else Fzero) (entry H k j))).
      * rewrite sumn_delta_l by lia. unfold block_upto.
        rewrite entry_tabulate by lia. reflexivity.
      * intros k Hk. rewrite !entry_block22 by (autorewrite with shape; lia).
        autorewrite with shape.
        replace (i <? n) with true by (symmetry; apply Nat.ltb_lt; lia).
        replace (k <? n + 1) with true by (symmetry; apply Nat.ltb_lt; lia).
        replace (k <? nrows H) with true by (symmetry; apply Nat.ltb_lt; lia).
        replace (j <? ncols H) with true by (symmetry; apply Nat.ltb_lt; lia).
        rewrite entry_eye by lia. reflexivity.
    + apply sumn_ext. intros k Hk.
      rewrite !entry_block22 by (autorewrite with shape; lia).
      autorewrite with shape.
      replace (i <? n) with true by (symmetry; apply Nat.ltb_lt; lia).
      replace (n + 1 + k <? n + 1) with false by (symmetry; apply Nat.ltb_ge; lia).
      replace (n + 1 + k <? nrows H) with false by (symmetry; apply Nat.ltb_ge; lia).
      replace (j <? ncols EinvC) with true by (symmetry; apply Nat.ltb_lt; lia).
      replace (n + 1 + k - (n + 1)) with k by lia.
      replace (n + 1 + k - nrows H) with k by lia.
      reflexivity.
  - (* upper right: B_[:n,:] *)
    rewrite (sumn_ext (n + 1) _ (fun _ => Fzero)).
    2:{ intros k Hk. rewrite !entry_block22 by (autorewrite with shape; lia).
        autorewrite with shape.
        replace (k <? nrows H) with true by (symmetry; apply Nat.ltb_lt; lia).
        replace (j <? ncols H) with false by (symmetry; apply Nat.ltb_ge; lia).
        rewrite (entry_zeros (n + 1) d) by lia. ring. }
    rewrite sumn_zero.
    rewrite (sumn_ext d _ (fun k => Fmul (entry (rows_upto B_ n) i k)
                                       (if k =? j - n then Fone else Fzero))).
    2:{ intros k Hk. rewrite !entry_block22 by (autorewrite with shape; lia).
        autorewrite with shape.
        replace (i <? n) with true by (symmetry; apply Nat.ltb_lt; lia).
        replace (n + 1 + k <? n + 1) with false by (symmetry; apply Nat.ltb_ge; lia).
        replace (n + 1 + k <? nrows H) with false by (symmetry; apply Nat.ltb_ge; lia).
        replace (j <? ncols EinvC) with false by (symmetry; apply Nat.ltb_ge; lia).
        replace (n + 1 + k - (n + 1)) with k by lia.
        replace (n + 1 + k - nrows H) with k by lia.
        rewrite entry_eye by lia. rewrite HXc. reflexivity. }
    rewrite sumn_delta_r by lia. ring.
  - (* lower left: E EinvC = C *)
    rewrite (sumn_ext (n + 1) _ (fun _ => Fzero)).
    2:{ intros k Hk. rewrite !entry_block22 by (autorewrite with shape; lia).
        autorewrite with shape.
        replace (i <? n) with false by (symmetry; apply Nat.ltb_ge; lia).
        replace (k <? n + 1) with true by (symmetry; apply Nat.ltb_lt; lia).
        rewrite (entry_zeros d (n + 1)) by lia. ring. }
    rewrite sumn_zero.
    replace (j <? ncols C) with true by (symmetry; apply Nat.ltb_lt; lia).
    assert (HC : entry C (i - n) j = entry (mmul E EinvC) (i - n) j).
    { rewrite HEX. unfold canonical. rewrite entry_tabulate by lia. reflexivity. }
    rewrite HC, entry_mmul by lia. rewrite HEc.
    rewrite (sumn_ext d _ (fun k => Fmul (entry E (i - n) k) (entry EinvC k j))).
    { ring. }
    intros k Hk. rewrite !entry_block22 by (autorewrite with shape; lia).
    autorewrite with shape.
    replace (i <? n) with false by (symmetry; apply Nat.ltb_ge; lia).
    replace (n + 1 + k <? n + 1) with false by (symmetry; apply Nat.ltb_ge; lia).
    replace (n + 1 + k <? nrows H) with false by (symmetry; apply Nat.ltb_ge; lia).
    replace (j <? ncols EinvC) with true by (symmetry; apply Nat.ltb_lt; lia).
    replace (n + 1 + k - (n + 1)) with k by lia.
    replace (n + 1 + k - nrows H) with k by lia.
    reflexivity.
  - (* lower right: E *)
    rewrite (sumn_ext (n + 1) _ (fun _ => Fzero)).
    2:{ intros k Hk. rewrite !entry_block22 by (autorewrite with shape; lia).
        autorewrite with shape.
        replace (i <? n) with false by (symmetry; apply Nat.ltb_ge; lia).
        replace (k <? n + 1) with true by (symmetry; apply Nat.ltb_lt; lia).
        rewrite (entry_zeros d (n + 1)) by lia. ring. }
    rewrite sumn_zero.
    replace (j <? ncols C) with false by (symmetry; apply Nat.ltb_ge; lia).
    rewrite (sumn_ext d _ (fun k => Fmul (entry E (i - n) k)
                                       (if k =? j - n then Fone else Fzero))).
    2:{ intros k Hk. rewrite !entry_block22 by (autorewrite with shape; lia).
        autorewrite with shape.
        replace (i <? n) with false by (symmetry; apply Nat.ltb_ge; lia).
        replace (n + 1 + k <? n + 1) with false by (symmetry; apply Nat.ltb_ge; lia).
        replace (n + 1 + k <? nrows H) with false by (symmetry; apply Nat.ltb_ge; lia).
        replace (j <? ncols EinvC) with false by (symmetry; apply Nat.ltb_ge; lia).
        replace (n + 1 + k - (n + 1)) with k by lia.
        replace (n + 1 + k - nrows H) with k by lia.
        rewrite entry_eye by lia. rewrite HXc. reflexivity. }
    rewrite sumn_delta_r by lia. rewrite HCc. ring.
Qed.

End BlockRelation.

(** ** Properties of the construction *)

Section ConstructionProperties.
Context {S : Scalar} {SL : ScalarLaws S} {BE : Backend}.
Import Arnoldifyer.

(** What [__init__] stores, from the closed forms of [constructed]. *)
Lemma init_stored V U AU H B_ C E Pv_norm U_v self EinvC Q1 :
  constructed V U AU H B_ C E Pv_norm U_v self EinvC Q1 ->
  self.(n) = ncols H /\ self.(d) = ncols U /\ self.(invariant) = false /\
  self.(Arnoldifyer.V) = V /\ self.(Arnoldifyer.U) = U /\
  self.(Arnoldifyer.AU) = AU /\ self.(Arnoldifyer.H) = H /\
  self.(Arnoldifyer.B_) = B_ /\ self.(Arnoldifyer.C) = C /\
  self.(Arnoldifyer.E) = E /\ self.(Arnoldifyer.Pv_norm) = Pv_norm /\
  self.(Arnoldifyer.U_v) = U_v /\
  self.(L) = L_of H EinvC (ncols H) (ncols U) /\
  self.(J) = J_of B_ E (ncols H) (ncols U) /\
  self.(M) = M_of H B_ C E EinvC (ncols H).
Proof.
  intros Hc. destruct Hc. rewrite c_self0. simpl.
  repeat (split; [reflexivity|]). reflexivity.
Qed.

(** The solution [EinvC] of line 84 satisfies [E EinvC = C]. *)
Lemma init_EinvC_solves (C E EinvC : matrix) (n d : nat) :
  (0 < d -> solve_contract E C) ->
  nrows E = d -> nrows C = d -> ncols C = n ->
  init_EinvC C E n d = Ok EinvC ->
  mmul E EinvC = canonical C.
Proof.
  intros Hs HEr HCr HCc. unfold init_EinvC.
  destruct (Nat.ltb_spec 0 d) as [Hd|Hd]; intros H0.
  - specialize (Hs Hd). unfold solve_contract in Hs. rewrite H0 in Hs.
    destruct Hs as (_ & _ & _ & _ & _ & Hs). exact Hs.
  - injection H0 as <-. unfold canonical. unfold mmul at 1.
    rewrite ncols_zeros, HEr, HCr, HCc.
    replace d with 0 by lia. reflexivity.
Qed.

(** X1.  What the constructor demands of its arguments: when [__init__]
    returns, [H] is [(n+1) x n], [B_] has at least [n] rows and [d] columns,
    [C] is [d x n], [E] is [d x d] and [V] has a column, with [n] the number
    of columns of [H] and [d] that of [U]; the instance stores the arguments
    as given, [n], [d], and [invariant = False]. *)
Theorem construction_requirements
    (V U AU H B_ C E : matrix) (Pv_norm : F) (U_v : matrix) (self : t) :
  __init__ V U AU H B_ C E Pv_norm U_v = Ok self ->
  let n0 := ncols H in
  let d0 := ncols U in
  shape H = (n0 + 1, n0) /\
  n0 <= nrows B_ /\ ncols B_ = d0 /\
  shape C = (d0, n0) /\ shape E = (d0, d0) /\
  0 < ncols V /\
  self.(n) = n0 /\ self.(d) = d0 /\ self.(invariant) = false /\
  self.(Arnoldifyer.V) = V /\ self.(Arnoldifyer.U) = U /\
  self.(Arnoldifyer.AU) = AU /\ self.(Arnoldifyer.H) = H /\
  self.(Arnoldifyer.B_) = B_ /\ self.(Arnoldifyer.C) = C /\
  self.(Arnoldifyer.E) = E /\ self.(Arnoldifyer.Pv_norm) = Pv_norm /\
  self.(Arnoldifyer.U_v) = U_v.
Proof.
  intros Hinit n0 d0. subst n0 d0.
  destruct (init_inv _ _ _ _ _ _ _ _ _ _ Hinit) as [EinvC [Q1 Hc]].
  pose proof (init_stored _ _ _ _ _ _ _ _ _ _ _ _ Hc)
    as (Hn & Hd & Hi & HV & HU & HAU & HH & HB & HC & HE & HP & HUv & _).
  destruct Hc. unfold shape.
  rewrite c_H_rows0, c_C_rows0, c_C_cols0, c_E_rows0, c_E_cols0.
  split; [reflexivity|]. split; [exact c_B_rows0|]. split; [exact c_B_cols0|].
  split; [reflexivity|]. split; [reflexivity|]. split; [exact c_V_cols0|].
  repeat (split; [assumption|]). assumption.
Qed.

Lemma J_dot_L_core
    (V U AU H B_ C E : matrix) (Pv_norm : F) (U_v : matrix) (self : t) :
  __init__ V U AU H B_ C E Pv_norm U_v = Ok self ->
  (0 < ncols U -> solve_contract E C) ->
  mmul self.(J) self.(L) = self.(M).
Proof.
  intros Hinit Hs.
  destruct (init_inv _ _ _ _ _ _ _ _ _ _ Hinit) as [EinvC [Q1 Hc]].
  pose proof (init_stored _ _ _ _ _ _ _ _ _ _ _ _ Hc)
    as (Hn & Hd & _ & _ & _ & _ & _ & _ & _ & _ & _ & _ & HL & HJ & HM).
  rewrite HL, HJ, HM. destruct Hc.
  apply J_of_L_of; try assumption; try lia.
  apply (init_EinvC_solves C E EinvC (ncols H) (ncols U)); assumption.
Qed.

(** X2.  The stored block matrices satisfy [J L = M]: on an instance
    [__init__] returned, the solve with [E] of line 84 meeting the contract
    of [numpy.linalg.solve] when [d > 0], [self.J.dot(self.L)] returns
    [self.M]. *)
Theorem J_dot_L_is_M
    (V U AU H B_ C E : matrix) (Pv_norm : F) (U_v : matrix) (self : t) :
  __init__ V U AU H B_ C E Pv_norm U_v = Ok self ->
  (0 < ncols U -> solve_contract E C) ->
  dot self.(J) self.(L) = Ok self.(M).
Proof.
  intros Hinit Hs.
  pose proof (init_built _ _ _ _ _ _ _ _ _ _ Hinit) as Hb.
  destruct (init_inv _ _ _ _ _ _ _ _ _ _ Hinit) as [EinvC [Q1 Hc]].
  pose proof (init_stored _ _ _ _ _ _ _ _ _ _ _ _ Hc)
    as (Hn & Hd & _ & _ & _ & _ & _ & _ & _ & _ & _ & _ & HL & HJ & HM).
  rewrite dot_eq by (destruct Hb; lia). f_equal.
  exact (J_dot_L_core _ _ _ _ _ _ _ _ _ _ Hinit Hs).
Qed.

End ConstructionProperties.

(** ** Properties of [get] *)

Section GetProperties.
Context {S : Scalar} {SL : ScalarLaws S} {BE : Backend}.
Import Arnoldifyer.

Lemma mmul_eye_l_at (A : matrix) (r : nat) :
  wf A -> nrows A = r -> mmul (eye r r) A = A.
Proof. intros Hw <-. apply mmul_eye_l. exact Hw. Qed.

Lemma mmul_eye_r_at (A : matrix) (c : nat) :
  wf A -> ncols A = c -> mmul A (eye c c) = A.
Proof. intros Hw <-. apply mmul_eye_r. exact Hw. Qed.

(** The algebra of the oblique projector [Pt = I - L Wt X] of lines 125-126,
    where [X] solves [(Wt^H M Wt) X = Wt^H J] and [M = J L]. *)
Lemma projector_core (L0 J0 M0 Wt Xs Ai : matrix) (p m k : nat) :
  wf L0 -> wf Xs ->
  nrows L0 = m -> ncols L0 = p -> nrows J0 = p -> ncols J0 = m ->
  nrows Wt = p -> ncols Wt = k -> nrows Xs = k -> ncols Xs = m ->
  nrows Ai = k -> ncols Ai = k ->
  mmul J0 L0 = M0 ->
  mmul (mmul (conjT Wt) (mmul M0 Wt)) Xs = mmul (conjT Wt) J0 ->
  mmul Ai (mmul (conjT Wt) (mmul M0 Wt)) = eye k k ->
  let Pt := msub (eye m m) (mmul L0 (mmul Wt Xs)) in
  mmul Pt Pt = Pt /\
  mmul Pt (mmul L0 Wt) = zeros m k /\
  mmul (mmul (conjT Wt) J0) Pt = zeros k m.
Proof.
  intros HwL HwX HLr HLc HJr HJc HWr HWc HXr HXc HAr HAc HJL HPX HAi Pt.
  set (PtE := mmul (conjT Wt) (mmul M0 Wt)) in *.
  set (G := mmul L0 Wt).
  set (WJ := mmul (conjT Wt) J0) in *.
  assert (HGr : nrows G = m) by (unfold G; autorewrite with shape; lia).
  assert (HGc : ncols G = k) by (unfold G; autorewrite with shape; lia).
  assert (HwG : wf G) by apply wf_mmul.
  assert (HWJr : nrows WJ = k) by (unfold WJ; autorewrite with shape; lia).
  assert (HWJc : ncols WJ = m) by (unfold WJ; autorewrite with shape; lia).
  assert (HwWJ : wf WJ) by apply wf_mmul.
  assert (HPr : nrows PtE = k) by (unfold PtE; autorewrite with shape; lia).
  assert (HPc : ncols PtE = k) by (unfold PtE; autorewrite with shape; lia).
  assert (HWJG : mmul WJ G = PtE).
  { unfold WJ, G, PtE.
    rewrite (mmul_assoc (conjT Wt) J0) by (autorewrite with shape; lia).
    rewrite <- (mmul_assoc J0 L0 Wt) by lia. rewrite HJL. reflexivity. }
  assert (HXG : mmul Xs G = eye k k).
  { assert (H1 : mmul PtE (mmul Xs G) = PtE).
    { rewrite <- (mmul_assoc PtE Xs G) by lia. rewrite HPX. exact HWJG. }
    assert (H2 : mmul (eye k k) (mmul Xs G) = mmul Xs G).
    { apply mmul_eye_l_at; [apply wf_mmul | autorewrite with shape; lia]. }
    rewrite <- H2. rewrite <- HAi at 1.
    rewrite (mmul_assoc Ai PtE) by lia. rewrite H1. exact HAi. }
  assert (HLWX : mmul L0 (mmul Wt Xs) = mmul G Xs).
  { unfold G. symmetry. apply mmul_assoc. lia. }
  assert (HPt : Pt = msub (eye m m) (mmul G Xs)).
  { unfold Pt. rewrite HLWX. reflexivity. }
  assert (HXPt : mmul Xs Pt = zeros k m).
  { rewrite HPt.
    rewrite mmul_msub_r by (autorewrite with shape; lia).
    rewrite <- (mmul_assoc Xs G Xs) by lia. rewrite HXG.
    rewrite (mmul_eye_r_at Xs m HwX HXc), (mmul_eye_l_at Xs k HwX HXr).
    rewrite msub_diag, HXr, HXc. reflexivity. }
  assert (HPtr : nrows Pt = m) by (unfold Pt; autorewrite with shape; reflexivity).
  assert (HPtc : ncols Pt = m) by (unfold Pt; autorewrite with shape; reflexivity).
  assert (HwPt : wf Pt) by apply wf_msub.
  split; [|split].
  - rewrite HPt at 1.
    rewrite mmul_msub_l by (autorewrite with shape; lia).
    rewrite (mmul_eye_l_at Pt m HwPt HPtr).
    rewrite (mmul_assoc G Xs Pt) by lia. rewrite HXPt.
    rewrite mmul_zeros_r by lia. rewrite HGr.
    apply msub_zeros_r; assumption.
  - fold G. rewrite HPt.
    rewrite mmul_msub_l by (autorewrite with shape; lia).
    rewrite (mmul_eye_l_at G m HwG HGr).
    rewrite (mmul_assoc G Xs G) by lia. rewrite HXG.
    rewrite (mmul_eye_r_at G k HwG HGc).
    rewrite msub_diag, HGr, HGc. reflexivity.
  - rewrite HPt.
    rewrite mmul_msub_r by (autorewrite with shape; lia).
    rewrite (mmul_eye_r_at WJ m HwWJ HWJc).
    rewrite <- (mmul_assoc WJ G Xs) by lia. rewrite HWJG, HPX.
    rewrite msub_diag, HWJr, HWJc. reflexivity.
Qed.

(** What the solve of line 126 gives under its contract, and [Pt] in closed
    form. *)
Lemma get_Pt_closed self Wt loc Xs :
  built self -> traced self Wt loc Xs ->
  solve_contract loc.(get_PtE) (mmul (conjT Wt) self.(J)) ->
  wf Xs /\ ncols Xs = self.(n) + self.(d) + 1 /\
  mmul loc.(get_PtE) Xs = mmul (conjT Wt) self.(J) /\
  (exists Ai, nrows Ai = ncols Wt /\ ncols Ai = ncols Wt /\
     mmul Ai loc.(get_PtE) = eye (ncols Wt) (ncols Wt)) /\
  loc.(get_Pt) = msub (eye (self.(n) + self.(d) + 1) (self.(n) + self.(d) + 1))
                      (mmul self.(L) (mmul Wt Xs)).
Proof.
  intros Hb Ht Hs. destruct Hb, Ht.
  unfold solve_contract in Hs. rewrite t_solve0 in Hs.
  destruct Hs as (_ & Hinv & HwX & _ & HXc & HPX).
  unfold canonical in HPX. rewrite (wf_mmul _ _ : wf (mmul _ _)) in HPX.
  autorewrite with shape in HXc.
  assert (HPc : ncols (get_PtE loc) = ncols Wt)
    by (rewrite t_PtE0; autorewrite with shape; reflexivity).
  assert (HPr : nrows (get_PtE loc) = ncols Wt)
    by (rewrite t_PtE0; autorewrite with shape; reflexivity).
  split; [exact HwX|]. split; [lia|]. split; [exact HPX|]. split.
  - destruct Hinv as (_ & Ai & _ & HAr & HAc & _ & HAi).
    exists Ai. rewrite <- HPc at 3 4. repeat split; try lia. exact HAi.
  - rewrite sub_same_shape in t_Pt0 by (autorewrite with shape; lia).
    injection t_Pt0 as <-. reflexivity.
Qed.

(** X3.  [get] needs a [Wt] with [n + d] rows: on an instance [__init__]
    returned, a call with a [Wt] of any other number of rows raises
    [ValueError], whatever [full] is. *)
Theorem get_rejects_wrong_row_count
    (V U AU H B_ C E : matrix) (Pv_norm : F) (U_v : matrix) (self : t)
    (Wt : matrix) (full : bool) :
  __init__ V U AU H B_ C E Pv_norm U_v = Ok self ->
  nrows Wt <> ncols H + ncols U ->
  fst (get Wt full self) = Raise ValueError.
Proof.
  intros Hinit HWt.
  pose proof (init_built _ _ _ _ _ _ _ _ _ _ Hinit) as Hb.
  destruct (init_inv _ _ _ _ _ _ _ _ _ _ Hinit) as [EinvC [Q1 Hc]].
  pose proof (init_stored _ _ _ _ _ _ _ _ _ _ _ _ Hc) as (Hn & Hd & _).
  destruct Hb. unfold get, call, get_locals, get_PtE_of, dot. simpl.
  destruct (Nat.eqb_spec (ncols (M self)) (nrows Wt)) as [He|_]; [|reflexivity].
  exfalso. apply HWt. lia.
Qed.

Lemma get_Pt_projector
    (V U AU H B_ C E : matrix) (Pv_norm : F) (U_v : matrix) (self : t)
    (Wt : matrix) (loc : locals) :
  __init__ V U AU H B_ C E Pv_norm U_v = Ok self ->
  (0 < ncols U -> solve_contract E C) ->
  get_locals self Wt = Ok loc ->
  solve_contract loc.(get_PtE) (mmul (conjT Wt) self.(J)) ->
  mmul loc.(get_Pt) loc.(get_Pt) = loc.(get_Pt) /\
  mmul loc.(get_Pt) (mmul self.(L) Wt)
    = zeros (ncols H + ncols U + 1) (ncols Wt) /\
  mmul (mmul (conjT Wt) self.(J)) loc.(get_Pt)
    = zeros (ncols Wt) (ncols H + ncols U + 1).
Proof.
  intros Hinit HsE Hloc HsP.
  pose proof (init_built _ _ _ _ _ _ _ _ _ _ Hinit) as Hb.
  destruct (init_inv _ _ _ _ _ _ _ _ _ _ Hinit) as [EinvC [Q1 Hc]].
  pose proof (init_stored _ _ _ _ _ _ _ _ _ _ _ _ Hc) as (Hn & Hd & _).
  clear Hc.
  pose proof (J_dot_L_core _ _ _ _ _ _ _ _ _ _ Hinit HsE) as HJL.
  destruct (get_locals_inv _ _ _ Hb Hloc) as [Xs Ht].
  destruct (get_Pt_closed _ _ _ _ Hb Ht HsP)
    as (HwX & HXc & HPX & (Ai & HAr & HAc & HAi) & HPt).
  destruct Hb, Ht. rewrite t_PtE0 in HPX, HAi.
  rewrite HPt. rewrite <- Hn, <- Hd.
  apply (projector_core (L self) (J self) (M self) Wt Xs Ai
           (n self + d self) (n self + d self + 1) (ncols Wt));
    try assumption; try lia.
Qed.

(** X4.  The matrix [Pt] of lines 125-126 is an oblique projector: on an
    instance [__init__] returned and a [Wt] on which [get] computes its
    locals, the solves with [E] (line 84) and with [PtE] (line 126) meeting
    the contract of [numpy.linalg.solve], [Pt Pt = Pt], [Pt] annihilates the
    range of [L Wt], and the range of [Pt] is annihilated by [Wt^H J]. *)
Theorem Pt_is_oblique_projector
    (V U AU H B_ C E : matrix) (Pv_norm : F) (U_v : matrix) (self : t)
    (Wt : matrix) (loc : locals) :
  __init__ V U AU H B_ C E Pv_norm U_v = Ok self ->
  (0 < ncols U -> solve_contract E C) ->
  get_locals self Wt = Ok loc ->
  solve_contract loc.(get_PtE) (mmul (conjT Wt) self.(J)) ->
  let m := ncols H + ncols U + 1 in
  let k := ncols Wt in
  mmul loc.(get_Pt) loc.(get_Pt) = loc.(get_Pt) /\
  mmul loc.(get_Pt) (mmul self.(L) Wt) = zeros m k /\
  mmul (mmul (conjT Wt) self.(J)) loc.(get_Pt) = zeros k m.
Proof.
  intros Hinit HsE Hloc HsP m k.
  exact (get_Pt_projector _ _ _ _ _ _ _ _ _ _ _ _ Hinit HsE Hloc HsP).
Qed.

(** X5.  The matrix [F] that [get(Wt, full=True)] returns is Hermitian,
    and square of the size of the rows of [V]. *)
Theorem returned_F_is_Hermitian
    (V U AU H B_ C E : matrix) (Pv_norm : F) (U_v : matrix) (self : t)
    (Wt Hh Rh Vh Fh : matrix) :
  __init__ V U AU H B_ C E Pv_norm U_v = Ok self ->
  fst (get Wt true self) = Ok (HRVhF Hh Rh Vh Fh) ->
  conjT Fh = Fh /\ shape Fh = (nrows V, nrows V).
Proof.
  intros Hinit Hget.
  pose proof (init_built _ _ _ _ _ _ _ _ _ _ Hinit) as Hb.
  destruct (init_inv _ _ _ _ _ _ _ _ _ _ Hinit) as [EinvC [Q1 Hc]].
  pose proof (init_stored _ _ _ _ _ _ _ _ _ _ _ _ Hc) as (_ & _ & _ & HV & _).
  clear Hc.
  destruct (get_Ok_inv _ _ _ _ Hget) as (loc & _ & Hret).
  unfold get_return in Hret.
  inv_bind Hret. rename a into VU, Ha into HVU.
  rewrite c__eq in HVU. rewrite nrows_cols_upto in HVU.
  destruct (Nat.eqb_spec (nrows (Arnoldifyer.V self)) (nrows (Arnoldifyer.U self)))
    as [Hr|]; [|discriminate].
  injection HVU as <-.
  inv_bind Hret. rename a into Vh', Ha into HVh.
  apply dot_Ok in HVh. destruct HVh as [_ ->].
  inv_bind Hret. rename a into RVh, Ha into HRVh.
  apply dot_Ok in HRVh. destruct HRVh as [_ ->].
  inv_bind Hret. rename a into ZRVh, Ha into HZRVh.
  apply dot_Ok in HZRVh. destruct HZRVh as [_ ->].
  inv_bind Hret. rename a into F1, Ha into HF1.
  injection Hret as _ _ _ <-.
  destruct Hb. rewrite HV in *.
  set (F0 := neg (mmul (Z self) (mmul (get_R loc)
                (conjT (mmul (block12 (cols_upto V (n self)) (Arnoldifyer.U self))
                             (get_QT loc)))))) in *.
  assert (HF0r : nrows F0 = nrows V)
    by (unfold F0; autorewrite with shape; lia).
  assert (HF0c : ncols F0 = nrows V)
    by (unfold F0; autorewrite with shape; lia).
  rewrite add_same_shape in HF1 by (autorewrite with shape; lia).
  injection HF1 as <-. split.
  - rewrite conjT_madd by (autorewrite with shape; lia).
    rewrite conjT_conjT by apply wf_neg.
    apply madd_comm; autorewrite with shape; lia.
  - unfold shape. autorewrite with shape. rewrite HF0r, HF0c. reflexivity.
Qed.

(** A matrix whose unitary conjugate is zero is zero. *)
Lemma unitary_conjugate_zero (T0 H0 : matrix) (k : nat) :
  wf H0 -> nrows T0 = k -> ncols T0 = k -> nrows H0 = k -> ncols H0 = k ->
  mmul (conjT T0) T0 = eye k k ->
  mmul T0 (mmul H0 (conjT T0)) = zeros k k ->
  H0 = zeros k k.
Proof.
  intros HwH HTr HTc HHr HHc HTT Hz.
  assert (H1 : mmul (conjT T0) (mmul (mmul T0 (mmul H0 (conjT T0))) T0) = H0).
  { rewrite (mmul_assoc T0 (mmul H0 (conjT T0)) T0)
      by (autorewrite with shape; lia).
    rewrite (mmul_assoc H0 (conjT T0) T0) by (autorewrite with shape; lia).
    rewrite HTT. rewrite (mmul_eye_r_at H0 k HwH HHc).
    rewrite <- (mmul_assoc (conjT T0) T0 H0) by (autorewrite with shape; lia).
    rewrite HTT. apply mmul_eye_l_at; assumption. }
  rewrite <- H1, Hz.
  rewrite mmul_zeros_l by lia. rewrite HTc.
  rewrite mmul_zeros_r by (autorewrite with shape; lia).
  autorewrite with shape. rewrite HTc. reflexivity.
Qed.

(** X6.  Reducing onto the whole space leaves nothing: on an instance
    [__init__] returned, for [Wt] the identity of size [n + d], the solves
    with [E] and with [PtE] meeting the contract of [numpy.linalg.solve] and
    the Hessenberg reduction its own, [get] returns a zero [H] and a zero
    [R]. *)
Theorem full_space_reduction_is_zero
    (V U AU H B_ C E : matrix) (Pv_norm : F) (U_v : matrix) (self : t)
    (loc : locals) (full : bool) (out : returned) :
  __init__ V U AU H B_ C E Pv_norm U_v = Ok self ->
  (0 < ncols U -> solve_contract E C) ->
  let p := ncols H + ncols U in
  get_locals self (eye p p) = Ok loc ->
  solve_contract loc.(get_PtE) (mmul (conjT (eye p p)) self.(J)) ->
  hessenberg_contract (hessenberg_arg self loc) ->
  fst (get (eye p p) full self) = Ok out ->
  returned_H out = zeros p p /\
  returned_R out = zeros (nrows self.(N)) p.
Proof.
  intros Hinit HsE p Hloc HsP Hhess Hout.
  pose proof (init_built _ _ _ _ _ _ _ _ _ _ Hinit) as Hb.
  destruct (init_inv _ _ _ _ _ _ _ _ _ _ Hinit) as [EinvC [Q1 Hc]].
  pose proof (init_stored _ _ _ _ _ _ _ _ _ _ _ _ Hc) as (Hn & Hd & _).
  clear Hc.
  destruct (get_Pt_projector _ _ _ _ _ _ _ _ _ _ _ _ Hinit HsE Hloc HsP)
    as (_ & HPtL & _).
  destruct (get_locals_inv _ _ _ Hb Hloc) as [Xs Ht].
  destruct (get_Ok_inv _ _ _ _ Hout) as (loc' & Hloc' & Hret).
  rewrite Hloc in Hloc'. injection Hloc' as <-.
  destruct (get_return_HR _ _ _ _ Hret) as [-> ->].
  destruct Hb, Ht. rewrite Hn, Hd in *. fold p in HPtL |- *.
  rewrite (mmul_eye_r_at (L self) p b_L_wf0 b_L_cols0) in HPtL.
  rewrite ncols_eye in HPtL.
  destruct (Hhess _ _ t_hess0)
    as (_ & HwH & HHr & HHc & HwT & HTr & [HTsq [_ HTT]] & HX & _).
  rewrite t_T_rows0 in HTT.
  assert (HTc : ncols (get_T loc) = p) by lia.
  assert (Harg : hessenberg_arg self loc = zeros p p).
  { unfold hessenberg_arg. rewrite t_LQ0.
    rewrite conjT_mmul by (autorewrite with shape; lia).
    rewrite conjT_conjT by exact b_L_wf0.
    rewrite <- (mmul_assoc (get_Pt loc) (L self)) by lia.
    rewrite HPtL. rewrite mmul_zeros_l by (autorewrite with shape; lia).
    rewrite mmul_zeros_r by (autorewrite with shape; lia).
    autorewrite with shape. rewrite t_Q_rows0. reflexivity. }
  rewrite Harg in HX, HHr, HHc. unfold canonical in HX.
  rewrite (wf_zeros _ _ : wf (zeros _ _)) in HX.
  autorewrite with shape in HHr, HHc.
  split.
  - apply (unitary_conjugate_zero (get_T loc)); try assumption; lia.
  - rewrite t_R0.
    rewrite <- (mmul_assoc (get_Pt loc) (L self)) by lia.
    rewrite HPtL. rewrite mmul_zeros_l by (rewrite t_QT0; autorewrite with shape; lia).
    rewrite mmul_zeros_r by lia.
    rewrite t_QT0. autorewrite with shape. rewrite HTc. reflexivity.
Qed.

(** The reduced basis [W Q T] is orthonormal when [W] is. *)
Lemma orthonormal_core (W Q0 T0 : matrix) (k : nat) :
  wf T0 -> ncols W = k -> nrows Q0 = k -> ncols Q0 = k ->
  nrows T0 = k -> ncols T0 = k ->
  conjT Q0 = Q0 -> mmul Q0 Q0 = eye k k -> mmul (conjT T0) T0 = eye k k ->
  mmul (conjT W) W = eye k k ->
  mmul (conjT (mmul W (mmul Q0 T0))) (mmul W (mmul Q0 T0)) = eye k k.
Proof.
  intros HwT HWc HQr HQc HTr HTc HQh HQQ HTT HWW.
  rewrite conjT_mmul by (autorewrite with shape; lia).
  rewrite (mmul_assoc (conjT (mmul Q0 T0))) by (autorewrite with shape; lia).
  rewrite <- (mmul_assoc (conjT W) W) by (autorewrite with shape; lia).
  rewrite HWW.
  rewrite (mmul_eye_l_at (mmul Q0 T0) k)
    by (try apply wf_mmul; autorewrite with shape; lia).
  rewrite conjT_mmul by lia. rewrite HQh.
  rewrite (mmul_assoc (conjT T0)) by (autorewrite with shape; lia).
  rewrite <- (mmul_assoc Q0 Q0 T0) by lia. rewrite HQQ.
  rewrite (mmul_eye_l_at T0 k HwT HTr). exact HTT.
Qed.

(** X7.  The reduced basis is orthonormal when the given basis is: on an
    instance [__init__] returned and a [Wt] on which [get(Wt, full=True)]
    returns, the reflector and the Hessenberg reduction meeting their
    contracts, if the columns of [[V_n, U]] are orthonormal then so are the
    columns of the returned [Vh]. *)
Theorem reduced_basis_is_orthonormal
    (V U AU H B_ C E : matrix) (Pv_norm : F) (U_v : matrix) (self : t)
    (Wt : matrix) (loc : locals) (Hh Rh Vh Fh : matrix) :
  __init__ V U AU H B_ C E Pv_norm U_v = Ok self ->
  get_locals self Wt = Ok loc ->
  fst (get Wt true self) = Ok (HRVhF Hh Rh Vh Fh) ->
  House_contract loc.(get_q) ->
  hessenberg_contract (hessenberg_arg self loc) ->
  let p := ncols H + ncols U in
  let VnU := block12 (cols_upto V (ncols H)) U in
  mmul (conjT VnU) VnU = eye p p ->
  mmul (conjT Vh) Vh = eye p p.
Proof.
  intros Hinit Hloc Hget HHouse Hhess p VnU HVV.
  pose proof (init_built _ _ _ _ _ _ _ _ _ _ Hinit) as Hb.
  destruct (init_inv _ _ _ _ _ _ _ _ _ _ Hinit) as [EinvC [Q1 Hc]].
  pose proof (init_stored _ _ _ _ _ _ _ _ _ _ _ _ Hc)
    as (Hn & Hd & _ & HV & HU & _).
  clear Hc.
  destruct (get_locals_inv _ _ _ Hb Hloc) as [Xs Ht].
  unfold get, call in Hget. simpl in Hget. rewrite Hloc in Hget. simpl in Hget.
  apply get_return_full_inv in Hget.
  destruct Hget as (_ & _ & _ & HVUc & -> & _).
  rewrite Hn, HV, HU in *. fold VnU in HVUc |- *.
  destruct Hb, Ht. rewrite Hn, Hd, ?HV, ?HU in *.
  destruct (HHouse _ t_Q0) as (_ & _ & _ & _ & HQh & HQQ & _).
  destruct (Hhess _ _ t_hess0)
    as (_ & _ & _ & _ & HwT & _ & [HTsq [_ HTT]] & _).
  rewrite t_q0 in HQQ. autorewrite with shape in HQQ.
  rewrite b_J_rows0 in HQQ. rewrite t_T_rows0 in HTT.
  rewrite t_QT0 in HVUc |- *. autorewrite with shape in HVUc.
  apply orthonormal_core; try assumption; try lia.
Qed.

End GetProperties.

(** ** The further properties on the examples *)

Module PropertyExamples.
Import Exact Examples Arnoldifyer ConstructionExamples GetExamples.

Lemma construction_requirements_witness :
  __init__ V_d U_d AU_d H_d B_d C_d E_d (z 1) Uv_d = Ok self_d /\
  shape H_d = (2, 1) /\ shape C_d = (1, 1) /\ shape E_d = (1, 1) /\
  self_d.(n) = 1 /\ self_d.(d) = 1 /\ self_d.(invariant) = false.
Proof.
  pose proof (construction_requirements _ _ _ _ _ _ _ _ _ _ init_d) as X.
  cbv zeta in X.
  destruct X as (HH & _ & _ & HC & HE & _ & Hn & Hd & Hi & _).
  split; [exact init_d|]. split; [exact HH|]. split; [exact HC|].
  split; [exact HE|]. split; [exact Hn|]. split; [exact Hd | exact Hi].
Defined.

Lemma J_dot_L_is_M_witness :
  __init__ V_d U_d AU_d H_d B_d C_d E_d (z 1) Uv_d = Ok self_d /\
  solve_contract E_d C_d /\
  dot self_d.(J) self_d.(L) = Ok self_d.(M).
Proof.
  split; [exact init_d|]. split; [exact solve_contract_E_d_C_d|].
  exact (J_dot_L_is_M _ _ _ _ _ _ _ _ _ _ init_d
           (fun _ => solve_contract_E_d_C_d)).
Defined.

Lemma get_rejects_wrong_row_count_witness :
  __init__ V_d U_d AU_d H_d B_d C_d E_d (z 1) Uv_d = Ok self_d /\
  nrows (eye 3 3) <> ncols H_d + ncols U_d /\
  fst (get (eye 3 3) true self_d) = Raise ValueError.
Proof.
  assert (H3 : nrows (eye 3 3) <> ncols H_d + ncols U_d)
    by (intros H; discriminate H).
  split; [exact init_d|]. split; [exact H3|].
  exact (get_rejects_wrong_row_count _ _ _ _ _ _ _ _ _ _ (eye 3 3) true init_d H3).
Defined.

Lemma Pt_is_oblique_projector_witness :
  __init__ V_d U_d AU_d H_d B_d C_d E_d (z 1) Uv_d = Ok self_d /\
  solve_contract E_d C_d /\
  get_locals self_d Wt_d = Ok loc_d /\
  solve_contract loc_d.(get_PtE) (mmul (conjT Wt_d) self_d.(J)) /\
  mmul loc_d.(get_Pt) loc_d.(get_Pt) = loc_d.(get_Pt) /\
  mmul loc_d.(get_Pt) (mmul self_d.(L) Wt_d) = zeros 3 1 /\
  mmul (mmul (conjT Wt_d) self_d.(J)) loc_d.(get_Pt) = zeros 1 3.
Proof.
  pose proof (Pt_is_oblique_projector _ _ _ _ _ _ _ _ _ _ _ _ init_d
                (fun _ => solve_contract_E_d_C_d) get_locals_d solve_contract_PtE_d)
    as X.
  cbv zeta in X. destruct X as (H1 & H2 & H3).
  split; [exact init_d|]. split; [exact solve_contract_E_d_C_d|].
  split; [exact get_locals_d|]. split; [exact solve_contract_PtE_d|].
  split; [exact H1|]. split; [exact H2 | exact H3].
Defined.

Lemma returned_F_is_Hermitian_witness :
  __init__ V_d U_d AU_d H_d B_d C_d E_d (z 1) Uv_d = Ok self_d /\
  fst (get Wt_d true self_d)
    = Ok (HRVhF (returned_H out_d) (returned_R out_d) Vh_d Fh_d) /\
  conjT Fh_d = Fh_d /\ shape Fh_d = (4, 4).
Proof.
  destruct (returned_F_is_Hermitian _ _ _ _ _ _ _ _ _ _ _ _ _ _ _ init_d get_d)
    as [H1 H2].
  split; [exact init_d|]. split; [exact get_d|]. split; [exact H1 | exact H2].
Defined.

(** The reduction onto the whole space, [Wt = eye(2)]. *)
Definition loc_e : locals :=
  Eval vm_compute in
    match get_locals self_d (eye 2 2) with
    | Ok loc => loc
    | Raise _ => Locals (zeros 0 0) (zeros 0 0) (zeros 0 0) (zeros 0 0) (zeros 0 0)
                   (zeros 0 0) (zeros 0 0) (zeros 0 0) (zeros 0 0) (zeros 0 0)
    end.

Lemma get_locals_e : get_locals self_d (eye 2 2) = Ok loc_e.
Proof. reflexivity. Qed.

Definition M_d_inverse : matrix :=
  of_rows 2 2 [[frac 3 25; frac (-4) 25]; [frac 4 25; frac 3 25]].

Lemma solve_contract_PtE_e :
  solve_contract loc_e.(get_PtE) (mmul (conjT (eye 2 2)) self_d.(J)).
Proof.
  unfold solve_contract.
  eval_call (linalg_solve loc_e.(get_PtE) (mmul (conjT (eye 2 2)) self_d.(J))).
  split; [reflexivity|]. split.
  { split; [reflexivity|]. exists M_d_inverse.
    split; [reflexivity|]. split; [reflexivity|].
    split; [reflexivity|]. split; qc_mat. }
  split; [reflexivity|]. split; [reflexivity|].
  split; [reflexivity|]. qc_mat.
Qed.

Lemma hessenberg_contract_e : hessenberg_contract (hessenberg_arg self_d loc_e).
Proof.
  intros H0 T0 HH.
  assert (HH0 : linalg_hessenberg (hessenberg_arg self_d loc_e)
                = Ok (loc_e.(get_H), loc_e.(get_T))) by reflexivity.
  rewrite HH0 in HH. injection HH as <- <-.
  split; [reflexivity|]. split; [reflexivity|].
  split; [reflexivity|]. split; [reflexivity|].
  split; [reflexivity|]. split; [reflexivity|].
  split; [split; [reflexivity | split; qc_mat]|].
  split; [qc_mat|].
  intros i j Hi Hj. change (nrows (hessenberg_arg self_d loc_e)) with 2 in Hi. lia.
Qed.

Lemma full_space_reduction_is_zero_witness :
  __init__ V_d U_d AU_d H_d B_d C_d E_d (z 1) Uv_d = Ok self_d /\
  solve_contract E_d C_d /\
  get_locals self_d (eye 2 2) = Ok loc_e /\
  solve_contract loc_e.(get_PtE) (mmul (conjT (eye 2 2)) self_d.(J)) /\
  hessenberg_contract (hessenberg_arg self_d loc_e) /\
  fst (get (eye 2 2) false self_d) = Ok (HR loc_e.(get_H) loc_e.(get_R)) /\
  loc_e.(get_H) = zeros 2 2 /\ loc_e.(get_R) = zeros 2 2.
Proof.
  assert (Hget : fst (get (eye 2 2) false self_d)
                 = Ok (HR loc_e.(get_H) loc_e.(get_R))) by reflexivity.
  pose proof (full_space_reduction_is_zero _ _ _ _ _ _ _ _ _ _ loc_e false _ init_d
                (fun _ => solve_contract_E_d_C_d) get_locals_e
                solve_contract_PtE_e hessenberg_contract_e Hget) as X.
  destruct X as [H1 H2].
  split; [exact init_d|]. split; [exact solve_contract_E_d_C_d|].
  split; [exact get_locals_e|]. split; [exact solve_contract_PtE_e|].
  split; [exact hessenberg_contract_e|]. split; [exact Hget|].
  split; [exact H1 | exact H2].
Defined.

Lemma reduced_basis_is_orthonormal_witness :
  __init__ V_d U_d AU_d H_d B_d C_d E_d (z 1) Uv_d = Ok self_d /\
  get_locals self_d Wt_d = Ok loc_d /\
  fst (get Wt_d true self_d)
    = Ok (HRVhF (returned_H out_d) (returned_R out_d) Vh_d Fh_d) /\
  House_contract loc_d.(get_q) /\
  hessenberg_contract (hessenberg_arg self_d loc_d) /\
  mmul (conjT (block12 (cols_upto V_d 1) U_d)) (block12 (cols_upto V_d 1) U_d)
    = eye 2 2 /\
  mmul (conjT Vh_d) Vh_d = eye 2 2.
Proof.
  assert (HVV : mmul (conjT (block12 (cols_upto V_d 1) U_d))
                     (block12 (cols_upto V_d 1) U_d) = eye 2 2) by qc_mat.
  pose proof (reduced_basis_is_orthonormal _ _ _ _ _ _ _ _ _ _ _ _ _ _ _ _
                init_d get_locals_d get_d House_contract_d hessenberg_contract_d
                HVV) as X.
  split; [exact init_d|]. split; [exact get_locals_d|]. split; [exact get_d|].
  split; [exact House_contract_d|]. split; [exact hessenberg_contract_d|].
  split; [exact HVV | exact X].
Defined.

End PropertyExamples.
